(** * A 4-operator FM synthesizer on the Web Audio API (src/src/App.js)

    Shallow embedding of the synthesis engine of [App.js] (classes
    [Operator] and [FMSynth], the module-level [activeNotes] map) and of
    the patch import handler of the [App] component, followed by the
    properties of the engine stated in the specification.

    Conventions of the embedding.
    - A JavaScript number is a real number ([R]); [Math.pow] on the positive
      base 2 is [Rpower].  MIDI note numbers and the [algorithm] selector
      are integers ([Z]): the first is a [Map] key, the second is compared
      by the [switch] against the integer literals 1..6.
    - The Web Audio objects the engine creates live in the audio context:
      a node is identified by its index in [nodes], a connection is an
      entry of [edges].  An [AudioParam] is its current value together
      with its timeline of automation events.
    - A method is a computation in the monad [JS]: it threads the runtime
      and either returns or throws; what was done before a [throw] stays
      done, as in JavaScript. *)

From Stdlib Require Import Reals Lra ZArith String.
From stdpp Require Import base option list gmap strings pretty.

(* ================================================================= *)
(** ** Patch data *)

(** [osc.type], one of the four strings the waveform selector offers. *)
Inductive OscillatorType := sine | square | sawtooth | triangle.

(** One element of [patch.operators]. *)
Record OperatorParams := {
  on : bool;
  ratio : R;
  detune : R;
  level : R;
  attack : R;
  decay : R;
  sustain : R;
  release : R;
  waveform : OscillatorType
}.

(** The patch object ([initialPatch] and its edits).  The engine never
    reads [masterGain] of the patch. *)
Record Patch := {
  algorithm : Z;
  patchMasterGain : R;
  operators : list OperatorParams
}.

(* ================================================================= *)
(** ** The Web Audio objects used by the engine *)

(** An automation event on an [AudioParam] timeline:
    [setValueAtTime(v, t)] and [linearRampToValueAtTime(v, t)]. *)
Inductive AutomationEvent :=
| SetValue (v t : R)
| LinearRamp (v t : R).

Definition eventTime (e : AutomationEvent) : R :=
  match e with SetValue _ t | LinearRamp _ t => t end.

Definition eventValue (e : AutomationEvent) : R :=
  match e with SetValue v _ | LinearRamp v _ => v end.

(** [value] is what the [value] getter returns (the value the renderer
    last computed, or the one last assigned); [events] is the timeline,
    ordered by time. *)
Record AudioParam := {
  value : R;
  events : list AutomationEvent
}.

Record Oscillator := {
  osc_type : OscillatorType;
  frequency : AudioParam;
  started : bool;
  stopTime : option R
}.

Inductive AudioNode :=
| OscillatorNode (o : Oscillator)
| GainNode (gain : AudioParam).

(** What a node's output can be connected to: the input of another node,
    the [frequency] param of an oscillator node, or
    [context.destination]. *)
Inductive Input :=
| NodeInput (n : nat)
| FrequencyInput (n : nat)
| Destination.

Inductive AudioContextState := suspended | running | closed.

(** An [Operator] object: references to its oscillator and to its
    envelope gain; [this.output] is the envelope gain. *)
Record Operator := {
  osc : nat;
  env : nat
}.

Definition output (op : Operator) : nat := env op.

(* ================================================================= *)
(** ** Runtime *)

(** The audio context ([currentTime], [state], the [resume()] calls it
    received, its nodes and connections), the module-level [activeNotes]
    map, and the fields [masterGain] and [patch] of the one [FMSynth]
    instance the application creates ([patch] is [None] for [null]). *)
Record Runtime := {
  currentTime : R;
  state : AudioContextState;
  resumeCalls : nat;
  nodes : list AudioNode;
  edges : list (nat * Input);
  activeNotes : gmap Z (list Operator);
  masterGain : nat;
  patch : option Patch
}.

Definition set_nodes (f : list AudioNode → list AudioNode) (s : Runtime) : Runtime :=
  {| currentTime := currentTime s; state := state s;
     resumeCalls := resumeCalls s;
     nodes := f (nodes s); edges := edges s;
     activeNotes := activeNotes s;
     masterGain := masterGain s; patch := patch s |}.

Definition set_edges (f : list (nat * Input) → list (nat * Input)) (s : Runtime) : Runtime :=
  {| currentTime := currentTime s; state := state s;
     resumeCalls := resumeCalls s;
     nodes := nodes s; edges := f (edges s);
     activeNotes := activeNotes s;
     masterGain := masterGain s; patch := patch s |}.

Definition set_activeNotes (f : gmap Z (list Operator) → gmap Z (list Operator))
    (s : Runtime) : Runtime :=
  {| currentTime := currentTime s; state := state s;
     resumeCalls := resumeCalls s;
     nodes := nodes s; edges := edges s;
     activeNotes := f (activeNotes s);
     masterGain := masterGain s; patch := patch s |}.

Definition set_patch (p : option Patch) (s : Runtime) : Runtime :=
  {| currentTime := currentTime s; state := state s;
     resumeCalls := resumeCalls s;
     nodes := nodes s; edges := edges s;
     activeNotes := activeNotes s;
     masterGain := masterGain s; patch := p |}.

Definition set_resumeCalls (f : nat → nat) (s : Runtime) : Runtime :=
  {| currentTime := currentTime s; state := state s;
     resumeCalls := f (resumeCalls s);
     nodes := nodes s; edges := edges s;
     activeNotes := activeNotes s;
     masterGain := masterGain s; patch := patch s |}.

(* ================================================================= *)
(** ** The monad of methods *)

Inductive Exception := TypeError | InvalidStateError.

Inductive Completion (A : Type) :=
| Return (a : A)
| Throw (e : Exception).
Arguments Return {A} a.
Arguments Throw {A} e.

Definition JS (A : Type) : Type := Runtime → Completion A * Runtime.

Definition ret {A} (a : A) : JS A := λ s, (Return a, s).

Definition bind {A B} (m : JS A) (k : A → JS B) : JS B :=
  λ s, match m s with
       | (Return a, s') => k a s'
       | (Throw e, s') => (Throw e, s')
       end.

Definition throw {A} (e : Exception) : JS A := λ s, (Throw e, s).

(** [try { m } catch (e) { }] with an empty handler. *)
Definition try_ignore (m : JS unit) : JS unit :=
  λ s, match m s with
       | (Return a, s') => (Return a, s')
       | (Throw _, s') => (Return tt, s')
       end.

Definition gets {A} (f : Runtime → A) : JS A := λ s, (Return (f s), s).

Definition modify (f : Runtime → Runtime) : JS unit := λ s, (Return tt, f s).

Declare Scope js_scope.
Delimit Scope js_scope with js.
Notation "'let*' x ':=' m 'in' k" := (bind m (λ x, k))
  (at level 10, x name, m at level 100, k at level 200) : js_scope.
Notation "m ';;;' k" := (bind m (λ _, k))
  (at level 100, k at level 200, right associativity) : js_scope.
Open Scope js_scope.

(** [array.forEach((x, i) => body)]: the callback runs on each element in
    order, with its index; a throw stops the loop. *)
Fixpoint forEach_from {A} (i : nat) (body : A → nat → JS unit) (l : list A) : JS unit :=
  match l with
  | [] => ret tt
  | x :: l' => body x i ;;; forEach_from (S i) body l'
  end.

Definition forEach {A} (body : A → nat → JS unit) (l : list A) : JS unit :=
  forEach_from 0 body l.

(** [Array(n).fill(null).map(() => make)]: [n] calls of [make], in order. *)
Fixpoint array_of {A} (n : nat) (make : JS A) : JS (list A) :=
  match n with
  | O => ret []
  | S n' => let* x := make in let* l := array_of n' make in ret (x :: l)
  end.

(* ================================================================= *)
(** ** Web Audio operations *)

#[global] Instance Rlt_decision (x y : R) : Decision (x < y)%R := Rlt_dec x y.
#[global] Instance Req_decision : EqDecision R := Req_dec_T.

Section WebAudio.
Local Open Scope R_scope.

(** *** On one [AudioParam] *)

(** [param.cancelScheduledValues(t)] removes the events scheduled at or
    after [t]. *)
Definition cancelEvents (t : R) (p : AudioParam) : AudioParam :=
  {| value := value p;
     events := filter (λ e, eventTime e < t) (events p) |}.

(** A new event goes after the events that are not later than it. *)
Fixpoint insertEvent (e : AutomationEvent) (l : list AutomationEvent)
    : list AutomationEvent :=
  match l with
  | [] => [e]
  | x :: l' =>
      if decide (eventTime e < eventTime x) then e :: x :: l'
      else x :: insertEvent e l'
  end.

Definition scheduleEvent (e : AutomationEvent) (p : AudioParam) : AudioParam :=
  {| value := value p; events := insertEvent e (events p) |}.

(** [param.value = v]: the value the getter returns from now on (the
    timeline is left as it is). *)
Definition assignValue (v : R) (p : AudioParam) : AudioParam :=
  {| value := v; events := events p |}.

(** The value the renderer computes at time [t] on a timeline, [v0] and
    [t0] being the value and the time of the event before: a
    [SetValue] holds its value from its time on, a [LinearRamp]
    interpolates linearly from the event before to its own value at its
    own time, and holds it afterwards. *)
Fixpoint valueFrom (v0 t0 : R) (l : list AutomationEvent) (t : R) : R :=
  match l with
  | [] => v0
  | SetValue v te :: l' =>
      if decide (t < te) then v0 else valueFrom v te l' t
  | LinearRamp v te :: l' =>
      if decide (t < te) then v0 + (v - v0) * ((t - t0) / (te - t0))
      else valueFrom v te l' t
  end.

(** The value of a param at time [t]; before its first event the param
    keeps its current value. *)
Definition valueAt (p : AudioParam) (t : R) : R :=
  valueFrom (value p) t (events p) t.

(** *** Params inside the context *)

(** [node.gain] of a gain node, [node.frequency] of an oscillator node. *)
Inductive ParamRef :=
| gain_of (n : nat)
| frequency_of (n : nat).

Definition with_frequency (f : AudioParam → AudioParam) (o : Oscillator) : Oscillator :=
  {| osc_type := osc_type o; frequency := f (frequency o);
     started := started o; stopTime := stopTime o |}.

Definition lookupParam (r : ParamRef) (ns : list AudioNode) : option AudioParam :=
  match r with
  | gain_of n =>
      match ns !! n with Some (GainNode g) => Some g | _ => None end
  | frequency_of n =>
      match ns !! n with
      | Some (OscillatorNode o) => Some (frequency o)
      | _ => None
      end
  end.

Definition alterParam (f : AudioParam → AudioParam) (r : ParamRef)
    (ns : list AudioNode) : list AudioNode :=
  match r with
  | gain_of n =>
      alter (λ nd, match nd with
                   | GainNode g => GainNode (f g)
                   | _ => nd
                   end) n ns
  | frequency_of n =>
      alter (λ nd, match nd with
                   | OscillatorNode o => OscillatorNode (with_frequency f o)
                   | _ => nd
                   end) n ns
  end.

(** A method of a param that is not there is a [TypeError]. *)
Definition onParam (r : ParamRef) (f : AudioParam → AudioParam) : JS unit :=
  let* ns := gets nodes in
  match lookupParam r ns with
  | Some _ => modify (set_nodes (alterParam f r))
  | None => throw TypeError
  end.

Definition get_value (r : ParamRef) : JS R :=
  let* ns := gets nodes in
  match lookupParam r ns with
  | Some p => ret (value p)
  | None => throw TypeError
  end.

Definition set_value (r : ParamRef) (v : R) : JS unit :=
  onParam r (assignValue v).

Definition cancelScheduledValues (r : ParamRef) (t : R) : JS unit :=
  onParam r (cancelEvents t).

Definition setValueAtTime (r : ParamRef) (v t : R) : JS unit :=
  onParam r (scheduleEvent (SetValue v t)).

Definition linearRampToValueAtTime (r : ParamRef) (v t : R) : JS unit :=
  onParam r (scheduleEvent (LinearRamp v t)).

(** *** Nodes *)

(** A new node gets the next index. [context.createOscillator()]: a
    sine at 440 Hz, not started. [context.createGain()]: gain 1. *)
Definition createNode (nd : AudioNode) : JS nat :=
  let* ns := gets nodes in
  modify (set_nodes (λ ns, ns ++ [nd])) ;;;
  ret (length ns).

Definition createOscillator : JS nat :=
  createNode (OscillatorNode
    {| osc_type := sine;
       frequency := {| value := 440; events := [] |};
       started := false; stopTime := None |}).

Definition createGain : JS nat :=
  createNode (GainNode {| value := 1; events := [] |}).

(** [source.connect(destination)] *)
Definition connect (source : nat) (destination : Input) : JS unit :=
  modify (set_edges (λ es, es ++ [(source, destination)])).

(** [osc.type = w] *)
Definition set_type (n : nat) (w : OscillatorType) : JS unit :=
  let* ns := gets nodes in
  match ns !! n with
  | Some (OscillatorNode o) =>
      modify (set_nodes (<[n := OscillatorNode
        {| osc_type := w; frequency := frequency o;
           started := started o; stopTime := stopTime o |}]>))
  | _ => throw TypeError
  end.

(** [osc.start()]: an oscillator starts once. *)
Definition start (n : nat) : JS unit :=
  let* ns := gets nodes in
  match ns !! n with
  | Some (OscillatorNode o) =>
      if started o then throw InvalidStateError
      else modify (set_nodes (<[n := OscillatorNode
        {| osc_type := osc_type o; frequency := frequency o;
           started := true; stopTime := stopTime o |}]>))
  | _ => throw TypeError
  end.

(** [osc.stop(t)]: only a started oscillator can be stopped. *)
Definition stop (n : nat) (t : R) : JS unit :=
  let* ns := gets nodes in
  match ns !! n with
  | Some (OscillatorNode o) =>
      if started o
      then modify (set_nodes (<[n := OscillatorNode
        {| osc_type := osc_type o; frequency := frequency o;
           started := true; stopTime := Some t |}]>))
      else throw InvalidStateError
  | _ => throw TypeError
  end.

(** [context.resume()] *)
Definition resume : JS unit := modify (set_resumeCalls S).

(** [Math.pow(b, e)] for a positive base. *)
Definition Math_pow (b e : R) : R := Rpower b e.

End WebAudio.

(* ================================================================= *)
(** ** class Operator *)

Section Engine.
Local Open Scope R_scope.

(** [new Operator(context)] *)
Definition Operator_new : JS Operator :=
  let* osc := createOscillator in
  let* env := createGain in
  set_value (gain_of env) 0 ;;;
  connect osc (NodeInput env) ;;;
  start osc ;;;
  ret {| osc := osc; env := env |}.

(** [connect(destination)] *)
Definition Operator_connect (this : Operator) (destination : Input) : JS unit :=
  connect (output this) destination.

(** [scheduleEnvelope(params, time)]; [time] is [None] when the argument
    is left out, and [time || currentTime] also takes [currentTime] for
    a [time] of 0. *)
Definition scheduleEnvelope (this : Operator) (params : OperatorParams)
    (time : option R) : JS unit :=
  let* currentTime := gets currentTime in
  let now := match time with
             | Some t => if decide (t = 0) then currentTime else t
             | None => currentTime
             end in
  let gain := gain_of (env this) in
  cancelScheduledValues gain now ;;;
  let* v := get_value gain in
  setValueAtTime gain v now ;;;
  linearRampToValueAtTime gain 1 (now + attack params) ;;;
  linearRampToValueAtTime gain (sustain params)
    (now + attack params + decay params).

(** [triggerRelease(params)] *)
Definition triggerRelease (this : Operator) (params : OperatorParams) : JS unit :=
  let* now := gets currentTime in
  let gain := gain_of (env this) in
  cancelScheduledValues gain now ;;;
  let* v := get_value gain in
  setValueAtTime gain v now ;;;
  linearRampToValueAtTime gain 0 (now + release params) ;;;
  try_ignore (stop (osc this) (now + release params + 0.5)).

(* ================================================================= *)
(** ** class FMSynth *)

(** [new FMSynth(context)] *)
Definition FMSynth_new : JS unit :=
  let* g := createGain in
  set_value (gain_of g) 0.5 ;;;
  connect g Destination ;;;
  modify (λ s,
    {| currentTime := currentTime s; state := state s;
       resumeCalls := resumeCalls s;
       nodes := nodes s; edges := edges s;
       activeNotes := activeNotes s;
       masterGain := g; patch := None |}).

(** [setPatch(patch)] *)
Definition setPatch (p : Patch) : JS unit := modify (set_patch (Some p)).

(** [opParams[i]?.on], as a condition. *)
Definition is_on (params : option OperatorParams) : bool :=
  match params with
  | Some p => on p
  | None => false
  end.

(** The helper [connectModulator] of [noteOn]; [opParams] and
    [noteOperators] are the variables of [noteOn] it closes over. *)
Definition connectModulator (opParams : list OperatorParams)
    (noteOperators : list Operator) (modIndex carIndex : nat) : JS unit :=
  if negb (is_on (opParams !! modIndex)) || negb (is_on (opParams !! carIndex))
  then ret tt
  else
    match noteOperators !! modIndex, noteOperators !! carIndex,
          opParams !! modIndex with
    | Some modulator, Some carrier, Some modP =>
        let* modGain := createGain in
        set_value (gain_of modGain) (level modP * 5000) ;;;
        connect (output modulator) (NodeInput modGain) ;;;
        connect modGain (FrequencyInput (osc carrier))
    | _, _, _ => throw TypeError
    end.

(** The helper [connectCarrier] of [noteOn]. *)
Definition connectCarrier (opParams : list OperatorParams)
    (noteOperators : list Operator) (carIndex : nat) : JS unit :=
  if negb (is_on (opParams !! carIndex))
  then ret tt
  else
    match noteOperators !! carIndex, opParams !! carIndex with
    | Some carrier, Some carP =>
        let* carGain := createGain in
        set_value (gain_of carGain) (level carP) ;;;
        connect (output carrier) (NodeInput carGain) ;;;
        let* masterGain := gets masterGain in
        connect carGain (NodeInput masterGain)
    | _, _ => throw TypeError
    end.

(** The [switch (algorithm)] of [noteOn]. *)
Definition routing (algorithm : Z) (connectModulator : nat → nat → JS unit)
    (connectCarrier : nat → JS unit) : JS unit :=
  match algorithm with
  | 1%Z =>
      connectModulator 0%nat 1%nat ;;;
      connectModulator 1%nat 2%nat ;;;
      connectModulator 2%nat 3%nat ;;;
      connectCarrier 3%nat
  | 2%Z =>
      connectModulator 0%nat 1%nat ;;;
      connectCarrier 1%nat ;;;
      connectModulator 2%nat 3%nat ;;;
      connectCarrier 3%nat
  | 3%Z =>
      connectModulator 0%nat 2%nat ;;;
      connectModulator 1%nat 2%nat ;;;
      connectModulator 2%nat 3%nat ;;;
      connectCarrier 3%nat
  | 4%Z =>
      connectModulator 0%nat 3%nat ;;;
      connectModulator 1%nat 3%nat ;;;
      connectModulator 2%nat 3%nat ;;;
      connectCarrier 3%nat
  | 5%Z =>
      connectModulator 0%nat 1%nat ;;;
      connectCarrier 1%nat ;;;
      connectCarrier 2%nat ;;;
      connectCarrier 3%nat
  | _ =>
      connectCarrier 0%nat ;;;
      connectCarrier 1%nat ;;;
      connectCarrier 2%nat ;;;
      connectCarrier 3%nat
  end.

(** [this.patch] as a condition: an object is truthy, [null] is not. *)
Definition is_object (p : option Patch) : bool :=
  match p with Some _ => true | None => false end.

(** [this.context.state === 'suspended'] *)
Definition is_suspended (st : AudioContextState) : bool :=
  match st with suspended => true | _ => false end.

(** The callback of [noteOperators.forEach] in [noteOn]; [baseFreq] and
    [opParams] are the variables of [noteOn] it closes over. *)
Definition startOperator (baseFreq : R) (opParams : list OperatorParams)
    (op : Operator) (i : nat) : JS unit :=
  match opParams !! i with
  | None => throw TypeError
  | Some params =>
      if negb (on params) then ret tt
      else
        let freq := baseFreq * ratio params * (1 + detune params / 1000) in
        set_type (osc op) (waveform params) ;;;
        let* currentTime := gets currentTime in
        setValueAtTime (frequency_of (osc op)) freq currentTime ;;;
        scheduleEnvelope op params None
  end.

(** [noteOn(note)] *)
Definition noteOn (note : Z) : JS unit :=
  let* this_patch := gets patch in
  let* state := gets state in
  (if negb (is_object this_patch) || is_suspended state
   then resume else ret tt) ;;;
  let* has_note := gets (λ s, bool_decide (is_Some (activeNotes s !! note))) in
  if has_note then ret tt
  else
    let baseFreq := 440 * Math_pow 2 ((IZR note - 69) / 12) in
    let* noteOperators := array_of 4 Operator_new in
    let* this_patch := gets patch in
    match this_patch with
    | None => throw TypeError
    | Some this_patch =>
        let algorithm := algorithm this_patch in
        let opParams := operators this_patch in
        forEach (startOperator baseFreq opParams) noteOperators ;;;
        routing algorithm
          (connectModulator opParams noteOperators)
          (connectCarrier opParams noteOperators) ;;;
        modify (set_activeNotes (<[note := noteOperators]>))
    end.

(** The callback of [noteOperators.forEach] in [noteOff]: it reads
    [this.patch.operators[i]] when it runs. *)
Definition releaseOperator (op : Operator) (i : nat) : JS unit :=
  let* this_patch := gets patch in
  match this_patch with
  | None => throw TypeError
  | Some this_patch =>
      match operators this_patch !! i with
      | None => throw TypeError
      | Some params =>
          if on params then triggerRelease op params else ret tt
      end
  end.

(** [noteOff(note)] *)
Definition noteOff (note : Z) : JS unit :=
  let* noteOperators := gets (λ s, activeNotes s !! note) in
  match noteOperators with
  | None => ret tt
  | Some noteOperators =>
      forEach releaseOperator noteOperators ;;;
      modify (set_activeNotes (delete note))
  end.

End Engine.

(* ================================================================= *)
(** ** The application around the engine *)

Section Application.
Local Open Scope R_scope.

(** [new AudioContext()]: nothing built yet, in the state the browser
    gives it; then [new FMSynth(audioContext)], as [initAudio] does. *)
Definition newAudioContext (st : AudioContextState) : Runtime :=
  {| currentTime := 0; state := st; resumeCalls := 0;
     nodes := []; edges := [];
     activeNotes := ∅;
     masterGain := 0; patch := None |}.

Definition initial (st : AudioContextState) : Runtime :=
  (FMSynth_new (newAudioContext st)).2.

(** The audio thread: at time [t] every param has the value its
    timeline gives it. *)
Definition renderParam (t : R) (p : AudioParam) : AudioParam :=
  {| value := valueAt p t; events := events p |}.

Definition renderNode (t : R) (nd : AudioNode) : AudioNode :=
  match nd with
  | OscillatorNode o => OscillatorNode (with_frequency (renderParam t) o)
  | GainNode g => GainNode (renderParam t g)
  end.

Definition render (t : R) (s : Runtime) : Runtime :=
  {| currentTime := t; state := state s;
     resumeCalls := resumeCalls s;
     nodes := renderNode t <$> nodes s; edges := edges s;
     activeNotes := activeNotes s;
     masterGain := masterGain s; patch := patch s |}.

(** The context starts running (the request of [resume()] is granted),
    or the browser suspends it. *)
Definition set_state (st : AudioContextState) (s : Runtime) : Runtime :=
  {| currentTime := currentTime s; state := st;
     resumeCalls := resumeCalls s;
     nodes := nodes s; edges := edges s;
     activeNotes := activeNotes s;
     masterGain := masterGain s; patch := patch s |}.

(** What happens to the engine: the three calls of its event API, and
    the moves of the platform (the audio thread renders, the context
    starts running or is suspended).  An exception thrown by a call ends
    that call only; what it did before stays. *)
Inductive Call :=
| NoteOn (note : Z)
| NoteOff (note : Z)
| SetPatch (p : Patch)
| Render (t : R)
| Resumed
| Suspended.

Definition step (s : Runtime) (c : Call) : Runtime :=
  match c with
  | NoteOn note => (noteOn note s).2
  | NoteOff note => (noteOff note s).2
  | SetPatch p => (setPatch p s).2
  | Render t => render t s
  | Resumed => set_state running s
  | Suspended => set_state suspended s
  end.

Definition run (cs : list Call) (s : Runtime) : Runtime := foldl step s cs.

(** The voices registered for [note]. *)
Definition liveVoices (note : Z) (s : Runtime) : list (list Operator) :=
  (filter (λ kv, kv.1 = note) (map_to_list (activeNotes s))).*2.

(** [initialPatch] *)
Definition initialOperator (on : bool) (ratio level : R) : OperatorParams :=
  {| on := on; ratio := ratio; detune := 0; level := level;
     attack := 0.01; decay := 0.3; sustain := 0.8; release := 0.5;
     waveform := sine |}.

Definition initialPatch : Patch :=
  {| algorithm := 1; patchMasterGain := 0.5;
     operators := [ initialOperator true 1.00 0.8;
                    initialOperator true 1.00 0.5;
                    initialOperator false 5.00 0.4;
                    initialOperator true 1.00 0.99 ] |}.

(** [initialPatch] after two edits in the panel: the first operator is
    switched off, the release of the second one is set to 2 s. *)
Definition editedPatch : Patch :=
  {| algorithm := 1; patchMasterGain := 0.5;
     operators := [ initialOperator false 1.00 0.8;
                    {| on := true; ratio := 1.00; detune := 0; level := 0.5;
                       attack := 0.01; decay := 0.3; sustain := 0.8; release := 2;
                       waveform := sine |};
                    initialOperator false 5.00 0.4;
                    initialOperator true 1.00 0.99 ] |}.

End Application.

(* ================================================================= *)
(** ** The router of the specification *)

(** The router as the specification describes it (4.3), to be compared
    with the [switch] of [noteOn]: a fixed table of connections, walked
    through by one generic [route]. *)
Module AlgorithmRouter.

(** A modulator connection [m → c], a carrier connection [c → out];
    operators by index. *)
Inductive Connection :=
| Modulator (m c : nat)
| Carrier (c : nat).

(** The fixed topology table; a value outside 1..6 takes the row of 6. *)
Definition topology (algorithmId : Z) : list Connection :=
  match algorithmId with
  | 1%Z => [Modulator 0 1; Modulator 1 2; Modulator 2 3; Carrier 3]
  | 2%Z => [Modulator 0 1; Carrier 1; Modulator 2 3; Carrier 3]
  | 3%Z => [Modulator 0 2; Modulator 1 2; Modulator 2 3; Carrier 3]
  | 4%Z => [Modulator 0 3; Modulator 1 3; Modulator 2 3; Carrier 3]
  | 5%Z => [Modulator 0 1; Carrier 1; Carrier 2; Carrier 3]
  | 6%Z => [Carrier 0; Carrier 1; Carrier 2; Carrier 3]
  | _ => [Carrier 0; Carrier 1; Carrier 2; Carrier 3]
  end.

(** The output of [source], scaled by [factor], fed into [sink]: one new
    gain node between the two. *)
Definition scaled (source : nat) (factor : R) (sink : Input) (s : Runtime) : Runtime :=
  set_edges (λ es, es ++ [(source, NodeInput (length (nodes s)));
                          (length (nodes s), sink)])
    (set_nodes (λ ns, ns ++ [GainNode {| value := factor; events := [] |}]) s).

(** A modulator connection is skipped if either operator is off, and
    scales the modulator by [level * 5000] into the frequency of the
    carrier; a carrier connection is skipped if the operator is off, and
    scales it by [level] into the master mix. *)
Definition connection (operators : list Operator) (params : list OperatorParams)
    (masterSink : nat) (c : Connection) (s : Runtime) : Runtime :=
  match c with
  | Modulator m c =>
      match operators !! m, operators !! c, params !! m, params !! c with
      | Some om, Some oc, Some pm, Some pc =>
          if on pm && on pc
          then scaled (output om) (level pm * 5000) (FrequencyInput (osc oc)) s
          else s
      | _, _, _, _ => s
      end
  | Carrier c =>
      match operators !! c, params !! c with
      | Some oc, Some pc =>
          if on pc
          then scaled (output oc) (level pc) (NodeInput masterSink) s
          else s
      | _, _ => s
      end
  end.

(** [route(algorithmId, operators[4], params[4], masterSink)] *)
Definition route (algorithmId : Z) (operators : list Operator)
    (params : list OperatorParams) (masterSink : nat) (s : Runtime) : Runtime :=
  foldl (λ s c, connection operators params masterSink c s) s (topology algorithmId).

End AlgorithmRouter.

(* ================================================================= *)
(** ** What [noteOn] builds *)

Section Voice.
Local Open Scope R_scope.

(** The two nodes of a [new Operator(context)]: a started sine
    oscillator and an envelope gain at 0. *)
Definition freshOscillator : AudioNode :=
  OscillatorNode {| osc_type := sine;
                    frequency := {| value := 440; events := [] |};
                    started := true; stopTime := None |}.

Definition freshEnvelope : AudioNode := GainNode {| value := 0; events := [] |}.

(** The four operators created in a context that has [L] nodes, and the
    connection of each oscillator to its envelope. *)
Definition voiceOperators (L : nat) : list Operator :=
  [ {| osc := L; env := L + 1 |}; {| osc := L + 2; env := L + 3 |};
    {| osc := L + 4; env := L + 5 |}; {| osc := L + 6; env := L + 7 |} ]%nat.

Definition operatorEdges (L : nat) : list (nat * Input) :=
  [ (L, NodeInput (L + 1)); (L + 2, NodeInput (L + 3));
    (L + 4, NodeInput (L + 5)); (L + 6, NodeInput (L + 7)) ]%nat.

(** The timeline [scheduleEnvelope] leaves on an envelope that had no
    event and the value [v], at time [now]. *)
Definition envelope (params : OperatorParams) (now v : R) : list AutomationEvent :=
  insertEvent (LinearRamp (sustain params) (now + attack params + decay params))
    (insertEvent (LinearRamp 1 (now + attack params)) [SetValue v now]).

(** The two nodes of an operator after the [forEach] of [noteOn]. *)
Definition startedOperator (baseFreq now : R) (params : OperatorParams) : list AudioNode :=
  if on params then
    [ OscillatorNode
        {| osc_type := waveform params;
           frequency :=
             {| value := 440;
                events := [SetValue (baseFreq * ratio params * (1 + detune params / 1000)) now] |};
           started := true; stopTime := None |};
      GainNode {| value := 0; events := envelope params now 0 |} ]
  else [freshOscillator; freshEnvelope].

(** The runtime after [noteOn] has created and started the operators of
    a new voice, before the routing. *)
Definition startedVoice (note : Z) (P : Patch) (s : Runtime) : Runtime :=
  {| currentTime := currentTime s; state := state s;
     resumeCalls := if is_suspended (state s) then S (resumeCalls s) else resumeCalls s;
     nodes := nodes s ++
       flat_map (startedOperator (440 * Math_pow 2 ((IZR note - 69) / 12)) (currentTime s))
         (take 4 (operators P));
     edges := edges s ++ operatorEdges (length (nodes s));
     activeNotes := activeNotes s;
     masterGain := masterGain s; patch := patch s |}.

(** The timeline [triggerRelease] leaves on an envelope [g] at time
    [now]. *)
Definition releasedEnvelope (release now : R) (g : AudioParam) : AudioParam :=
  {| value := value g;
     events := insertEvent (LinearRamp 0 (now + release))
                 (insertEvent (SetValue (value g) now)
                    (filter (λ e, eventTime e < now) (events g))) |}.

End Voice.

(* ================================================================= *)
(** ** Connections, by what they add to the graph *)

Section Connections.
Import AlgorithmRouter.

(** The two edges of a connection that goes through the gain node [k]. *)
Definition connectionEdges (operators : list Operator) (masterSink k : nat)
    (c : Connection) : list (nat * Input) :=
  match c with
  | Modulator m c =>
      match operators !! m, operators !! c with
      | Some om, Some oc => [(output om, NodeInput k); (k, FrequencyInput (osc oc))]
      | _, _ => []
      end
  | Carrier c =>
      match operators !! c with
      | Some oc => [(output oc, NodeInput k); (k, NodeInput masterSink)]
      | None => []
      end
  end.

(** The gain node of a connection. *)
Definition connectionGain (params : list OperatorParams) (c : Connection)
    : list AudioNode :=
  match c with
  | Modulator m _ =>
      match params !! m with
      | Some pm => [GainNode {| value := level pm * 5000; events := [] |}]
      | None => []
      end
  | Carrier c =>
      match params !! c with
      | Some pc => [GainNode {| value := level pc; events := [] |}]
      | None => []
      end
  end.

(** The edges of the connections of a table row, when each of them is
    made: the gain nodes are numbered from [k] on. *)
Fixpoint tableEdges (operators : list Operator) (masterSink k : nat)
    (cs : list Connection) : list (nat * Input) :=
  match cs with
  | [] => []
  | c :: cs' =>
      connectionEdges operators masterSink k c
        ++ tableEdges operators masterSink (S k) cs'
  end.


(** A connection is made when the operators it joins are on. *)
Definition enabled (params : list OperatorParams) (c : Connection) : bool :=
  match c with
  | Modulator m c => is_on (params !! m) && is_on (params !! c)
  | Carrier c => is_on (params !! c)
  end.

(** The operators a connection joins are among the first [n]. *)
Definition within (n : nat) (c : Connection) : Prop :=
  match c with
  | Modulator m c => (m < n ∧ c < n)%nat
  | Carrier c => (c < n)%nat
  end.

End Connections.

(* ================================================================= *)
(** ** Patch import ([handleImport] of the [App] component) *)

Module PatchImport.

(** What [JSON.parse] returns. *)
#[warnings="-register-all"]
Inductive Json :=
| JNull
| JBool (b : bool)
| JNumber (x : R)
| JString (s : string)
| JArray (l : list Json)
| JObject (fields : list (string * Json)).

(** The result of reading a property: a value or [undefined]. *)
Inductive Value :=
| undefined
| defined (j : Json).

Fixpoint lookupField (name : string) (fields : list (string * Json)) : Value :=
  match fields with
  | [] => undefined
  | (k, v) :: fields' =>
      if String.eqb k name then defined v else lookupField name fields'
  end.

(** [v.name] for the names the handler reads ([algorithm], [operators],
    [length]): reading a property of [null] throws, an object gives its
    field, an array and a string have a [length], everything else gives
    [undefined]. *)
Definition getProperty (v : Json) (name : string) : Completion Value :=
  match v with
  | JNull => Throw TypeError
  | JObject fields => Return (lookupField name fields)
  | JArray l =>
      if String.eqb name "length"
      then Return (defined (JNumber (INR (length l))))
      else Return undefined
  | JString s =>
      if String.eqb name "length"
      then Return (defined (JNumber (INR (String.length s))))
      else Return undefined
  | JBool _ | JNumber _ => Return undefined
  end.

(** A value as a condition. *)
Definition truthy (v : Value) : bool :=
  match v with
  | undefined => false
  | defined JNull => false
  | defined (JBool b) => b
  | defined (JNumber x) => negb (bool_decide (x = 0%R))
  | defined (JString EmptyString) => false
  | defined (JString (String _ _)) => true
  | defined (JArray _) | defined (JObject _) => true
  end.

(** [v === 4] *)
Definition is_four (v : Value) : bool :=
  match v with
  | defined (JNumber x) => bool_decide (x = 4%R)
  | _ => false
  end.

(** The state [patch] of the component and the alerts it has shown. *)
Record App := {
  patch : Json;
  alerts : list string
}.

Definition setPatch (p : Json) (a : App) : App :=
  {| patch := p; alerts := alerts a |}.

Definition alert (msg : string) (a : App) : App :=
  {| patch := patch a; alerts := alerts a ++ [msg] |}.

(** The condition of the [if]:
    [importedPatch.algorithm && importedPatch.operators &&
     importedPatch.operators.length === 4] *)
Definition validShape (importedPatch : Json) : Completion bool :=
  match getProperty importedPatch "algorithm" with
  | Throw e => Throw e
  | Return algorithm =>
      if truthy algorithm then
        match getProperty importedPatch "operators" with
        | Throw e => Throw e
        | Return operators =>
            if truthy operators then
              match operators with
              | undefined => Throw TypeError
              | defined ops =>
                  match getProperty ops "length" with
                  | Throw e => Throw e
                  | Return len => Return (is_four len)
                  end
              end
            else Return false
        end
      else Return false
  end.

Section Handler.

(** [JSON.parse]: [None] when it throws a [SyntaxError]. *)
Variable JSON_parse : string → option Json.

(** [reader.onload], on the text of the file. *)
Definition onload (text : string) (a : App) : App :=
  match JSON_parse text with
  | None => alert "パッチファイルの読み込み中にエラーが発生しました。" a
  | Some importedPatch =>
      match validShape importedPatch with
      | Return true => setPatch importedPatch a
      | Return false => alert "無効なパッチファイル形式です。" a
      | Throw _ => alert "パッチファイルの読み込み中にエラーが発生しました。" a
      end
  end.

(** [handleImport]: [files] are the texts of the selected files. *)
Definition handleImport (files : list string) (a : App) : App :=
  match files with
  | [] => a
  | file :: _ => onload file a
  end.

End Handler.

End PatchImport.

(* ================================================================= *)
(** ** What the calls keep *)

Section Kept.
Local Open Scope R_scope.

(** A node stays what it is: a gain node stays a gain node, an
    oscillator stays an oscillator and, once started, stays started. *)
Definition sameNode (nd nd' : AudioNode) : Prop :=
  match nd, nd' with
  | GainNode _, GainNode _ => True
  | OscillatorNode o, OscillatorNode o' => started o = true → started o' = true
  | _, _ => False
  end.

(** From [s] to [s'] the audio graph has only grown: every node is still
    there, the same kind of node under the same index, every connection
    is still there, in the same order, and the master gain is the same
    node. *)
Definition grown (s s' : Runtime) : Prop :=
  (∀ k nd, nodes s !! k = Some nd → ∃ nd', nodes s' !! k = Some nd' ∧ sameNode nd nd')
  ∧ edges s `prefix_of` edges s'
  ∧ masterGain s' = masterGain s.

(** A method under which the graph only grows, whatever its arguments
    and its outcome. *)
Definition growing {A} (m : JS A) : Prop := ∀ s, grown s (m s).2.

(** *** The nodes of a voice *)

(** [osc.stop(t)] on a started oscillator. *)
Definition stoppedAt (t : R) (o : Oscillator) : Oscillator :=
  {| osc_type := osc_type o; frequency := frequency o;
     started := true; stopTime := Some t |}.

(** The nodes after the callback of [noteOff] has run on one operator
    at time [now]: an operator that is on gets its envelope released and
    its oscillator stopped half a second after the release; an operator
    that is off is left alone. *)
Definition releasedOperator (now : R) (op : Operator) (params : OperatorParams)
    (ns : list AudioNode) : list AudioNode :=
  if on params then
    match ns !! env op, ns !! osc op with
    | Some (GainNode g), Some (OscillatorNode o) =>
        <[osc op := OscillatorNode (stoppedAt (now + release params + 0.5) o)]>
          (<[env op := GainNode (releasedEnvelope (release params) now g)]> ns)
    | _, _ => ns
    end
  else ns.

(** The nodes after the [forEach] of [noteOff]: operator by operator,
    each with the params of its index. *)
Definition releasedVoice (now : R) (ops : list Operator)
    (opParams : list OperatorParams) (ns : list AudioNode) : list AudioNode :=
  foldl (λ ns x, releasedOperator now x.1 x.2 ns) ns (zip ops opParams).

(** The two nodes of an operator are in the graph, the oscillator
    started. *)
Definition operatorAt (op : Operator) (ns : list AudioNode) : Prop :=
  ∃ g o, ns !! env op = Some (GainNode g)
         ∧ ns !! osc op = Some (OscillatorNode o)
         ∧ started o = true.

(** The eight nodes of the voice created when the graph had [L] nodes
    are in the graph, after the master gain: four started oscillators
    for which no stop is scheduled, each followed by its envelope. *)
Definition voiceAt (L : nat) (ns : list AudioNode) : Prop :=
  (1 ≤ L)%nat
  ∧ ∀ i, (i < 4)%nat →
      (∃ o, ns !! (L + 2 * i)%nat = Some (OscillatorNode o)
            ∧ started o = true ∧ stopTime o = None)
      ∧ (∃ g, ns !! (L + 2 * i + 1)%nat = Some (GainNode g)).

(** What holds of the runtime of an engine in use: the master gain is
    the first node, at 0.5, connected to the destination; every
    registered voice is the four operators of one [noteOn], with their
    nodes in the graph; two voices share no node; and a patch, once set,
    has its four operators (there is no voice before a patch is set). *)
Record wellFormed (s : Runtime) : Prop := {
  wf_master :
    masterGain s = 0%nat
    ∧ nodes s !! 0%nat = Some (GainNode {| value := 0.5; events := [] |})
    ∧ (0%nat, Destination) ∈ edges s;
  wf_voices :
    ∀ n ops, activeNotes s !! n = Some ops →
      ∃ L, ops = voiceOperators L ∧ voiceAt L (nodes s);
  wf_disjoint :
    ∀ n n' L L', n ≠ n' →
      activeNotes s !! n = Some (voiceOperators L) →
      activeNotes s !! n' = Some (voiceOperators L') →
      (L + 8 ≤ L' ∨ L' + 8 ≤ L)%nat;
  wf_patch :
    match patch s with
    | None => activeNotes s = ∅
    | Some P => (4 ≤ length (operators P))%nat
    end
}.

(** The patches the application sets have their four operators. *)
Definition validCall (c : Call) : Prop :=
  match c with
  | SetPatch p => (4 ≤ length (operators p))%nat
  | _ => True
  end.

(** *** What the methods of an operator leave *)

(** The envelope [g] after [scheduleEnvelope(params, now)]. *)
Definition scheduledEnvelope (params : OperatorParams) (now : R) (g : AudioParam)
    : AudioParam :=
  {| value := value g;
     events :=
       insertEvent (LinearRamp (sustain params) (now + attack params + decay params))
         (insertEvent (LinearRamp 1 (now + attack params))
            (insertEvent (SetValue (value g) now)
               (filter (λ e, eventTime e < now) (events g)))) |}.

(** [time || this.context.currentTime] *)
Definition startTime (time : option R) (currentTime : R) : R :=
  match time with
  | Some t => if decide (t = 0) then currentTime else t
  | None => currentTime
  end.

(** *** Nodes the engine leaves alone *)

(** A node left alone by the engine: only the audio thread has updated
    the value of its param; its type, its timeline, whether it is
    started and when it stops are the same. *)
Definition untouched (nd nd' : AudioNode) : Prop :=
  match nd, nd' with
  | GainNode g, GainNode g' => events g = events g'
  | OscillatorNode o, OscillatorNode o' =>
      osc_type o = osc_type o'
      ∧ events (frequency o) = events (frequency o')
      ∧ started o = started o'
      ∧ stopTime o = stopTime o'
  | _, _ => False
  end.

(** The node [k] belongs to no voice of the registry. *)
Definition unregistered (k : nat) (s : Runtime) : Prop :=
  ∀ n ops op, activeNotes s !! n = Some ops → op ∈ ops → k ≠ osc op ∧ k ≠ env op.

End Kept.

(** *** Oscillators that keep running *)

Section Running.

(** An oscillator that produces sound for ever: it is started and no
    [stop] is scheduled for it. *)
Definition isRunning (nd : AudioNode) : bool :=
  match nd with
  | OscillatorNode o =>
      started o && match stopTime o with None => true | Some _ => false end
  | GainNode _ => false
  end.

Definition runningOscillators (s : Runtime) : nat :=
  length (filter (λ nd, isRunning nd = true) (nodes s)).

(** Each note of [notes] is pressed, held until its time, and released. *)
Definition played (notes : list (Z * R)) : list Call :=
  flat_map (λ nt, [NoteOn nt.1; Render nt.2; NoteOff nt.1]) notes.

End Running.

(** *** The clock and the times handed to the platform *)

Section Times.
Local Open Scope R_scope.

(** The audio thread renders one quantum, from [start] to [t]: the clock
    is then at [t], and the [value] getter of every param returns the
    value its timeline gave it at the start of the quantum. *)
Definition renderQuantum (start t : R) (s : Runtime) : Runtime :=
  {| currentTime := t; state := state s;
     resumeCalls := resumeCalls s;
     nodes := renderNode start <$> nodes s; edges := edges s;
     activeNotes := activeNotes s;
     masterGain := masterGain s; patch := patch s |}.


(** The times of an operator are not negative. *)
Definition nonnegative (params : OperatorParams) : Prop :=
  0 <= attack params ∧ 0 <= decay params ∧ 0 <= release params.

(** The patches have times that are not negative, and so has the clock
    of the audio context. *)
Definition inRange (c : Call) : Prop :=
  match c with
  | SetPatch p => Forall nonnegative (operators p)
  | Render t => 0 <= t
  | _ => True
  end.


End Times.

(* ================================================================= *)
(** ** The display of notes and algorithms *)

Section Display.
Local Open Scope string_scope.
Local Open Scope Z_scope.

(** [midiToNoteName(midi)]; a number in a template string is printed in
    decimal, with its sign. *)
Definition noteNames : list string :=
  ["C"; "C#"; "D"; "D#"; "E"; "F"; "F#"; "G"; "G#"; "A"; "A#"; "B"].

Definition midiToNoteName (midi : Z) : string :=
  if bool_decide (midi < 0 ∨ midi > 127) then EmptyString
  else
    let octave := midi / 12 - 1 in
    let noteIndex := Z.rem midi 12 in
    default "undefined" (noteNames !! Z.to_nat noteIndex) +:+ pretty octave.

End Display.

(** [AlgorithmVisualizer]: the box of operator [op] (1 to 4) is drawn in
    the colours of a carrier or in those of a modulator. *)
Module AlgorithmVisualizer.
Local Open Scope string_scope.

Record Style := {
  backgroundColor : string;
  borderColor : string
}.

(** The variable [carrier] of [getStyle] after the [switch (algoId)]. *)
Definition carrier (algoId op : Z) : bool :=
  match algoId with
  | 1%Z => bool_decide (op = 4%Z)
  | 2%Z => bool_decide (op = 2%Z) || bool_decide (op = 4%Z)
  | 3%Z => bool_decide (op = 4%Z)
  | 4%Z => bool_decide (op = 4%Z)
  | 5%Z => bool_decide (op = 2%Z) || bool_decide (op = 3%Z) || bool_decide (op = 4%Z)
  | 6%Z => true
  | _ => true
  end.

Definition getStyle (algoId op : Z) : Style :=
  {| backgroundColor := if carrier algoId op then "bg-sky-500" else "bg-pink-500";
     borderColor := if carrier algoId op then "border-sky-300" else "border-pink-300" |}.

End AlgorithmVisualizer.

(** The operator indices the [switch] of [noteOn] passes to
    [connectCarrier], in the order of the calls: the switch is run with a
    [connectModulator] that does nothing and a [connectCarrier] that
    only records its argument, as the source of a connection. *)
Definition carrierCalls (algorithm : Z) : list nat :=
  (edges (routing algorithm
            (λ _ _, ret tt)
            (λ carIndex, connect carIndex Destination)
            (newAudioContext running)).2).*1.

(* ================================================================= *)
(** ** The [Keyboard] and [App] components *)

Module Keyboard.
Local Open Scope string_scope.

Inductive KeyType := white | black.

Record Key := {
  note : Z;
  key : string;
  type : KeyType
}.

Definition keys : list Key :=
  [ {| note := 60; key := "a"; type := white |};
    {| note := 61; key := "w"; type := black |};
    {| note := 62; key := "s"; type := white |};
    {| note := 63; key := "e"; type := black |};
    {| note := 64; key := "d"; type := white |};
    {| note := 65; key := "f"; type := white |};
    {| note := 66; key := "t"; type := black |};
    {| note := 67; key := "g"; type := white |};
    {| note := 68; key := "y"; type := black |};
    {| note := 69; key := "h"; type := white |};
    {| note := 70; key := "u"; type := black |};
    {| note := 71; key := "j"; type := white |};
    {| note := 72; key := "k"; type := white |} ].

(** The label under a key: [midiToNoteName(k.note + octaveOffset * 12)]. *)
Definition label (octaveOffset : Z) (k : Key) : string :=
  midiToNoteName (note k + octaveOffset * 12).

Section Handlers.
Context {AppState : Type}.

(** The props [onNoteOn] and [onNoteOff]. *)
Variables onNoteOn onNoteOff : Z → AppState → AppState.

(** [handleInteractionStart(note)], on the state [pressedKeys] of the
    keyboard and the state of the component that passed the props. *)
Definition handleInteractionStart (note : Z) (st : gset Z * AppState)
    : gset Z * AppState :=
  (st.1 ∪ {[note]}, onNoteOn note st.2).

(** [handleInteractionEnd(note)] *)
Definition handleInteractionEnd (note : Z) (st : gset Z * AppState)
    : gset Z * AppState :=
  (st.1 ∖ {[note]}, onNoteOff note st.2).

(** The mouse on the keys: [onMouseDown] starts, [onMouseUp] and
    [onMouseLeave] end. *)
Inductive MouseEvent :=
| MouseDown (note : Z)
| MouseUp (note : Z)
| MouseLeave (note : Z).

Definition onMouse (st : gset Z * AppState) (e : MouseEvent) : gset Z * AppState :=
  match e with
  | MouseDown note => handleInteractionStart note st
  | MouseUp note => handleInteractionEnd note st
  | MouseLeave note => handleInteractionEnd note st
  end.

End Handlers.

End Keyboard.

Module AppComponent.

(** The state of the [App] component: [isInitialized], [synthRef.current]
    ([None] for [null]; the synthesizer comes with its audio context and
    the registry of notes), [patch] and [octaveOffset]. *)
Record App := {
  isInitialized : bool;
  synthRef : option Runtime;
  patch : Patch;
  octaveOffset : Z
}.

Definition initialApp : App :=
  {| isInitialized := false; synthRef := None;
     patch := initialPatch; octaveOffset := 0 |}.

(** A call of a method of [synthRef.current]; an exception ends the
    handler, what the method did before stays. *)
Definition onSynth (m : JS unit) (a : App) : App :=
  {| isInitialized := isInitialized a;
     synthRef := (λ s, (m s).2) <$> synthRef a;
     patch := patch a; octaveOffset := octaveOffset a |}.

(** [initAudio]; [st] is the state in which the browser creates the
    audio context. *)
Definition initAudio (st : AudioContextState) (a : App) : App :=
  if negb (isInitialized a) then
    {| isInitialized := true;
       synthRef := Some (setPatch (patch a) (initial st)).2;
       patch := patch a; octaveOffset := octaveOffset a |}
  else a.

(** [setPatch(p)] of the component, followed by the effect that depends
    on [patch]: [if (synthRef.current) synthRef.current.setPatch(patch)]. *)
Definition setPatchState (p : Patch) (a : App) : App :=
  onSynth (setPatch p)
    {| isInitialized := isInitialized a; synthRef := synthRef a;
       patch := p; octaveOffset := octaveOffset a |}.

Definition setOctaveOffset (f : Z → Z) (a : App) : App :=
  {| isInitialized := isInitialized a; synthRef := synthRef a;
     patch := patch a; octaveOffset := f (octaveOffset a) |}.

(** [handleNoteOn(note)] *)
Definition handleNoteOn (note : Z) (a : App) : App :=
  match synthRef a with
  | None => a
  | Some _ =>
      let finalNote := (note + octaveOffset a * 12)%Z in
      if bool_decide (0 ≤ finalNote)%Z && bool_decide (finalNote ≤ 127)%Z
      then onSynth (noteOn finalNote) a
      else a
  end.

(** [handleNoteOff(note)] *)
Definition handleNoteOff (note : Z) (a : App) : App :=
  match synthRef a with
  | None => a
  | Some _ =>
      let finalNote := (note + octaveOffset a * 12)%Z in
      if bool_decide (0 ≤ finalNote)%Z && bool_decide (finalNote ≤ 127)%Z
      then onSynth (noteOff finalNote) a
      else a
  end.

(** [updateOperator(opIndex, newParams)] *)
Definition updateOperator (opIndex : nat) (newParams : OperatorParams) (a : App) : App :=
  setPatchState
    {| algorithm := algorithm (patch a);
       patchMasterGain := patchMasterGain (patch a);
       operators := imap (λ i op, if decide (i = opIndex) then newParams else op)
                      (operators (patch a)) |} a.

(** [updateAlgorithm(algoId)] *)
Definition updateAlgorithm (algoId : Z) (a : App) : App :=
  setPatchState
    {| algorithm := algoId;
       patchMasterGain := patchMasterGain (patch a);
       operators := operators (patch a) |} a.

(** The two octave buttons:
    [setOctaveOffset(o => Math.max(-2, o - 1))] and
    [setOctaveOffset(o => Math.min(2, o + 1))]. *)
Definition octaveDown : App → App := setOctaveOffset (λ o, Z.max (-2) (o - 1)).
Definition octaveUp : App → App := setOctaveOffset (λ o, Z.min 2 (o + 1)).

(** What happens to the component: its handlers are called, the audio
    thread renders, the browser changes the state of the context. *)
Inductive Event :=
| InitAudio (st : AudioContextState)
| HandleNoteOn (note : Z)
| HandleNoteOff (note : Z)
| UpdateOperator (opIndex : nat) (newParams : OperatorParams)
| UpdateAlgorithm (algoId : Z)
| OctaveDown
| OctaveUp
| AudioThread (t : R)
| ContextState (st : AudioContextState).

Definition handle (a : App) (e : Event) : App :=
  match e with
  | InitAudio st => initAudio st a
  | HandleNoteOn note => handleNoteOn note a
  | HandleNoteOff note => handleNoteOff note a
  | UpdateOperator opIndex newParams => updateOperator opIndex newParams a
  | UpdateAlgorithm algoId => updateAlgorithm algoId a
  | OctaveDown => octaveDown a
  | OctaveUp => octaveUp a
  | AudioThread t => onSynth (modify (render t)) a
  | ContextState st => onSynth (modify (set_state st)) a
  end.

Definition session (events : list Event) (a : App) : App := foldl handle a events.

End AppComponent.

(** The listeners of [keydown] and [keyup] that the component installs
    on the window. *)
Module KeyListener.
Local Open Scope string_scope.

(** The fields of a keyboard event the listeners read. *)
Record KeyboardEvent := {
  key : string;
  repeat : bool
}.

(** [KEY_TO_NOTE]; [e.key] is never the name of a property that an
    object inherits. *)
Definition KEY_TO_NOTE : gmap string Z :=
  list_to_map
    [ ("a", 60%Z); ("w", 61%Z); ("s", 62%Z); ("e", 63%Z); ("d", 64%Z);
      ("f", 65%Z); ("t", 66%Z); ("g", 67%Z); ("y", 68%Z); ("h", 69%Z);
      ("u", 70%Z); ("j", 71%Z); ("k", 72%Z) ].

(** A number as a condition. *)
Definition truthy (note : option Z) : bool :=
  match note with
  | Some n => negb (bool_decide (n = 0%Z))
  | None => false
  end.

(** [handleKeyDown(e)], on the [keyMap] of the effect and the state of
    the component; [st] is the state in which the browser would create
    the audio context. *)
Definition handleKeyDown (st : AudioContextState) (e : KeyboardEvent)
    (s : gset string * AppComponent.App) : gset string * AppComponent.App :=
  if repeat e || bool_decide (key e ∈ s.1) then s
  else
    match KEY_TO_NOTE !! key e with
    | Some note =>
        if truthy (Some note) then
          let a := if negb (AppComponent.isInitialized s.2)
                   then AppComponent.initAudio st s.2 else s.2 in
          (s.1 ∪ {[key e]}, AppComponent.handleNoteOn note a)
        else s
    | None => s
    end.

(** [handleKeyUp(e)] *)
Definition handleKeyUp (e : KeyboardEvent)
    (s : gset string * AppComponent.App) : gset string * AppComponent.App :=
  match KEY_TO_NOTE !! key e with
  | Some note =>
      if truthy (Some note)
      then (s.1 ∖ {[key e]}, AppComponent.handleNoteOff note s.2)
      else s
  | None => s
  end.

End KeyListener.

(** What the handlers of the component keep: the octave stays between
    -2 and 2, the patch has four operators, the synthesizer exists once
    the component is initialized, holds the patch of the component, and
    only notes of the MIDI range are registered. *)
Definition appInvariant (a : AppComponent.App) : Prop :=
  (-2 ≤ AppComponent.octaveOffset a ≤ 2)%Z
  ∧ length (operators (AppComponent.patch a)) = 4%nat
  ∧ (AppComponent.isInitialized a = true ↔ is_Some (AppComponent.synthRef a))
  ∧ ∀ s, AppComponent.synthRef a = Some s →
      wellFormed s
      ∧ patch s = Some (AppComponent.patch a)
      ∧ ∀ n, is_Some (activeNotes s !! n) → (0 ≤ n ≤ 127)%Z.

(* ================================================================= *)
(** * Properties *)

(** ** Running a method step by step *)

Section MonadLemmas.
Context {A B : Type}.

Lemma bind_Return (m : JS A) (k : A → JS B) s a s' :
  m s = (Return a, s') → bind m k s = k a s'.
Proof. unfold bind. by intros ->. Qed.

Lemma bind_Throw (m : JS A) (k : A → JS B) s e s' :
  m s = (Throw e, s') → bind m k s = (Throw e, s').
Proof. unfold bind. by intros ->. Qed.

End MonadLemmas.

Lemma bind_assoc {A B C} (m : JS A) (f : A → JS B) (g : B → JS C) s :
  bind (bind m f) g s = bind m (λ x, bind (f x) g) s.
Proof. unfold bind. destruct (m s) as [[a|e] s']; reflexivity. Qed.

Lemma gets_eq {A} (f : Runtime → A) s : gets f s = (Return (f s), s).
Proof. reflexivity. Qed.

Lemma modify_eq f s : modify f s = (Return tt, f s).
Proof. reflexivity. Qed.

Lemma ret_eq {A} (a : A) s : ret a s = (Return a, s).
Proof. reflexivity. Qed.

(** Nodes are addressed from the end of the nodes that were there
    before: a lookup or an update at [length l1 + k] in [l1 ++ l2] is one
    at [k] in [l2]. *)
Section ListOffsets.
Context {A : Type}.
Implicit Types l : list A.

Lemma lookup_app_plus l1 l2 k : (l1 ++ l2) !! (length l1 + k) = l2 !! k.
Proof. rewrite lookup_app_r by lia. f_equal. lia. Qed.

Lemma lookup_app_len l1 l2 : (l1 ++ l2) !! length l1 = l2 !! 0.
Proof. by rewrite <- (lookup_app_plus l1 l2 0), Nat.add_0_r. Qed.

Lemma alter_app_plus (f : A → A) l1 l2 k :
  alter f (length l1 + k) (l1 ++ l2) = l1 ++ alter f k l2.
Proof. by rewrite alter_app_r. Qed.

Lemma alter_app_len (f : A → A) l1 l2 :
  alter f (length l1) (l1 ++ l2) = l1 ++ alter f 0 l2.
Proof. by rewrite <- (alter_app_plus f l1 l2 0), Nat.add_0_r. Qed.

Lemma insert_app_plus l1 l2 k x :
  <[length l1 + k := x]> (l1 ++ l2) = l1 ++ <[k := x]> l2.
Proof. by rewrite insert_app_r. Qed.

Lemma insert_app_len l1 l2 x :
  <[length l1 := x]> (l1 ++ l2) = l1 ++ <[0 := x]> l2.
Proof. by rewrite <- (insert_app_plus l1 l2 0), Nat.add_0_r. Qed.

End ListOffsets.

(** ** The Web Audio operations, as equations *)

Lemma createNode_eq nd s :
  createNode nd s = (Return (length (nodes s)), set_nodes (λ ns, ns ++ [nd]) s).
Proof. reflexivity. Qed.

Lemma connect_eq a d s :
  connect a d s = (Return tt, set_edges (λ es, es ++ [(a, d)]) s).
Proof. reflexivity. Qed.

Lemma onParam_eq r f s p :
  lookupParam r (nodes s) = Some p →
  onParam r f s = (Return tt, set_nodes (alterParam f r) s).
Proof. intros H. unfold onParam, bind, gets. cbn. by rewrite H. Qed.

Lemma get_value_eq r s p :
  lookupParam r (nodes s) = Some p → get_value r s = (Return (value p), s).
Proof. intros H. unfold get_value, bind, gets. cbn. by rewrite H. Qed.

Lemma set_type_eq n w s o :
  nodes s !! n = Some (OscillatorNode o) →
  set_type n w s = (Return tt, set_nodes (<[n := OscillatorNode
        {| osc_type := w; frequency := frequency o;
           started := started o; stopTime := stopTime o |}]>) s).
Proof. intros H1. unfold set_type, bind, gets. cbn. by rewrite H1. Qed.

Lemma start_eq n s o :
  nodes s !! n = Some (OscillatorNode o) → started o = false →
  start n s = (Return tt, set_nodes (<[n := OscillatorNode
        {| osc_type := osc_type o; frequency := frequency o;
           started := true; stopTime := stopTime o |}]>) s).
Proof. intros H1 H2. unfold start, bind, gets. cbn. by rewrite H1, H2. Qed.

Lemma stop_eq n t s o :
  nodes s !! n = Some (OscillatorNode o) → started o = true →
  stop n t s = (Return tt, set_nodes (<[n := OscillatorNode
        {| osc_type := osc_type o; frequency := frequency o;
           started := true; stopTime := Some t |}]>) s).
Proof. intros H1 H2. unfold stop, bind, gets. cbn. by rewrite H1, H2. Qed.

Ltac list_offsets :=
  rewrite ?lookup_app_plus, ?lookup_app_len, ?alter_app_plus, ?alter_app_len,
    ?insert_app_plus, ?insert_app_len.

(** Brings a runtime to the form [nodes := ns ++ l] with [l] explicit. *)
Ltac norm :=
  cbv beta iota delta [set_nodes set_edges set_activeNotes set_patch set_resumeCalls
                  output alterParam assignValue cancelEvents scheduleEvent with_frequency];
  cbn [nodes edges currentTime state resumeCalls activeNotes masterGain patch
       osc env];
  rewrite ?length_app, <- ?app_assoc, <- ?Nat.add_assoc;
  cbn [app length Nat.add];
  rewrite ?Nat.add_0_r;
  list_offsets;
  cbn [alter list_alter insert list_insert
       value events frequency osc_type started stopTime
       filter list_filter insertEvent app length].

Ltac solve_lookup :=
  norm; unfold lookupParam; list_offsets; cbn; reflexivity.

Ltac solve_call := fail.

Ltac solve_prim :=
  first
    [ apply createNode_eq
    | apply connect_eq
    | apply gets_eq
    | apply modify_eq
    | apply ret_eq
    | eapply onParam_eq; solve_lookup
    | eapply get_value_eq; solve_lookup
    | eapply start_eq; [solve_lookup | reflexivity]
    | eapply stop_eq; [solve_lookup | reflexivity]
    | eapply set_type_eq; solve_lookup
    | solve_call ].

(** One statement of a method. *)
Ltac step :=
  lazymatch goal with
  | |- bind (bind _ _) _ _ = _ => rewrite bind_assoc
  | |- bind ?m ?k ?s = _ =>
      etrans; [ apply bind_Return; solve_prim | cbv beta zeta; norm ]
  | |- ?m ?s = _ =>
      etrans; [ solve_prim | norm ]
  end.

(** ** [new Operator] and the operators of a voice *)

Lemma Operator_new_eq s :
  Operator_new s =
    (Return {| osc := length (nodes s); env := length (nodes s) + 1 |},
     set_edges (λ es, es ++ [(length (nodes s), NodeInput (length (nodes s) + 1))])
       (set_nodes (λ ns, ns ++ [freshOscillator; freshEnvelope]) s)).
Proof.
  destruct s as [t st rc ns es an mg p].
  unfold Operator_new, createOscillator, createGain, set_value.
  norm.
  do 5 step. reflexivity.
Qed.

Ltac solve_call ::= apply Operator_new_eq.

Lemma array_of_4_Operator_new s :
  array_of 4 Operator_new s =
    (Return (voiceOperators (length (nodes s))),
     set_edges (λ es, es ++ operatorEdges (length (nodes s)))
       (set_nodes (λ ns, ns ++ [freshOscillator; freshEnvelope; freshOscillator; freshEnvelope;
                                freshOscillator; freshEnvelope; freshOscillator; freshEnvelope]) s)).
Proof.
  destruct s as [t st rc ns es an mg p].
  cbn [array_of].
  repeat step.
  reflexivity.
Qed.

Lemma forEach_startOperator baseFreq p0 p1 p2 p3 rest t st rc ns es an mg p :
  forEach (startOperator baseFreq (p0 :: p1 :: p2 :: p3 :: rest))
    (voiceOperators (length ns))
    {| currentTime := t; state := st; resumeCalls := rc;
       nodes := ns ++ [freshOscillator; freshEnvelope; freshOscillator; freshEnvelope;
                       freshOscillator; freshEnvelope; freshOscillator; freshEnvelope];
       edges := es; activeNotes := an; masterGain := mg; patch := p |} =
  (Return tt,
    {| currentTime := t; state := st; resumeCalls := rc;
       nodes := ns ++ startedOperator baseFreq t p0 ++ startedOperator baseFreq t p1 ++
                  startedOperator baseFreq t p2 ++ startedOperator baseFreq t p3;
       edges := es; activeNotes := an; masterGain := mg; patch := p |}).
Proof.
  unfold forEach, voiceOperators, startedOperator. cbn [forEach_from].
  unfold startOperator. cbn [lookup list_lookup].
  destruct (on p0), (on p1), (on p2), (on p3); cbn [negb];
    unfold scheduleEnvelope, setValueAtTime, linearRampToValueAtTime, cancelScheduledValues;
    repeat step.
  all: reflexivity.
Qed.

(** ** The routing *)

Import AlgorithmRouter.

Lemma scaled_eq source factor sink s :
  (let* g := createGain in
   set_value (gain_of g) factor ;;;
   connect source (NodeInput g) ;;;
   connect g sink) s
  = (Return tt, scaled source factor sink s).
Proof.
  destruct s as [t st rc ns es an mg p].
  unfold createGain, set_value, scaled.
  repeat step. reflexivity.
Qed.

Lemma masterGain_connection ops params mg c s :
  masterGain (connection ops params mg c s) = masterGain s.
Proof.
  destruct c as [m c|c]; cbn [connection]; repeat case_match; reflexivity.
Qed.

Lemma connectModulator_eq opParams ops m c s :
  is_Some (ops !! m) → is_Some (ops !! c) →
  connectModulator opParams ops m c s
  = (Return tt, connection ops opParams (masterGain s) (Modulator m c) s).
Proof.
  intros [om Hm] [oc Hc]. unfold connectModulator. cbn [connection].
  rewrite Hm, Hc.
  destruct (opParams !! m) as [pm|], (opParams !! c) as [pc|]; cbn [is_on];
    try destruct (on pm); try destruct (on pc); cbn [negb orb andb]; try reflexivity.
  apply scaled_eq.
Qed.

Lemma connectCarrier_eq opParams ops c s :
  is_Some (ops !! c) →
  connectCarrier opParams ops c s
  = (Return tt, connection ops opParams (masterGain s) (Carrier c) s).
Proof.
  intros [oc Hc]. unfold connectCarrier. cbn [connection].
  rewrite Hc.
  destruct (opParams !! c) as [pc|]; cbn [is_on];
    try destruct (on pc); cbn [negb]; try reflexivity.
  destruct s as [t st rc ns es an mg p].
  unfold createGain, set_value, scaled.
  repeat step. reflexivity.
Qed.

Ltac solve_connect Hs :=
  first [ apply connectModulator_eq; apply Hs; lia
        | apply connectCarrier_eq; apply Hs; lia ].

Lemma routing_route (algorithm : Z) opParams o0 o1 o2 o3 s :
  routing algorithm
    (connectModulator opParams [o0; o1; o2; o3])
    (connectCarrier opParams [o0; o1; o2; o3]) s
  = (Return tt, route algorithm [o0; o1; o2; o3] opParams (masterGain s) s).
Proof.
  assert (Hs : ∀ i, (i < 4)%nat → is_Some ([o0; o1; o2; o3] !! i)).
  { intros i Hi. apply lookup_lt_is_Some. cbn. lia. }
  unfold routing, route, topology.
  destruct algorithm as [|q|q];
    [ | destruct q as [q|q|];
        [ destruct q as [q|q|]; [| destruct q as [q|q|] |]
        | destruct q as [q|q|]; [destruct q as [q|q|] | destruct q as [q|q|] | ]
        | ]
      | ];
    cbn [foldl].
  all: repeat (etrans;
         [ apply bind_Return; solve_connect Hs
         | cbv beta; rewrite ?masterGain_connection ]).
  all: (etrans; [ solve_connect Hs | rewrite ?masterGain_connection; reflexivity ]).
Qed.

(** ** [noteOn] on a note that is not sounding *)

Lemma noteOn_fresh note s P :
  patch s = Some P → (4 ≤ length (operators P))%nat →
  activeNotes s !! note = None →
  noteOn note s =
    (Return tt,
     set_activeNotes (<[note := voiceOperators (length (nodes s))]>)
       (route (algorithm P) (voiceOperators (length (nodes s))) (operators P)
          (masterGain s) (startedVoice note P s))).
Proof.
  destruct s as [t st rc ns es an mg p]. cbn [patch activeNotes nodes masterGain].
  intros -> Hlen Hnote.
  destruct P as [alg pmg [|p0 [|p1 [|p2 [|p3 rest]]]]]; cbn in Hlen; try lia.
  unfold noteOn.
  do 2 step. cbn [is_object negb orb].
  assert (Hres : (if is_suspended st then resume else ret tt)
            {| currentTime := t; state := st; resumeCalls := rc; nodes := ns;
               edges := es; activeNotes := an; masterGain := mg;
               patch := Some {| algorithm := alg; patchMasterGain := pmg;
                                operators := p0 :: p1 :: p2 :: p3 :: rest |} |}
          = (Return tt, {| currentTime := t; state := st;
               resumeCalls := if is_suspended st then S rc else rc; nodes := ns;
               edges := es; activeNotes := an; masterGain := mg;
               patch := Some {| algorithm := alg; patchMasterGain := pmg;
                                operators := p0 :: p1 :: p2 :: p3 :: rest |} |})).
  { destruct (is_suspended st); reflexivity. }
  rewrite (bind_Return _ _ _ _ _ Hres). clear Hres.
  step. rewrite Hnote. rewrite bool_decide_eq_false_2 by (intros [? ?]; discriminate).
  etrans. { apply bind_Return. apply array_of_4_Operator_new. }
  cbv beta. norm. step.
  cbn [algorithm operators].
  etrans. { apply bind_Return. apply forEach_startOperator. }
  cbv beta.
  etrans. { apply bind_Return. apply routing_route. }
  cbv beta. unfold startedVoice.
  cbn [operators take flat_map currentTime state resumeCalls nodes edges
       activeNotes masterGain patch].
  rewrite app_nil_r. reflexivity.
Qed.

(** ** What the router leaves alone *)

Lemma connection_frame ops params mg c s :
  currentTime (connection ops params mg c s) = currentTime s
  ∧ state (connection ops params mg c s) = state s
  ∧ resumeCalls (connection ops params mg c s) = resumeCalls s
  ∧ activeNotes (connection ops params mg c s) = activeNotes s
  ∧ masterGain (connection ops params mg c s) = masterGain s
  ∧ patch (connection ops params mg c s) = patch s
  ∧ (∃ gains, nodes (connection ops params mg c s) = nodes s ++ gains
              ∧ Forall (λ nd, ∃ g, nd = GainNode g) gains)
  ∧ (∃ new, edges (connection ops params mg c s) = edges s ++ new).
Proof.
  destruct c as [m c|c]; cbn [connection]; repeat case_match;
    repeat split; try reflexivity;
    try (by exists []; rewrite app_nil_r);
    try (by exists []; rewrite app_nil_r).
  all: try (eexists; split; [reflexivity|]; repeat constructor; eauto).
  all: eexists; reflexivity.
Qed.

Lemma route_frame alg ops params mg s :
  currentTime (route alg ops params mg s) = currentTime s
  ∧ state (route alg ops params mg s) = state s
  ∧ resumeCalls (route alg ops params mg s) = resumeCalls s
  ∧ activeNotes (route alg ops params mg s) = activeNotes s
  ∧ masterGain (route alg ops params mg s) = masterGain s
  ∧ patch (route alg ops params mg s) = patch s
  ∧ (∃ gains, nodes (route alg ops params mg s) = nodes s ++ gains
              ∧ Forall (λ nd, ∃ g, nd = GainNode g) gains)
  ∧ (∃ new, edges (route alg ops params mg s) = edges s ++ new).
Proof.
  unfold route. generalize (topology alg) as cs. intros cs. revert s.
  induction cs as [|c cs IH]; intros s; cbn [foldl].
  - repeat split; try reflexivity; exists []; by rewrite app_nil_r.
  - destruct (IH (connection ops params mg c s))
      as (H1 & H2 & H3 & H4 & H5 & H6 & (g2 & H7 & F2) & (e2 & H8)).
    destruct (connection_frame ops params mg c s)
      as (K1 & K2 & K3 & K4 & K5 & K6 & (g1 & K7 & F1) & (e1 & K8)).
    repeat split; try congruence.
    + exists (g1 ++ g2). split; [rewrite H7, K7; by rewrite app_assoc|].
      by apply Forall_app.
    + exists (e1 ++ e2). rewrite H8, K8. by rewrite app_assoc.
Qed.

Lemma noteOn_live note s :
  is_Some (activeNotes s !! note) →
  noteOn note s =
    (Return tt,
     if negb (is_object (patch s)) || is_suspended (state s)
     then set_resumeCalls S s else s).
Proof.
  intros Hlive. destruct s as [t st rc ns es an mg p].
  cbn [activeNotes patch state] in *. unfold noteOn.
  do 2 step.
  destruct (negb (is_object p) || is_suspended st); unfold resume;
    do 2 step; rewrite bool_decide_eq_true_2 by done; reflexivity.
Qed.

(** ** The registry *)


Section Registry.
Context {V : Type}.
Implicit Types l : list (Z * V).

Lemma filter_key_absent (n : Z) l :
  n ∉ l.*1 → filter (λ kv, kv.1 = n) l = [].
Proof.
  induction l as [|[k v] l IH]; [done|].
  cbn [fmap list_fmap fst]. rewrite not_elem_of_cons. intros [Hk Hl].
  rewrite filter_cons_False by (cbn; congruence). by apply IH.
Qed.

Lemma filter_key_length (n : Z) l :
  NoDup l.*1 → (length (filter (λ kv, kv.1 = n) l) ≤ 1)%nat.
Proof.
  induction l as [|[k v] l IH]; intros Hnd; [cbn; lia|].
  cbn [fmap list_fmap fst] in Hnd. apply NoDup_cons in Hnd as [Hk Hnd].
  rewrite filter_cons. cbn [fst]. case_decide as E; [|by apply IH].
  subst k. rewrite filter_key_absent by done. cbn. lia.
Qed.

Lemma filter_key_present (n : Z) (v : V) l :
  NoDup l.*1 → (n, v) ∈ l → filter (λ kv, kv.1 = n) l = [(n, v)].
Proof.
  induction l as [|[k w] l IH]; intros Hnd Hin; [by apply elem_of_nil in Hin|].
  cbn [fmap list_fmap fst] in Hnd. apply NoDup_cons in Hnd as [Hk Hnd].
  apply elem_of_cons in Hin as [E|Hin].
  - injection E as <- <-. rewrite filter_cons_True by done.
    by rewrite filter_key_absent.
  - assert (k ≠ n).
    { intros ->. apply Hk. apply list_elem_of_fmap. by exists (n, v). }
    rewrite filter_cons_False by done. by apply IH.
Qed.

End Registry.

Lemma liveVoices_length note s : (length (liveVoices note s) ≤ 1)%nat.
Proof.
  unfold liveVoices. rewrite length_fmap.
  apply filter_key_length, NoDup_fst_map_to_list.
Qed.

Lemma liveVoices_Some note s ops :
  activeNotes s !! note = Some ops → liveVoices note s = [ops].
Proof.
  intros H. unfold liveVoices.
  rewrite (filter_key_present note ops); [done| |].
  - apply NoDup_fst_map_to_list.
  - by apply elem_of_map_to_list.
Qed.

Lemma liveVoices_None note s :
  activeNotes s !! note = None → liveVoices note s = [].
Proof.
  intros H. unfold liveVoices. rewrite filter_key_absent; [done|].
  rewrite list_elem_of_fmap. intros ([k v] & -> & Hin).
  apply elem_of_map_to_list in Hin. cbn in *. congruence.
Qed.


(** ** The graph of a new voice *)

Lemma drop_app_plus {A} (l1 l2 : list A) k :
  drop (length l1 + k) (l1 ++ l2) = drop k l2.
Proof. rewrite drop_app_ge by lia. f_equal. lia. Qed.

Lemma topology_within alg : Forall (within 4) (topology alg).
Proof.
  unfold topology.
  repeat case_match; repeat constructor.
Qed.

Lemma startedOperator_length baseFreq now p :
  length (startedOperator baseFreq now p) = 2%nat.
Proof. unfold startedOperator. by destruct (on p). Qed.

Lemma connection_enabled ops params mg c s :
  within (length ops) c →
  connection ops params mg c s =
    if enabled params c
    then set_edges (λ es, es ++ connectionEdges ops mg (length (nodes s)) c)
           (set_nodes (λ ns, ns ++ connectionGain params c) s)
    else s.
Proof.
  destruct c as [m c|c]; cbn [within connection enabled connectionEdges connectionGain].
  - intros [Hm Hc].
    destruct (lookup_lt_is_Some_2 ops m Hm) as [om ->].
    destruct (lookup_lt_is_Some_2 ops c Hc) as [oc ->].
    destruct (params !! m) as [pm|]; destruct (params !! c) as [pc|];
      cbn [is_on andb]; repeat case_match; try reflexivity; try discriminate.
    all: by rewrite andb_false_r in *.
  - intros Hc.
    destruct (lookup_lt_is_Some_2 ops c Hc) as [oc ->].
    destruct (params !! c) as [pc|]; cbn [is_on]; repeat case_match; reflexivity.
Qed.

Lemma connectionGain_enabled params c :
  enabled params c = true → length (connectionGain params c) = 1%nat.
Proof.
  destruct c as [m c|c]; cbn [enabled connectionGain].
  - destruct (params !! m); cbn [is_on andb]; [done|discriminate].
  - destruct (params !! c); cbn [is_on]; [done|discriminate].
Qed.

Lemma route_fold ops params mg cs : ∀ s,
  Forall (within (length ops)) cs →
  nodes (foldl (λ s c, connection ops params mg c s) s cs)
    = nodes s ++ flat_map (connectionGain params) (filter (λ c, enabled params c = true) cs)
  ∧ edges (foldl (λ s c, connection ops params mg c s) s cs)
    = edges s ++ tableEdges ops mg (length (nodes s)) (filter (λ c, enabled params c = true) cs).
Proof.
  induction cs as [|c cs IH]; intros s Hw; cbn [foldl].
  - cbn. by rewrite !app_nil_r.
  - apply Forall_cons in Hw as [Hc Hw].
    destruct (IH (connection ops params mg c s) Hw) as [IHn IHe].
    rewrite IHn, IHe, (connection_enabled _ _ _ _ _ Hc).
    rewrite filter_cons.
    destruct (enabled params c) eqn:E.
    + rewrite decide_True by done.
      cbn [flat_map tableEdges nodes edges set_nodes set_edges].
      rewrite length_app, (connectionGain_enabled _ _ E), Nat.add_1_r.
      by rewrite <- !app_assoc.
    + rewrite decide_False by done. done.
Qed.


Lemma noteOn_fresh_graph note s P :
  patch s = Some P → (4 ≤ length (operators P))%nat →
  activeNotes s !! note = None →
  let L := length (nodes s) in
  let made := filter (λ c, enabled (operators P) c = true) (topology (algorithm P)) in
  nodes (noteOn note s).2 =
    nodes s ++
    flat_map (startedOperator (440 * Math_pow 2 ((IZR note - 69) / 12)) (currentTime s))
      (take 4 (operators P)) ++
    flat_map (connectionGain (operators P)) made
  ∧ edges (noteOn note s).2 =
    edges s ++ operatorEdges L ++
      tableEdges (voiceOperators L) (masterGain s) (L + 8) made
  ∧ activeNotes (noteOn note s).2 = <[note := voiceOperators L]> (activeNotes s).
Proof.
  intros Hp Hlen Hnote. cbv zeta. pose (L := length (nodes s)). fold L.
  rewrite (noteOn_fresh note s P Hp Hlen Hnote). cbn [snd].
  unfold route.
  destruct (route_fold (voiceOperators L) (operators P) (masterGain s)
              (topology (algorithm P)) (startedVoice note P s)
              (topology_within _)) as [Hn He].
  unfold set_activeNotes. cbn [nodes edges activeNotes]. fold L.
  rewrite Hn, He.
  assert (length (nodes (startedVoice note P s)) = (L + 8)%nat) as ->.
  { unfold startedVoice. cbn [nodes]. rewrite length_app. fold L. f_equal.
    destruct (operators P) as [|p0 [|p1 [|p2 [|p3 rest]]]]; cbn in Hlen; try lia.
    cbn [firstn flat_map]. rewrite !length_app, !startedOperator_length. done. }
  unfold startedVoice at 1 2. cbn [nodes edges]. fold L.
  rewrite <- !app_assoc. repeat split; try reflexivity.
  destruct (route_frame (algorithm P) (voiceOperators L) (operators P) (masterGain s)
    (startedVoice note P s)) as (_ & _ & _ & Ha & _).
  unfold route in Ha. rewrite Ha. reflexivity.
Qed.

(* ================================================================= *)
(** * The claims *)

(** ** [noteOff] on a note that is not sounding *)

(** C8. For every note with no live voice, [noteOff(note)] returns
    without an exception and leaves the whole runtime as it was: no
    envelope is touched, the registry is unchanged. *)
Theorem noteOff_unknown_note_is_noop (note : Z) (s : Runtime) :
  activeNotes s !! note = None →
  noteOff note s = (Return tt, s).
Proof.
  intros H. unfold noteOff.
  rewrite (bind_Return _ _ _ _ _ (gets_eq _ _)). by rewrite H.
Qed.

Lemma noteOff_unknown_note_witness :
  noteOff 60 (initial running) = (Return tt, initial running).
Proof. apply noteOff_unknown_note_is_noop. reflexivity. Defined.

(** ** [noteOn] before any [setPatch] *)

(** C10. [noteOn(note)] needs a patch: with [this.patch] still [null] and
    no live voice for [note], the guard at the top of [noteOn] only calls
    [context.resume()]; the method goes on, creates the four operators,
    and throws a [TypeError] when it takes [this.patch] apart.  The call
    does not return, and registers no voice. *)
Theorem noteOn_without_patch_throws (note : Z) (s : Runtime) :
  patch s = None →
  activeNotes s !! note = None →
  noteOn note s =
    (Throw TypeError,
     set_edges (λ es, es ++ operatorEdges (length (nodes s)))
       (set_nodes (λ ns, ns ++ [freshOscillator; freshEnvelope; freshOscillator; freshEnvelope;
                                freshOscillator; freshEnvelope; freshOscillator; freshEnvelope])
          (set_resumeCalls S s)))
  ∧ (∀ s', noteOn note s ≠ (Return tt, s'))
  ∧ activeNotes (noteOn note s).2 = activeNotes s.
Proof.
  intros Hp Hnote.
  assert (E : noteOn note s =
    (Throw TypeError,
     set_edges (λ es, es ++ operatorEdges (length (nodes s)))
       (set_nodes (λ ns, ns ++ [freshOscillator; freshEnvelope; freshOscillator; freshEnvelope;
                                freshOscillator; freshEnvelope; freshOscillator; freshEnvelope])
          (set_resumeCalls S s)))).
  { destruct s as [t st rc ns es an mg p]. cbn in Hp, Hnote. subst p.
    unfold noteOn.
    do 2 step. cbn [is_object negb orb]. unfold resume.
    do 2 step. rewrite Hnote.
    rewrite bool_decide_eq_false_2 by (intros [? ?]; discriminate).
    etrans. { apply bind_Return. apply array_of_4_Operator_new. }
    cbv beta. norm. step. reflexivity. }
  rewrite E. split; [reflexivity|]. split; [intros s'; discriminate|].
  reflexivity.
Qed.

Lemma noteOn_without_patch_witness :
  noteOn 60 (initial running) =
    (Throw TypeError,
     set_edges (λ es, es ++ operatorEdges 1)
       (set_nodes (λ ns, ns ++ [freshOscillator; freshEnvelope; freshOscillator; freshEnvelope;
                                freshOscillator; freshEnvelope; freshOscillator; freshEnvelope])
          (set_resumeCalls S (initial running)))).
Proof.
  apply (noteOn_without_patch_throws 60 (initial running)); reflexivity.
Defined.

(** ** One voice per note *)

(** Note 60 sounds on a running context; the browser suspends the
    context; a second [noteOn(60)] comes.  The call is not without
    effect: it asks the context to resume, which nothing had asked
    before. *)
Lemma second_noteOn_resumes_the_context :
  let s := run [SetPatch initialPatch; NoteOn 60; Suspended] (initial running) in
  liveVoices 60 s = [voiceOperators 1]
  ∧ resumeCalls s = 0%nat
  ∧ resumeCalls (noteOn 60 s).2 = 1%nat
  ∧ (noteOn 60 s).2 ≠ s.
Proof.
  cbv zeta. split; [|split; [|split]].
  - apply liveVoices_Some. vm_compute. reflexivity.
  - vm_compute. reflexivity.
  - vm_compute. reflexivity.
  - intros E. apply (f_equal resumeCalls) in E. vm_compute in E. discriminate.
Qed.

(** C2, amended. At most one voice is registered for a note, whatever
    calls were made.  A [noteOn(n)] for a note that already has a live
    voice builds nothing: it returns with the registry (still exactly
    that one voice for [n]), the nodes, the connections and the patch
    unchanged; its only possible effect is the [context.resume()] of the
    guard at its top, made when the context is suspended or no patch is
    set, and on a running context with a patch it changes nothing at
    all.  So two [noteOn(n)] in a row leave exactly one voice for [n],
    the one the first call built. *)
Theorem one_voice_per_note :
  (∀ st calls n, (length (liveVoices n (run calls (initial st))) ≤ 1)%nat)
  ∧ (∀ s n ops,
       activeNotes s !! n = Some ops →
       noteOn n s =
         (Return tt,
          if negb (is_object (patch s)) || is_suspended (state s)
          then set_resumeCalls S s else s)
       ∧ liveVoices n (noteOn n s).2 = [ops]
       ∧ activeNotes (noteOn n s).2 = activeNotes s
       ∧ nodes (noteOn n s).2 = nodes s
       ∧ edges (noteOn n s).2 = edges s
       ∧ patch (noteOn n s).2 = patch s
       ∧ (state s = running → is_Some (patch s) → (noteOn n s).2 = s))
  ∧ (∀ s n P,
       patch s = Some P → (4 ≤ length (operators P))%nat →
       activeNotes s !! n = None →
       let s1 := (noteOn n s).2 in
       let s2 := (noteOn n s1).2 in
       liveVoices n s1 = [voiceOperators (length (nodes s))]
       ∧ liveVoices n s2 = [voiceOperators (length (nodes s))]
       ∧ activeNotes s2 = activeNotes s1
       ∧ nodes s2 = nodes s1
       ∧ edges s2 = edges s1).
Proof.
  assert (Live : ∀ s n ops,
       activeNotes s !! n = Some ops →
       noteOn n s =
         (Return tt,
          if negb (is_object (patch s)) || is_suspended (state s)
          then set_resumeCalls S s else s)
       ∧ liveVoices n (noteOn n s).2 = [ops]
       ∧ activeNotes (noteOn n s).2 = activeNotes s
       ∧ nodes (noteOn n s).2 = nodes s
       ∧ edges (noteOn n s).2 = edges s
       ∧ patch (noteOn n s).2 = patch s
       ∧ (state s = running → is_Some (patch s) → (noteOn n s).2 = s)).
  { intros s n ops H.
    rewrite (noteOn_live n s) by (by rewrite H).
    assert (F : ∀ b : bool,
              activeNotes (if b then set_resumeCalls S s else s) = activeNotes s
              ∧ nodes (if b then set_resumeCalls S s else s) = nodes s
              ∧ edges (if b then set_resumeCalls S s else s) = edges s
              ∧ patch (if b then set_resumeCalls S s else s) = patch s).
    { intros []; repeat split. }
    destruct (F (negb (is_object (patch s)) || is_suspended (state s)))
      as (F1 & F2 & F3 & F4).
    cbn [snd]. repeat split; try assumption.
    - apply liveVoices_Some. by rewrite F1.
    - intros -> [P ->]. reflexivity. }
  split; [|split].
  - intros st calls n. apply liveVoices_length.
  - exact Live.
  - intros s n P Hp Hlen Hnote. cbv zeta.
    destruct (noteOn_fresh_graph n s P Hp Hlen Hnote) as (_ & _ & Ha).
    assert (H1 : activeNotes (noteOn n s).2 !! n
                 = Some (voiceOperators (length (nodes s))))
      by (by rewrite Ha, lookup_insert_eq).
    destruct (Live _ _ _ H1) as (_ & L2 & A2 & N2 & E2 & _).
    repeat split; try assumption.
    by apply liveVoices_Some.
Qed.

Lemma one_voice_per_note_witness :
  let s := run [SetPatch initialPatch] (initial running) in
  let s1 := (noteOn 60 s).2 in
  liveVoices 60 s1 = [voiceOperators 1]
  ∧ liveVoices 60 (noteOn 60 s1).2 = [voiceOperators 1]
  ∧ (noteOn 60 s1).2 = s1.
Proof.
  cbv zeta.
  destruct one_voice_per_note as (_ & Live & Twice).
  destruct (Twice (run [SetPatch initialPatch] (initial running)) 60%Z initialPatch
              eq_refl) as (L1 & L2 & _).
  - cbn. lia.
  - reflexivity.
  - split; [exact L1|]. split; [exact L2|].
    destruct (Live (run [SetPatch initialPatch; NoteOn 60] (initial running)) 60%Z
                (voiceOperators 1) eq_refl) as (_ & _ & _ & _ & _ & _ & R).
    apply R.
    + reflexivity.
    + exists initialPatch. reflexivity.
Defined.

Section GraphClaims.
Local Open Scope R_scope.

(** ** The frequency of an operator *)

Lemma baseFreq_69 : 440 * Math_pow 2 ((IZR 69 - 69) / 12) = 440.
Proof.
  unfold Math_pow. replace ((69 - 69) / 12) with 0 by lra.
  rewrite Rpower_O by lra. lra.
Qed.

Lemma baseFreq_81 : 440 * Math_pow 2 ((IZR 81 - 69) / 12) = 880.
Proof.
  unfold Math_pow. replace ((81 - 69) / 12) with 1 by lra.
  rewrite Rpower_1 by lra. lra.
Qed.

(** C3. The oscillator of every enabled operator of a new voice is given,
    at the time of the [noteOn], the frequency
    [440 * 2^((note-69)/12) * ratio * (1 + detune/1000)] (and the
    waveform of its params); the base frequency of note 69 is 440 and
    that of note 81 is 880. *)
Theorem noteOn_sets_operator_frequency
    (note : Z) (s : Runtime) (P : Patch) (i : nat) (params : OperatorParams) :
  patch s = Some P →
  (4 ≤ length (operators P))%nat →
  activeNotes s !! note = None →
  (i < 4)%nat →
  operators P !! i = Some params →
  on params = true →
  let s' := (noteOn note s).2 in
  let op := {| osc := length (nodes s) + 2 * i; env := length (nodes s) + 2 * i + 1 |} in
  (∃ noteOperators, activeNotes s' !! note = Some noteOperators
                    ∧ noteOperators !! i = Some op)
  ∧ nodes s' !! osc op =
      Some (OscillatorNode
        {| osc_type := waveform params;
           frequency :=
             {| value := 440;
                events :=
                  [SetValue (440 * Rpower 2 ((IZR note - 69) / 12)
                               * ratio params * (1 + detune params / 1000))
                            (currentTime s)] |};
           started := true; stopTime := None |})
  ∧ 440 * Rpower 2 ((IZR 69 - 69) / 12) = 440
  ∧ 440 * Rpower 2 ((IZR 81 - 69) / 12) = 880.
Proof.
  intros Hp Hlen Hnote Hi Hparams Hon. cbv zeta.
  destruct (noteOn_fresh_graph note s P Hp Hlen Hnote) as (Hn & _ & Ha).
  split; [|split; [|split; [apply baseFreq_69 | apply baseFreq_81]]].
  - exists (voiceOperators (length (nodes s))). rewrite Ha, lookup_insert_eq.
    split; [done|].
    destruct i as [|[|[|[|i]]]]; try lia; cbn [voiceOperators lookup list_lookup];
      do 2 f_equal; lia.
  - rewrite Hn. cbn [osc]. rewrite lookup_app_plus.
    destruct (operators P) as [|p0 [|p1 [|p2 [|p3 rest]]]]; cbn in Hlen; try lia.
    cbn [firstn flat_map]. rewrite app_nil_r.
    unfold startedOperator at 1 2 3 4.
    destruct i as [|[|[|[|i]]]]; try lia; cbn in Hparams;
      injection Hparams as ->; rewrite Hon;
      repeat case_match; reflexivity.
Qed.

Lemma noteOn_sets_operator_frequency_witness :
  let s := run [SetPatch initialPatch] (initial running) in
  nodes (noteOn 69 s).2 !! 1%nat =
      Some (OscillatorNode
        {| osc_type := sine;
           frequency :=
             {| value := 440;
                events :=
                  [SetValue (440 * Rpower 2 ((IZR 69 - 69) / 12)
                               * 1.00 * (1 + 0 / 1000)) 0] |};
           started := true; stopTime := None |}).
Proof.
  cbv zeta.
  refine (proj1 (proj2 (noteOn_sets_operator_frequency 69
            (run [SetPatch initialPatch] (initial running)) initialPatch 0
            (initialOperator true 1.00 0.8) eq_refl _ eq_refl _ eq_refl eq_refl))).
  - cbn. lia.
  - lia.
Defined.

(** ** The routing of a new voice *)

Lemma filter_enabled_all params cs :
  Forall (λ c, enabled params c = true) cs →
  filter (λ c, enabled params c = true) cs = cs.
Proof.
  induction 1 as [|c cs Hc _ IH]; [done|].
  by rewrite filter_cons_True, IH.
Qed.

Lemma topology_fallback alg :
  ¬ (1 ≤ alg ≤ 6)%Z → topology alg = [Carrier 0; Carrier 1; Carrier 2; Carrier 3].
Proof.
  intros H. unfold topology. repeat case_match; try reflexivity; lia.
Qed.

(** C4. The [switch] of [noteOn] is the router of the specification on
    its fixed table: for every patch, the connections built for a new
    voice are those of the row of the patch's algorithm, each made when
    its operators are on (all of the row when the four operators are
    on), the gain nodes being created in the order of the row; and an
    algorithm outside 1..6 takes the row of 6, four carriers. *)
Theorem noteOn_routes_by_the_topology_table (note : Z) (s : Runtime) (P : Patch) :
  patch s = Some P →
  (4 ≤ length (operators P))%nat →
  activeNotes s !! note = None →
  let L := length (nodes s) in
  let made := filter (λ c, enabled (operators P) c = true) (topology (algorithm P)) in
  noteOn note s =
    (Return tt,
     set_activeNotes (<[note := voiceOperators L]>)
       (route (algorithm P) (voiceOperators L) (operators P) (masterGain s)
          (startedVoice note P s)))
  ∧ edges (noteOn note s).2 =
      edges s ++ operatorEdges L ++
        tableEdges (voiceOperators L) (masterGain s) (L + 8) made
  ∧ drop (L + 8) (nodes (noteOn note s).2) =
      flat_map (connectionGain (operators P)) made
  ∧ (Forall (λ p, on p = true) (take 4 (operators P)) →
     made = topology (algorithm P))
  ∧ (¬ (1 ≤ algorithm P ≤ 6)%Z →
     topology (algorithm P) = topology 6
     ∧ topology 6 = [Carrier 0; Carrier 1; Carrier 2; Carrier 3])
  ∧ topology 1 = [Modulator 0 1; Modulator 1 2; Modulator 2 3; Carrier 3]
  ∧ topology 2 = [Modulator 0 1; Carrier 1; Modulator 2 3; Carrier 3]
  ∧ topology 3 = [Modulator 0 2; Modulator 1 2; Modulator 2 3; Carrier 3]
  ∧ topology 4 = [Modulator 0 3; Modulator 1 3; Modulator 2 3; Carrier 3]
  ∧ topology 5 = [Modulator 0 1; Carrier 1; Carrier 2; Carrier 3].
Proof.
  intros Hp Hlen Hnote. cbv zeta.
  destruct (noteOn_fresh_graph note s P Hp Hlen Hnote) as (Hn & He & _).
  split; [by apply noteOn_fresh|].
  split; [exact He|].
  split.
  { rewrite Hn, app_assoc.
    replace (length (nodes s) + 8)%nat with
      (length (nodes s ++ flat_map
         (startedOperator (440 * Math_pow 2 ((IZR note - 69) / 12)) (currentTime s))
         (take 4 (operators P)))).
    - by rewrite drop_app_length.
    - rewrite length_app. f_equal.
      destruct (operators P) as [|p0 [|p1 [|p2 [|p3 rest]]]]; cbn in Hlen; try lia.
      cbn [firstn flat_map]. by rewrite !length_app, !startedOperator_length. }
  split.
  { intros Hon. apply filter_enabled_all.
    destruct (operators P) as [|p0 [|p1 [|p2 [|p3 rest]]]]; cbn in Hlen; try lia.
    cbn [firstn] in Hon.
    apply Forall_cons in Hon as [H0 Hon]. apply Forall_cons in Hon as [H1 Hon].
    apply Forall_cons in Hon as [H2 Hon]. apply Forall_cons in Hon as [H3 _].
    unfold topology. repeat case_match; repeat constructor;
      cbn [enabled lookup list_lookup is_on]; by rewrite ?H0, ?H1, ?H2, ?H3. }
  split; [|repeat split].
  intros H. split; [|reflexivity]. by rewrite (topology_fallback _ H).
Qed.

Lemma noteOn_routes_by_the_topology_table_witness :
  let s := run [SetPatch initialPatch] (initial running) in
  edges (noteOn 60 s).2 =
    edges s ++ operatorEdges 1 ++
      [ (2%nat, NodeInput 9); (9%nat, FrequencyInput 3);
        (8%nat, NodeInput 10); (10%nat, NodeInput 0) ].
Proof.
  cbv zeta.
  refine (proj1 (proj2 (noteOn_routes_by_the_topology_table 60
            (run [SetPatch initialPatch] (initial running)) initialPatch
            eq_refl _ eq_refl))).
  cbn. lia.
Defined.

(** ** The two kinds of connection *)

(** C5. A connection with an operator that is off is not made: the
    helper returns without creating a node or an edge.  So under
    algorithm 1 with the operator of index 2 off and the others on, a
    new voice gets the connection 0→1 and the carrier 3, and neither
    1→2 nor 2→3: no edge leads to the frequency of the oscillators of
    the operators 2 and 3. *)
Theorem connections_of_disabled_operators_are_omitted
    (note : Z) (s : Runtime) (P : Patch) (p0 p1 p2 p3 : OperatorParams) :
  patch s = Some P →
  algorithm P = 1%Z →
  operators P = [p0; p1; p2; p3] →
  on p0 = true → on p1 = true → on p2 = false → on p3 = true →
  activeNotes s !! note = None →
  let L := length (nodes s) in
  edges (noteOn note s).2 =
    edges s ++ operatorEdges L ++
      [ ((L + 1)%nat, NodeInput (L + 8)); ((L + 8)%nat, FrequencyInput (L + 2));
        ((L + 7)%nat, NodeInput (L + 9)); ((L + 9)%nat, NodeInput (masterGain s)) ]
  ∧ drop (L + 8) (nodes (noteOn note s).2) =
      [ GainNode {| value := level p0 * 5000; events := [] |};
        GainNode {| value := level p3; events := [] |} ]
  ∧ (∀ opParams noteOperators modIndex carIndex r,
       is_on (opParams !! modIndex) = false ∨ is_on (opParams !! carIndex) = false →
       connectModulator opParams noteOperators modIndex carIndex r = (Return tt, r))
  ∧ (∀ opParams noteOperators carIndex r,
       is_on (opParams !! carIndex) = false →
       connectCarrier opParams noteOperators carIndex r = (Return tt, r)).
Proof.
  intros Hp Halg Hops H0 H1 H2 H3 Hnote. cbv zeta.
  assert (Hlen : (4 ≤ length (operators P))%nat) by (rewrite Hops; cbn; lia).
  destruct (noteOn_fresh_graph note s P Hp Hlen Hnote) as (Hn & He & _).
  rewrite Halg, Hops in Hn, He.
  assert (Hmade : filter (λ c, enabled [p0; p1; p2; p3] c = true) (topology 1)
                  = [Modulator 0 1; Carrier 3]).
  { unfold topology. rewrite !filter_cons, filter_nil.
    cbn [enabled lookup list_lookup is_on]. rewrite H0, H1, H2, H3. reflexivity. }
  rewrite Hmade in Hn, He.
  split; [|split; [|split]].
  - rewrite He. cbn [tableEdges connectionEdges voiceOperators lookup list_lookup
                     output env osc app].
    rewrite <- Nat.add_succ_r. reflexivity.
  - rewrite Hn. cbn [firstn flat_map connectionGain lookup list_lookup app].
    rewrite !app_nil_r, !app_assoc.
    replace (length (nodes s) + 8)%nat with
      (length ((((nodes s ++ startedOperator (440 * Math_pow 2 ((IZR note - 69) / 12)) (currentTime s) p0)
         ++ startedOperator (440 * Math_pow 2 ((IZR note - 69) / 12)) (currentTime s) p1)
         ++ startedOperator (440 * Math_pow 2 ((IZR note - 69) / 12)) (currentTime s) p2)
         ++ startedOperator (440 * Math_pow 2 ((IZR note - 69) / 12)) (currentTime s) p3)).
    + by rewrite drop_app_length.
    + rewrite !length_app, !startedOperator_length. lia.
  - intros opParams noteOperators modIndex carIndex r Hoff.
    unfold connectModulator. by destruct Hoff as [-> | ->]; rewrite ?orb_true_r.
  - intros opParams noteOperators carIndex r Hoff.
    unfold connectCarrier. by rewrite Hoff.
Qed.

Lemma connections_of_disabled_operators_witness :
  let s := run [SetPatch initialPatch] (initial running) in
  edges (noteOn 60 s).2 =
    edges s ++ operatorEdges 1 ++
      [ (2%nat, NodeInput 9); (9%nat, FrequencyInput 3);
        (8%nat, NodeInput 10); (10%nat, NodeInput 0) ]
  ∧ connectModulator (operators initialPatch) (voiceOperators 1) 1 2 s = (Return tt, s).
Proof.
  cbv zeta.
  destruct (connections_of_disabled_operators_are_omitted 60
            (run [SetPatch initialPatch] (initial running)) initialPatch
            (initialOperator true 1.00 0.8) (initialOperator true 1.00 0.5)
            (initialOperator false 5.00 0.4) (initialOperator true 1.00 0.99)
            eq_refl eq_refl eq_refl eq_refl eq_refl eq_refl eq_refl eq_refl)
    as (E & _ & M & _).
  split; [exact E|]. apply M. right. reflexivity.
Defined.

(** C6. A modulator connection puts between the modulator's output and
    the carrier's [frequency] one gain node whose gain is the
    modulator's [level] times 5000; a carrier connection puts between
    the carrier's output and the master gain one gain node whose gain is
    the carrier's [level]. *)
Theorem connection_gain_values
    (opParams : list OperatorParams) (noteOperators : list Operator)
    (modIndex carIndex : nat) (modulator carrier : Operator)
    (modP carP : OperatorParams) (s : Runtime) :
  noteOperators !! modIndex = Some modulator →
  noteOperators !! carIndex = Some carrier →
  opParams !! modIndex = Some modP →
  opParams !! carIndex = Some carP →
  on modP = true →
  on carP = true →
  connectModulator opParams noteOperators modIndex carIndex s =
    (Return tt,
     set_edges (λ es, es ++ [(output modulator, NodeInput (length (nodes s)));
                             (length (nodes s), FrequencyInput (osc carrier))])
       (set_nodes (λ ns, ns ++ [GainNode {| value := level modP * 5000; events := [] |}]) s))
  ∧ connectCarrier opParams noteOperators carIndex s =
    (Return tt,
     set_edges (λ es, es ++ [(output carrier, NodeInput (length (nodes s)));
                             (length (nodes s), NodeInput (masterGain s))])
       (set_nodes (λ ns, ns ++ [GainNode {| value := level carP; events := [] |}]) s)).
Proof.
  intros Hm Hc Hpm Hpc Hon_m Hon_c. split.
  - rewrite connectModulator_eq by (by rewrite ?Hm, ?Hc).
    cbn [connection]. by rewrite Hm, Hc, Hpm, Hpc, Hon_m, Hon_c.
  - rewrite connectCarrier_eq by (by rewrite ?Hc).
    cbn [connection]. by rewrite Hc, Hpc, Hon_c.
Qed.

Lemma connection_gain_values_witness :
  let s := startedVoice 60 initialPatch (run [SetPatch initialPatch] (initial running)) in
  connectModulator (operators initialPatch) (voiceOperators 1) 0 1 s =
    (Return tt,
     set_edges (λ es, es ++ [(2%nat, NodeInput 9); (9%nat, FrequencyInput 3)])
       (set_nodes (λ ns, ns ++ [GainNode {| value := 0.8 * 5000; events := [] |}]) s))
  ∧ connectCarrier (operators initialPatch) (voiceOperators 1) 1 s =
    (Return tt,
     set_edges (λ es, es ++ [(4%nat, NodeInput 9); (9%nat, NodeInput 0)])
       (set_nodes (λ ns, ns ++ [GainNode {| value := 0.5; events := [] |}]) s)).
Proof.
  cbv zeta.
  apply (connection_gain_values (operators initialPatch) (voiceOperators 1) 0 1
           {| osc := 1; env := 2 |} {| osc := 3; env := 4 |}
           (initialOperator true 1.00 0.8) (initialOperator true 1.00 0.5));
    reflexivity.
Defined.

End GraphClaims.

Section EnvelopeClaims.
Local Open Scope R_scope.

(** ** Envelopes *)

Lemma alter_lookup_insert {A} (f : A → A) (l : list A) k x :
  l !! k = Some x → alter f k l = <[k := f x]> l.
Proof.
  revert k. induction l as [|y l IH]; intros [|k] H; cbn in *; try done.
  - by injection H as ->.
  - f_equal. by apply IH.
Qed.

Lemma stop_ignored_frame n t s k x :
  nodes s !! k = Some (GainNode x) →
  ∃ s', try_ignore (stop n t) s = (Return tt, s')
        ∧ nodes s' !! k = Some (GainNode x)
        ∧ currentTime s' = currentTime s.
Proof.
  intros Hk. unfold try_ignore, stop, bind, gets. cbn.
  destruct (nodes s !! n) as [[o|g]|] eqn:Hn; cbn; [|by eauto|by eauto].
  destruct (started o); cbn; [|by eauto].
  eexists. split; [reflexivity|]. cbn [nodes set_nodes currentTime]. split; [|done].
  destruct (decide (n = k)) as [->|Hne]; [congruence|].
  by rewrite list_lookup_insert_ne.
Qed.

Lemma triggerRelease_envelope op params s g :
  nodes s !! env op = Some (GainNode g) →
  ∃ s', triggerRelease op params s = (Return tt, s')
        ∧ nodes s' !! env op =
            Some (GainNode (releasedEnvelope (release params) (currentTime s) g))
        ∧ currentTime s' = currentTime s.
Proof.
  intros Hg.
  assert (Hlen : (env op < length (nodes s))%nat) by (by eapply lookup_lt_Some).
  destruct s as [t st rc ns es an mg p]. cbn [nodes currentTime] in *.
  unfold triggerRelease, cancelScheduledValues, setValueAtTime, linearRampToValueAtTime.
  rewrite (bind_Return _ _ _ _ _ (gets_eq _ _)). cbn [currentTime].
  erewrite bind_Return; cycle 1.
  { eapply onParam_eq. cbn [nodes lookupParam]. by rewrite Hg. }
  unfold set_nodes at 1. cbn [nodes currentTime state resumeCalls edges activeNotes masterGain patch alterParam].
  rewrite (alter_lookup_insert _ _ _ _ Hg).
  erewrite bind_Return; cycle 1.
  { eapply get_value_eq. cbn [nodes lookupParam]. by rewrite list_lookup_insert_eq. }
  erewrite bind_Return; cycle 1.
  { eapply onParam_eq. cbn [nodes lookupParam]. by rewrite list_lookup_insert_eq. }
  unfold set_nodes at 1. cbn [nodes currentTime state resumeCalls edges activeNotes masterGain patch alterParam].
  erewrite alter_lookup_insert by (by rewrite list_lookup_insert_eq).
  rewrite list_insert_insert_eq.
  erewrite bind_Return; cycle 1.
  { eapply onParam_eq. cbn [nodes lookupParam]. by rewrite list_lookup_insert_eq. }
  unfold set_nodes at 1. cbn [nodes currentTime state resumeCalls edges activeNotes masterGain patch alterParam].
  erewrite alter_lookup_insert by (by rewrite list_lookup_insert_eq).
  rewrite list_insert_insert_eq.
  apply stop_ignored_frame. cbn [nodes]. by rewrite list_lookup_insert_eq.
Qed.

Lemma insertEvent_last e l :
  Forall (λ x, eventTime x <= eventTime e) l → insertEvent e l = l ++ [e].
Proof.
  induction 1 as [|x l Hx _ IH]; [done|].
  cbn [insertEvent]. rewrite decide_False by lra. by rewrite IH.
Qed.

Lemma valueFrom_past v0 t0 l1 l2 t :
  Forall (λ x, eventTime x <= t) l1 →
  ∃ v' t', valueFrom v0 t0 (l1 ++ l2) t = valueFrom v' t' l2 t.
Proof.
  intros H. revert v0 t0. induction H as [|x l1 Hx _ IH]; intros v0 t0.
  - by exists v0, t0.
  - destruct x as [v te|v te]; cbn [app valueFrom eventTime] in *;
      rewrite decide_False by lra; apply IH.
Qed.

Lemma releasedEnvelope_events release now g :
  0 <= release →
  events (releasedEnvelope release now g) =
    filter (λ e, eventTime e < now) (events g)
      ++ [SetValue (value g) now; LinearRamp 0 (now + release)].
Proof.
  intros Hr. unfold releasedEnvelope. cbn [events].
  assert (Hkept : Forall (λ x, eventTime x < now)
                    (filter (λ e, eventTime e < now) (events g))).
  { apply Forall_forall. intros x Hx. by apply list_elem_of_filter in Hx as [? _]. }
  rewrite (insertEvent_last (SetValue (value g) now)).
  2:{ eapply Forall_impl; [exact Hkept|]. cbn. intros; lra. }
  rewrite insertEvent_last.
  2:{ apply Forall_app. split.
      - eapply Forall_impl; [exact Hkept|]. cbn. intros; lra.
      - apply Forall_singleton. cbn. lra. }
  by rewrite <- app_assoc.
Qed.

Lemma releasedEnvelope_valueAt release now g d :
  0 < release → 0 <= d <= release →
  valueAt (releasedEnvelope release now g) (now + d) = value g * (1 - d / release).
Proof.
  intros Hr Hd. unfold valueAt.
  rewrite releasedEnvelope_events by lra.
  destruct (valueFrom_past (value (releasedEnvelope release now g)) (now + d)
              (filter (λ e, eventTime e < now) (events g))
              [SetValue (value g) now; LinearRamp 0 (now + release)] (now + d))
    as (v' & t' & ->).
  { apply Forall_forall. intros x Hx. apply list_elem_of_filter in Hx as [? _]. lra. }
  cbn [valueFrom]. rewrite decide_False by lra.
  destruct (decide (now + d < now + release)) as [Hlt|Hge].
  - field. lra.
  - assert (d = release) as -> by lra. field. lra.
Qed.

Lemma envelope_events params t0 v :
  0 <= attack params → 0 <= decay params →
  envelope params t0 v =
    [SetValue v t0; LinearRamp 1 (t0 + attack params);
     LinearRamp (sustain params) (t0 + attack params + decay params)].
Proof.
  intros Ha Hd. unfold envelope.
  rewrite (insertEvent_last (LinearRamp 1 _)) by (apply Forall_singleton; cbn; lra).
  rewrite insertEvent_last
    by (apply Forall_cons; split; [|apply Forall_singleton]; cbn; lra).
  reflexivity.
Qed.

Lemma attack_valueAt params t0 t :
  0 < attack params → 0 <= decay params → t0 < t < t0 + attack params →
  valueAt {| value := 0; events := envelope params t0 0 |} t = (t - t0) / attack params.
Proof.
  intros Ha Hd Ht. unfold valueAt. cbn [value events].
  rewrite envelope_events by lra. cbn [valueFrom].
  rewrite decide_False by lra. rewrite decide_True by lra. field. lra.
Qed.

Lemma render_lookup t s k :
  nodes (render t s) !! k = renderNode t <$> nodes s !! k.
Proof. unfold render. cbn [nodes]. apply list_lookup_fmap. Qed.

Lemma renderQuantum_lookup start t s k :
  nodes (renderQuantum start t s) !! k = renderNode start <$> nodes s !! k.
Proof. unfold renderQuantum. cbn [nodes]. apply list_lookup_fmap. Qed.

Lemma attack_valueAt_from params t0 t :
  0 < attack params → 0 <= decay params → t < t0 + attack params →
  valueAt {| value := 0; events := envelope params t0 0 |} t
  = if decide (t < t0) then 0 else (t - t0) / attack params.
Proof.
  intros Ha Hd Ht. unfold valueAt. cbn [value events].
  rewrite envelope_events by lra. cbn [valueFrom].
  destruct (decide (t < t0)); [done|].
  rewrite decide_True by lra. field. lra.
Qed.

(** C9 does not hold as it is stated.  Note 69 is started at time 0
    under [initialPatch] (attack 0.01 s); the audio thread renders its
    first quantum, from 0 to 128/48000 s; the note is released.  The
    release comes during the attack, when the gain has reached 4/15;
    but [gain.value] still returns the value of the start of the
    quantum, 0, and this is the value [triggerRelease] holds and ramps
    from: the release ramp goes from 0 to 0, not from the 4/15 the
    attack has reached. *)
Lemma release_in_the_first_quantum_ramps_from_0 :
  let s0 := run [SetPatch initialPatch; NoteOn 69] (initial running) in
  let params := initialOperator true 1.00 0.8 in
  let s := renderQuantum 0 (128 / 48000) s0 in
  nodes s0 !! 2%nat = Some (GainNode {| value := 0; events := envelope params 0 0 |})
  ∧ 0 < currentTime s < 0 + attack params
  ∧ valueAt {| value := 0; events := envelope params 0 0 |} (currentTime s) = 4 / 15
  ∧ (∃ g, nodes s !! 2%nat = Some (GainNode g) ∧ value g = 0)
  ∧ ∃ s',
      triggerRelease {| osc := 1; env := 2 |} params s = (Return tt, s')
      ∧ nodes s' !! 2%nat =
          Some (GainNode
            {| value := 0;
               events := [SetValue 0 0; SetValue 0 (128 / 48000);
                          LinearRamp 0 (128 / 48000 + 0.5)] |}).
Proof.
  cbv zeta.
  split; [vm_compute; reflexivity|].
  split; [cbn; lra|].
  split.
  { change (currentTime _) with (128 / 48000).
    rewrite attack_valueAt_from by (cbn; lra).
    rewrite decide_False by lra. cbn. lra. }
  split.
  { exists (renderParam 0
              {| value := 0; events := envelope (initialOperator true 1.00 0.8) 0 0 |}).
    split; [vm_compute; reflexivity|].
    cbn [value renderParam]. rewrite attack_valueAt_from by (cbn; lra).
    rewrite decide_False by lra. cbn. lra. }
  destruct (triggerRelease_envelope {| osc := 1; env := 2 |} (initialOperator true 1.00 0.8)
              (renderQuantum 0 (128 / 48000)
                 (run [SetPatch initialPatch; NoteOn 69] (initial running)))
              (renderParam 0
                 {| value := 0; events := envelope (initialOperator true 1.00 0.8) 0 0 |}))
    as (s' & E & Hn & _).
  { vm_compute. reflexivity. }
  exists s'. split; [exact E|]. cbn [env] in Hn. rewrite Hn. do 2 f_equal.
  change (currentTime _) with (128 / 48000).
  pose proof (releasedEnvelope_events 0.5 (128 / 48000)
    (renderParam 0 {| value := 0; events := envelope (initialOperator true 1.00 0.8) 0 0 |})) as Ev.
  unfold releasedEnvelope in *. cbn [events value renderParam release initialOperator] in *.
  rewrite Ev by lra.
  rewrite envelope_events by (cbn; lra). cbn [attack decay sustain initialOperator].
  assert (V0 : valueAt {| value := 0;
                 events := [SetValue 0 0; LinearRamp 1 (0 + 0.01);
                            LinearRamp 0.8 (0 + 0.01 + 0.3)] |} 0 = 0).
  { unfold valueAt. cbn [value events valueFrom].
    rewrite decide_False by lra. rewrite decide_True by lra. lra. }
  rewrite filter_cons_True by (cbn; lra).
  rewrite !filter_cons_False, filter_nil by (cbn; lra).
  rewrite V0. reflexivity.
Qed.

(** C9, as the code has it.  [triggerRelease] removes from the
    envelope's timeline the events that are not yet reached, holds the
    gain at the value [gain.value] returns, and ramps linearly from that
    value to 0 over [release] seconds ([d] seconds after the release the
    gain is [value * (1 - d/release)]).  The value [gain.value] returns
    is the one of the start of the last rendered quantum.  So when the
    release comes at a time [t] during an attack started at [t0] from 0,
    the ramp starts from the gain the attack had reached at the start
    of that quantum: [(start - t0) / attack], or 0 when the quantum
    began before the attack; this is at most the gain reached at [t],
    and less than 1. *)
Theorem triggerRelease_ramps_from_the_reported_gain
    (op : Operator) (params : OperatorParams) (s : Runtime) (g : AudioParam) :
  nodes s !! env op = Some (GainNode g) →
  0 < release params →
  let now := currentTime s in
  let released :=
    {| value := value g;
       events := filter (λ e, eventTime e < now) (events g)
                   ++ [SetValue (value g) now; LinearRamp 0 (now + release params)] |} in
  (∃ s', triggerRelease op params s = (Return tt, s')
         ∧ nodes s' !! env op = Some (GainNode released))
  ∧ (∀ d, 0 <= d <= release params →
       valueAt released (now + d) = value g * (1 - d / release params))
  ∧ (∀ s0 p0 t0 start t,
       s = renderQuantum start t s0 →
       nodes s0 !! env op = Some (GainNode {| value := 0; events := envelope p0 t0 0 |}) →
       0 < attack p0 → 0 <= decay p0 →
       start <= t → t0 < t < t0 + attack p0 →
       now = t
       ∧ (start <= t0 → value g = 0)
       ∧ (t0 <= start → value g = (start - t0) / attack p0)
       ∧ 0 <= value g <= (t - t0) / attack p0
       ∧ value g < 1).
Proof.
  intros Hg Hr. cbv zeta.
  assert (Hrel : releasedEnvelope (release params) (currentTime s) g =
    {| value := value g;
       events := filter (λ e, eventTime e < currentTime s) (events g)
                   ++ [SetValue (value g) (currentTime s);
                       LinearRamp 0 (currentTime s + release params)] |}).
  { pose proof (releasedEnvelope_events (release params) (currentTime s) g) as E.
    unfold releasedEnvelope in *. cbn [events] in E. rewrite E by lra. reflexivity. }
  split; [|split].
  - destruct (triggerRelease_envelope op params s g Hg) as (s' & E & Hn & _).
    exists s'. split; [exact E|]. by rewrite Hn, Hrel.
  - intros d Hd. rewrite <- Hrel. by apply releasedEnvelope_valueAt.
  - clear Hrel. intros s0 p0 t0 start t -> Hg0 Ha Hd Hq Ht.
    cbn [currentTime renderQuantum] in *.
    rewrite renderQuantum_lookup, Hg0 in Hg.
    cbn [fmap option_fmap option_map renderNode] in Hg. injection Hg as <-.
    cbn [value renderParam]. rewrite attack_valueAt_from by lra.
    assert (0 < / attack p0) by (by apply Rinv_0_lt_compat).
    assert (attack p0 * / attack p0 = 1) by (apply Rinv_r; lra).
    split; [reflexivity|].
    destruct (decide (start < t0)) as [Hlt|Hge]; unfold Rdiv.
    + split; [done|]. split; [intros; lra|]. split; [|lra]. split; [lra|nra].
    + split; [intros; assert (start = t0) as -> by lra; lra|].
      split; [done|]. split; [split; nra|nra].
Qed.

Lemma triggerRelease_ramps_witness :
  let s0 := run [SetPatch initialPatch; NoteOn 69] (initial running) in
  let g := renderParam (128 / 48000)
             {| value := 0; events := envelope (initialOperator true 1.00 0.8) 0 0 |} in
  (∃ s', triggerRelease {| osc := 1; env := 2 |} (initialOperator true 1.00 0.8)
           (renderQuantum (128 / 48000) (256 / 48000) s0) = (Return tt, s')
         ∧ nodes s' !! 2%nat =
             Some (GainNode
               {| value := value g;
                  events := filter (λ e, eventTime e < 256 / 48000) (events g)
                              ++ [SetValue (value g) (256 / 48000);
                                  LinearRamp 0 (256 / 48000 + 0.5)] |}))
  ∧ value g = (128 / 48000 - 0) / 0.01
  ∧ 0 <= value g <= (256 / 48000 - 0) / 0.01
  ∧ value g < 1.
Proof.
  cbv zeta.
  destruct (triggerRelease_ramps_from_the_reported_gain
              {| osc := 1; env := 2 |} (initialOperator true 1.00 0.8)
              (renderQuantum (128 / 48000) (256 / 48000)
                 (run [SetPatch initialPatch; NoteOn 69] (initial running)))
              (renderParam (128 / 48000)
                 {| value := 0; events := envelope (initialOperator true 1.00 0.8) 0 0 |})
              eq_refl) as (E & _ & M).
  - cbn. lra.
  - split; [exact E|].
    destruct (M (run [SetPatch initialPatch; NoteOn 69] (initial running))
                (initialOperator true 1.00 0.8) 0 (128 / 48000) (256 / 48000)
                eq_refl eq_refl)
      as (_ & _ & V & B & B1); cbn; try lra.
    split; [apply V; lra|]. split; [exact B | exact B1].
Defined.

(** ** A patch edit while a note sounds *)

(** C1 does not hold of the code.  Note 69 is started under
    [initialPatch] (operators 1, 2 and 4 on, every release 0.5 s); while
    it sounds the patch is replaced by [editedPatch]; then the note is
    released.  [noteOff] takes [on] and [release] from the patch of that
    moment: the first operator, which has been sounding since the
    [noteOn], gets no release (its envelope keeps the attack and decay
    it was given and nothing after, its oscillator is never stopped)
    while the voice leaves the registry; the second operator is released
    over 2 s, not over the 0.5 s it was started with. *)
Theorem noteOff_releases_by_the_live_patch :
  let s3 := run [SetPatch initialPatch; NoteOn 69; SetPatch editedPatch]
              (initial running) in
  let s := (noteOff 69 s3).2 in
  (noteOff 69 s3).1 = Return tt
  ∧ nodes s3 = nodes (run [SetPatch initialPatch; NoteOn 69] (initial running))
  ∧ activeNotes s3 !! 69%Z = Some (voiceOperators 1)
  ∧ activeNotes s !! 69%Z = None
  ∧ nodes s !! 2%nat =
      Some (GainNode
        {| value := 0;
           events := [SetValue 0 0; LinearRamp 1 (0 + 0.01);
                      LinearRamp 0.8 (0 + 0.01 + 0.3)] |})
  ∧ nodes s !! 1%nat =
      Some (OscillatorNode
        {| osc_type := sine;
           frequency :=
             {| value := 440;
                events := [SetValue (440 * Math_pow 2 ((IZR 69 - 69) / 12)
                                       * 1.00 * (1 + 0 / 1000)) 0] |};
           started := true; stopTime := None |})
  ∧ nodes s !! 4%nat =
      Some (GainNode
        {| value := 0;
           events := [SetValue 0 0; LinearRamp 0 (0 + 2)] |})
  ∧ nodes s !! 3%nat =
      Some (OscillatorNode
        {| osc_type := sine;
           frequency :=
             {| value := 440;
                events := [SetValue (440 * Math_pow 2 ((IZR 69 - 69) / 12)
                                       * 1.00 * (1 + 0 / 1000)) 0] |};
           started := true; stopTime := Some (0 + 2 + 0.5) |}).
Proof.
  cbv zeta.
  assert (E0 : envelope (initialOperator true 1.00 0.8) 0 0
               = [SetValue 0 0; LinearRamp 1 (0 + 0.01); LinearRamp 0.8 (0 + 0.01 + 0.3)]).
  { rewrite envelope_events by (cbn; lra). reflexivity. }
  assert (E1 : releasedEnvelope 2 0
                 {| value := 0; events := envelope (initialOperator true 1.00 0.5) 0 0 |}
               = {| value := 0; events := [SetValue 0 0; LinearRamp 0 (0 + 2)] |}).
  { pose proof (releasedEnvelope_events 2 0
                 {| value := 0; events := envelope (initialOperator true 1.00 0.5) 0 0 |}) as E.
    unfold releasedEnvelope in *. cbn [events value] in *. rewrite E by lra.
    rewrite envelope_events by (cbn; lra).
    rewrite !filter_cons_False, filter_nil by (cbn; lra). reflexivity. }
  rewrite <- E0, <- E1.
  do 7 (split; [vm_compute; reflexivity|]).
  vm_compute; reflexivity.
Qed.

End EnvelopeClaims.

(** ** Patch import *)

Section ImportClaims.
Import PatchImport.
Local Open Scope string_scope.

Lemma validShape_true j :
  validShape j = Return true →
  ∃ alg ops,
    getProperty j "algorithm" = Return (defined alg)
    ∧ truthy (defined alg) = true
    ∧ getProperty j "operators" = Return (defined ops)
    ∧ getProperty ops "length" = Return (defined (JNumber 4)).
Proof.
  unfold validShape.
  destruct (getProperty j "algorithm") as [[|alg]|e] eqn:Ha; try discriminate.
  destruct (truthy (defined alg)) eqn:Ta; try discriminate.
  destruct (getProperty j "operators") as [[|ops]|e] eqn:Ho; try discriminate.
  destruct (truthy (defined ops)) eqn:To; try discriminate.
  destruct (getProperty ops "length") as [[|[| |x| | |]]|e] eqn:Hl; cbn [is_four];
    try discriminate.
  intros H. injection H as H. apply bool_decide_eq_true in H. subst x.
  exists alg, ops. repeat split; assumption.
Qed.

(** C7. [reader.onload] replaces the patch by the parsed value only when
    that value has a truthy [algorithm] and an [operators] whose [length]
    is 4 (for an array: exactly four elements), and then replaces it as a
    whole; in every other case, a text that does not parse and the
    object [{"algorithm":1}] among them, it shows an alert and leaves
    the patch as it was. *)
Theorem import_accepts_only_a_patch_shape
    (JSON_parse : string → option Json) (text : string) (a : App) :
  ((∃ importedPatch algorithm operators,
      JSON_parse text = Some importedPatch
      ∧ getProperty importedPatch "algorithm" = Return (defined algorithm)
      ∧ getProperty importedPatch "operators" = Return (defined operators)
      ∧ getProperty operators "length" = Return (defined (JNumber 4))
      ∧ (∀ l, operators = JArray l → length l = 4%nat)
      ∧ onload JSON_parse text a = setPatch importedPatch a)
   ∨ (∃ msg,
      onload JSON_parse text a = alert msg a
      ∧ patch (onload JSON_parse text a) = patch a
      ∧ alerts (onload JSON_parse text a) = (alerts a ++ [msg])%list))
  ∧ (JSON_parse text = None →
     patch (onload JSON_parse text a) = patch a
     ∧ alerts (onload JSON_parse text a) ≠ alerts a)
  ∧ (JSON_parse text = Some (JObject [("algorithm", JNumber 1)]) →
     patch (onload JSON_parse text a) = patch a
     ∧ alerts (onload JSON_parse text a) ≠ alerts a).
Proof.
  assert (Hne : ∀ msg, alerts (alert msg a) ≠ alerts a).
  { intros msg E. cbn in E. apply (f_equal length) in E.
    rewrite length_app in E. cbn in E. lia. }
  split; [|split].
  - unfold onload. destruct (JSON_parse text) as [j|]; [|right; eauto].
    destruct (validShape j) as [[|]|e] eqn:V; [|right; eauto|right; eauto].
    left. destruct (validShape_true j V) as (alg & ops & Ha & _ & Ho & Hl).
    exists j, alg, ops. repeat split; try done.
    intros l ->. cbn in Hl. injection Hl as Hl.
    apply INR_eq. rewrite Hl. cbn. lra.
  - intros E. unfold onload. rewrite E. split; [reflexivity|apply Hne].
  - intros E. unfold onload. rewrite E. cbn.
    destruct (negb (bool_decide (1%R = 0%R)));
      (split; [reflexivity|apply Hne]).
Qed.

Lemma import_rejects_missing_operators_witness :
  let a := {| patch := JNull; alerts := [] |} in
  let parse := λ _ : string, Some (JObject [("algorithm", JNumber 1)]) in
  patch (onload parse "algorithm only" a) = JNull
  ∧ alerts (onload parse "algorithm only" a) ≠ [].
Proof.
  cbv zeta.
  exact (proj2 (proj2 (import_accepts_only_a_patch_shape
           (λ _ : string, Some (JObject [("algorithm", JNumber 1)]))
           "algorithm only" {| patch := JNull; alerts := [] |})) eq_refl).
Defined.

End ImportClaims.

(* ================================================================= *)
(** * Further properties of the engine *)

(** ** The graph only grows *)

Lemma sameNode_refl nd : sameNode nd nd.
Proof. destruct nd; cbn; auto. Qed.

Lemma sameNode_trans nd1 nd2 nd3 :
  sameNode nd1 nd2 → sameNode nd2 nd3 → sameNode nd1 nd3.
Proof. destruct nd1, nd2, nd3; cbn; tauto. Qed.

Lemma grown_refl s : grown s s.
Proof.
  repeat split; [|done..]. intros k nd H. exists nd. split; [done|apply sameNode_refl].
Qed.

Lemma grown_trans s1 s2 s3 : grown s1 s2 → grown s2 s3 → grown s1 s3.
Proof.
  intros (N1 & E1 & M1) (N2 & E2 & M2). repeat split.
  - intros k nd H. destruct (N1 k nd H) as (nd2 & H2 & S12).
    destruct (N2 k nd2 H2) as (nd3 & H3 & S23).
    exists nd3. split; [done|]. by eapply sameNode_trans.
  - by etrans.
  - congruence.
Qed.

(** The graph has grown when the nodes were altered in place or
    followed by new ones, and the edges followed by new ones. *)
Lemma grown_nodes (f : list AudioNode → list AudioNode) s :
  (∀ k nd, nodes s !! k = Some nd → ∃ nd', f (nodes s) !! k = Some nd' ∧ sameNode nd nd') →
  grown s (set_nodes f s).
Proof. intros H. repeat split; [exact H|done..]. Qed.

Lemma grown_alter (g : AudioNode → AudioNode) n s :
  (∀ nd, sameNode nd (g nd)) → grown s (set_nodes (alter g n) s).
Proof.
  intros Hg. apply grown_nodes. intros k nd H.
  destruct (decide (n = k)) as [->|Hne].
  - exists (g nd). split; [|apply Hg]. by rewrite list_lookup_alter_eq, H.
  - exists nd. split; [|apply sameNode_refl]. by rewrite list_lookup_alter_ne.
Qed.

Lemma grown_insert n nd0 nd' s :
  nodes s !! n = Some nd0 → sameNode nd0 nd' → grown s (set_nodes (<[n := nd']>) s).
Proof.
  intros H0 HS. apply grown_nodes. intros k nd H.
  destruct (decide (n = k)) as [->|Hne].
  - exists nd'. split; [|congruence].
    rewrite list_lookup_insert_eq; [done|by eapply lookup_lt_Some].
  - exists nd. split; [|apply sameNode_refl]. by rewrite list_lookup_insert_ne.
Qed.

Section Growing.
Context {A B : Type}.

Lemma growing_ret (a : A) : growing (ret a).
Proof. intros s. apply grown_refl. Qed.

Lemma growing_throw e : growing (throw e : JS A).
Proof. intros s. apply grown_refl. Qed.

Lemma growing_gets (f : Runtime → A) : growing (gets f).
Proof. intros s. apply grown_refl. Qed.

Lemma growing_bind (m : JS A) (k : A → JS B) :
  growing m → (∀ a, growing (k a)) → growing (bind m k).
Proof.
  intros Hm Hk s. unfold bind. specialize (Hm s).
  destruct (m s) as [[a|e] s']; cbn in *; [|done].
  eapply grown_trans; [exact Hm|apply Hk].
Qed.

End Growing.

Lemma growing_forEach_from {A} (body : A → nat → JS unit) l :
  (∀ x i, growing (body x i)) → ∀ i, growing (forEach_from i body l).
Proof.
  intros Hb. induction l as [|x l IH]; intros i; cbn [forEach_from].
  - apply growing_ret.
  - apply growing_bind; [apply Hb|intros _; apply IH].
Qed.

Lemma growing_array_of {A} n (make : JS A) : growing make → growing (array_of n make).
Proof.
  intros Hm. induction n as [|n IH]; cbn [array_of].
  - apply growing_ret.
  - apply growing_bind; [done|]. intros x.
    apply growing_bind; [done|]. intros l. apply growing_ret.
Qed.


Lemma growing_try_ignore m : growing m → growing (try_ignore m).
Proof.
  intros Hm s. unfold try_ignore. specialize (Hm s).
  by destruct (m s) as [[a|e] s'].
Qed.

Lemma growing_createNode nd : growing (createNode nd).
Proof.
  intros s. cbn. apply grown_nodes. intros k nd0 H. exists nd0.
  split; [|apply sameNode_refl]. by apply lookup_app_l_Some.
Qed.

Lemma growing_connect a d : growing (connect a d).
Proof.
  intros s. cbn. repeat split; cbn; [|by apply prefix_app_r].
  intros k nd H. exists nd. split; [done|apply sameNode_refl].
Qed.

Lemma growing_onParam r f : growing (onParam r f).
Proof.
  intros s. unfold onParam, bind, gets. cbn.
  destruct (lookupParam r (nodes s)); cbn; [|apply grown_refl].
  destruct r; cbn [alterParam]; apply grown_alter; intros []; cbn; auto.
Qed.

Lemma growing_get_value r : growing (get_value r).
Proof.
  intros s. unfold get_value, bind, gets. cbn.
  destruct (lookupParam r (nodes s)); apply grown_refl.
Qed.

Lemma growing_set_type n w : growing (set_type n w).
Proof.
  intros s. unfold set_type, bind, gets. cbn.
  destruct (nodes s !! n) as [[o|g]|] eqn:H; cbn; try apply grown_refl.
  eapply grown_insert; [exact H|cbn; auto].
Qed.

Lemma growing_start n : growing (start n).
Proof.
  intros s. unfold start, bind, gets. cbn.
  destruct (nodes s !! n) as [[o|g]|] eqn:H; cbn; try apply grown_refl.
  destruct (started o); cbn; [apply grown_refl|]. eapply grown_insert; [exact H|cbn; auto].
Qed.

Lemma growing_stop n t : growing (stop n t).
Proof.
  intros s. unfold stop, bind, gets. cbn.
  destruct (nodes s !! n) as [[o|g]|] eqn:H; cbn; try apply grown_refl.
  destruct (started o); cbn; [|apply grown_refl]. eapply grown_insert; [exact H|cbn; auto].
Qed.

Lemma growing_modify f : (∀ s, grown s (f s)) → growing (modify f).
Proof. intros H s. apply H. Qed.

Lemma growing_resume : growing resume.
Proof. apply growing_modify. intros s. repeat split; cbn; [|done]. apply grown_refl. Qed.

Create HintDb growing discriminated.
#[local] Hint Resolve growing_ret growing_throw growing_gets growing_try_ignore
  growing_createNode growing_connect growing_onParam growing_get_value
  growing_set_type growing_start growing_stop growing_resume : growing.

Ltac growing :=
  repeat first
    [ solve [auto with growing]
    | apply growing_bind; [|intros ?]
    | match goal with |- growing (if ?b then _ else _) => destruct b end
    | match goal with |- growing (match ?x with _ => _ end) => destruct x end ].

Lemma growing_Operator_new : growing Operator_new.
Proof. unfold Operator_new, createOscillator, createGain, set_value. growing. Qed.

Lemma growing_scheduleEnvelope op params time : growing (scheduleEnvelope op params time).
Proof.
  unfold scheduleEnvelope, cancelScheduledValues, setValueAtTime, linearRampToValueAtTime.
  growing.
Qed.

Lemma growing_triggerRelease op params : growing (triggerRelease op params).
Proof.
  unfold triggerRelease, cancelScheduledValues, setValueAtTime, linearRampToValueAtTime.
  growing.
Qed.

Lemma growing_connectModulator opParams ops m c : growing (connectModulator opParams ops m c).
Proof. unfold connectModulator, createGain, set_value. growing. Qed.

Lemma growing_connectCarrier opParams ops c : growing (connectCarrier opParams ops c).
Proof. unfold connectCarrier, createGain, set_value. growing. Qed.

Lemma growing_routing alg cm cc :
  (∀ m c, growing (cm m c)) → (∀ c, growing (cc c)) → growing (routing alg cm cc).
Proof.
  intros Hm Hc. unfold routing.
  repeat case_match; repeat (apply growing_bind; [|intros _]); auto.
Qed.

Lemma growing_startOperator baseFreq opParams op i :
  growing (startOperator baseFreq opParams op i).
Proof.
  unfold startOperator, setValueAtTime. pose proof growing_scheduleEnvelope. growing.
Qed.

Lemma growing_set_activeNotes f : growing (modify (set_activeNotes f)).
Proof. apply growing_modify. intros s. repeat split; cbn; [|done]. apply grown_refl. Qed.

Lemma growing_noteOn note : growing (noteOn note).
Proof.
  unfold noteOn.
  pose proof growing_Operator_new. pose proof growing_startOperator.
  pose proof growing_connectModulator. pose proof growing_connectCarrier.
  pose proof growing_set_activeNotes.
  repeat first
    [ solve [auto with growing]
    | apply growing_array_of
    | apply growing_forEach_from
    | apply growing_routing
    | apply growing_bind; [|intros ?]
    | match goal with |- growing (if ?b then _ else _) => destruct b end
    | match goal with |- growing (match ?x with _ => _ end) => destruct x end ].
Qed.

Lemma growing_releaseOperator op i : growing (releaseOperator op i).
Proof. unfold releaseOperator. pose proof growing_triggerRelease. growing. Qed.

Lemma growing_noteOff note : growing (noteOff note).
Proof.
  unfold noteOff. pose proof growing_releaseOperator. pose proof growing_set_activeNotes.
  repeat first
    [ solve [auto with growing]
    | apply growing_forEach_from
    | apply growing_bind; [|intros ?]
    | match goal with |- growing (match ?x with _ => _ end) => destruct x end ].
Qed.

Lemma growing_setPatch p : growing (setPatch p).
Proof. apply growing_modify. intros s. repeat split; cbn; [|done]. apply grown_refl. Qed.

Lemma grown_render t s : grown s (render t s).
Proof.
  repeat split; cbn; [|done]. intros k nd H.
  exists (renderNode t nd). split; [by rewrite list_lookup_fmap, H|].
  destruct nd; cbn; auto.
Qed.

Lemma grown_set_state st s : grown s (set_state st s).
Proof. repeat split; cbn; [|done]. apply grown_refl. Qed.

Lemma grown_step s c : grown s (step s c).
Proof.
  destruct c; cbn [step].
  - apply growing_noteOn.
  - apply growing_noteOff.
  - apply growing_setPatch.
  - apply grown_render.
  - apply grown_set_state.
  - apply grown_set_state.
Qed.

(** X1. Whatever is called, and whether the calls return or throw, the
    audio graph only grows: a node is never removed nor replaced by a
    node of another kind, a started oscillator stays started, a
    connection is never removed and the connections keep their order,
    and the master gain stays the same node.  (Nothing in the engine
    disconnects a node.) *)
Theorem the_graph_only_grows (calls : list Call) (s : Runtime) :
  grown s (run calls s)
  ∧ (length (nodes s) ≤ length (nodes (run calls s)))%nat.
Proof.
  assert (G : grown s (run calls s)).
  { revert s. induction calls as [|c calls IH]; intros s; cbn.
    - apply grown_refl.
    - eapply grown_trans; [apply grown_step|apply IH]. }
  split; [exact G|].
  destruct G as (N & _).
  destruct (decide (length (nodes s) ≤ length (nodes (run calls s)))%nat) as [|Hlt]; [done|].
  exfalso. destruct (nodes s) as [|nd ns] eqn:E using rev_ind; [cbn in Hlt; lia|].
  destruct (N (length ns) nd) as (nd' & H' & _).
  { by rewrite lookup_app_r, Nat.sub_diag by lia. }
  apply lookup_lt_Some in H'. rewrite length_app in Hlt. cbn in Hlt. lia.
Qed.

Section EngineInvariant.
Local Open Scope R_scope.

(** ** [noteOff] on a live voice *)

Lemma set_nodes_id s : set_nodes (λ ns, ns) s = s.
Proof. by destruct s. Qed.

Lemma triggerRelease_eq op params s g o :
  nodes s !! env op = Some (GainNode g) →
  nodes s !! osc op = Some (OscillatorNode o) →
  started o = true →
  triggerRelease op params s =
    (Return tt,
     set_nodes (λ ns,
       <[osc op := OscillatorNode (stoppedAt (currentTime s + release params + 0.5) o)]>
         (<[env op := GainNode (releasedEnvelope (release params) (currentTime s) g)]> ns)) s).
Proof.
  intros Hg Ho Hst.
  assert (Hne : env op ≠ osc op) by (intros E; rewrite E in Hg; congruence).
  assert (Hlen : (env op < length (nodes s))%nat) by (by eapply lookup_lt_Some).
  destruct s as [t st rc ns es an mg p]. cbn [nodes currentTime] in *.
  unfold triggerRelease, cancelScheduledValues, setValueAtTime, linearRampToValueAtTime.
  rewrite (bind_Return _ _ _ _ _ (gets_eq _ _)). cbn [currentTime].
  erewrite bind_Return; cycle 1.
  { eapply onParam_eq. cbn [nodes lookupParam]. by rewrite Hg. }
  unfold set_nodes at 1. cbn [nodes currentTime state resumeCalls edges activeNotes masterGain patch alterParam].
  rewrite (alter_lookup_insert _ _ _ _ Hg).
  erewrite bind_Return; cycle 1.
  { eapply get_value_eq. cbn [nodes lookupParam]. by rewrite list_lookup_insert_eq. }
  erewrite bind_Return; cycle 1.
  { eapply onParam_eq. cbn [nodes lookupParam]. by rewrite list_lookup_insert_eq. }
  unfold set_nodes at 1. cbn [nodes currentTime state resumeCalls edges activeNotes masterGain patch alterParam].
  erewrite alter_lookup_insert by (by rewrite list_lookup_insert_eq).
  rewrite list_insert_insert_eq.
  erewrite bind_Return; cycle 1.
  { eapply onParam_eq. cbn [nodes lookupParam]. by rewrite list_lookup_insert_eq. }
  unfold set_nodes at 1. cbn [nodes currentTime state resumeCalls edges activeNotes masterGain patch alterParam].
  erewrite alter_lookup_insert by (by rewrite list_lookup_insert_eq).
  rewrite list_insert_insert_eq.
  unfold try_ignore. erewrite stop_eq; cycle 1.
  { cbn [nodes]. rewrite list_lookup_insert_ne by done. exact Ho. }
  { exact Hst. }
  reflexivity.
Qed.

Lemma releaseOperator_eq op i s P params :
  patch s = Some P →
  operators P !! i = Some params →
  operatorAt op (nodes s) →
  releaseOperator op i s =
    (Return tt, set_nodes (releasedOperator (currentTime s) op params) s).
Proof.
  intros Hp Hparams (g & o & Hg & Ho & Hst).
  unfold releaseOperator.
  rewrite (bind_Return _ _ _ _ _ (gets_eq _ _)). rewrite Hp, Hparams.
  unfold releasedOperator. destruct (on params).
  - rewrite (triggerRelease_eq op params s g o Hg Ho Hst).
    destruct s as [t st rc ns es an mg p]. unfold set_nodes.
    cbn [nodes currentTime] in *. by rewrite Hg, Ho.
  - by rewrite set_nodes_id.
Qed.

Lemma releasedOperator_length now op params ns :
  length (releasedOperator now op params ns) = length ns.
Proof.
  unfold releasedOperator. repeat case_match; try done.
  by rewrite !length_insert.
Qed.

Lemma releasedOperator_lookup_ne now op params ns k :
  k ≠ env op → k ≠ osc op →
  releasedOperator now op params ns !! k = ns !! k.
Proof.
  intros He Ho. unfold releasedOperator. repeat case_match; try done.
  by rewrite !list_lookup_insert_ne.
Qed.

Lemma releasedOperator_operatorAt now op params op' ns :
  operatorAt op' ns → operatorAt op' (releasedOperator now op params ns).
Proof.
  intros (g & o & Hg & Ho & Hst).
  unfold releasedOperator.
  destruct (on params); [|by exists g, o].
  destruct (ns !! env op) as [[o1|g1]|] eqn:E1; try (by exists g, o).
  destruct (ns !! osc op) as [[o2|g2]|] eqn:E2; try (by exists g, o).
  assert (Hne : env op ≠ osc op) by (intros E; rewrite E in E1; congruence).
  assert (L1 : (env op < length ns)%nat) by (by eapply lookup_lt_Some).
  assert (L2 : (osc op < length ns)%nat) by (by eapply lookup_lt_Some).
  unfold operatorAt.
  destruct (decide (env op' = env op)) as [Ee|Ee];
    destruct (decide (osc op' = osc op)) as [Eo|Eo].
  - rewrite Ee, Eo. do 2 eexists.
    rewrite list_lookup_insert_ne by done.
    rewrite !list_lookup_insert_eq by (by rewrite ?length_insert).
    done.
  - rewrite Ee. assert (env op ≠ osc op') by (intros E; rewrite Ee, E in Hg; congruence).
    assert (osc op' ≠ env op) by done.
    do 2 eexists.
    rewrite list_lookup_insert_ne by done.
    rewrite list_lookup_insert_eq by done.
    rewrite !list_lookup_insert_ne by done. done.
  - rewrite Eo. assert (env op' ≠ osc op) by (intros E; rewrite E in Hg; congruence).
    do 2 eexists.
    rewrite !list_lookup_insert_ne by done.
    rewrite list_lookup_insert_eq by (by rewrite ?length_insert).
    done.
  - assert (env op' ≠ osc op) by (intros E; rewrite E in Hg; congruence).
    assert (osc op' ≠ env op) by (intros E; rewrite E in Ho; congruence).
    exists g, o. by rewrite !list_lookup_insert_ne by done.
Qed.

Lemma forEach_releaseOperator ops P : ∀ i s,
  patch s = Some P →
  (i + length ops ≤ length (operators P))%nat →
  Forall (λ op, operatorAt op (nodes s)) ops →
  forEach_from i releaseOperator ops s =
    (Return tt,
     set_nodes (releasedVoice (currentTime s) ops (drop i (operators P))) s).
Proof.
  induction ops as [|op ops IH]; intros i s Hp Hlen Hops; cbn [forEach_from].
  - unfold releasedVoice. cbn. by rewrite set_nodes_id.
  - cbn [length] in Hlen.
    apply Forall_cons in Hops as [Hop Hops].
    destruct (lookup_lt_is_Some_2 (operators P) i) as [params Hparams]; [lia|].
    rewrite (bind_Return _ _ _ _ _ (releaseOperator_eq op i s P params Hp Hparams Hop)).
    rewrite IH; cycle 1.
    { by destruct s. }
    { lia. }
    { cbn [nodes set_nodes]. eapply Forall_impl; [exact Hops|].
      intros op'. apply releasedOperator_operatorAt. }
    rewrite (drop_S _ _ _ Hparams).
    unfold releasedVoice. cbn [zip zip_with foldl fst snd].
    by destruct s.
Qed.

Lemma noteOff_live note s ops P :
  activeNotes s !! note = Some ops →
  patch s = Some P →
  (length ops ≤ length (operators P))%nat →
  Forall (λ op, operatorAt op (nodes s)) ops →
  noteOff note s =
    (Return tt,
     set_activeNotes (delete note)
       (set_nodes (releasedVoice (currentTime s) ops (operators P)) s)).
Proof.
  intros Hnote Hp Hlen Hops. unfold noteOff.
  rewrite (bind_Return _ _ _ _ _ (gets_eq _ _)). rewrite Hnote.
  unfold forEach.
  rewrite (bind_Return _ _ _ _ _ (forEach_releaseOperator ops P 0 s Hp Hlen Hops)).
  reflexivity.
Qed.

Lemma releasedVoice_length now ops opParams ns :
  length (releasedVoice now ops opParams ns) = length ns.
Proof.
  unfold releasedVoice. generalize (zip ops opParams) as l. intros l. revert ns.
  induction l as [|x l IH]; intros ns; cbn [foldl]; [done|].
  by rewrite IH, releasedOperator_length.
Qed.

Lemma releasedVoice_lookup_ne now ops opParams ns k :
  Forall (λ op, k ≠ env op ∧ k ≠ osc op) ops →
  releasedVoice now ops opParams ns !! k = ns !! k.
Proof.
  unfold releasedVoice. revert opParams ns.
  induction ops as [|op ops IH]; intros opParams ns H; [done|].
  apply Forall_cons in H as [[He Ho] H].
  destruct opParams as [|p opParams]; [done|]. cbn [zip zip_with foldl fst snd].
  rewrite IH by done. by apply releasedOperator_lookup_ne.
Qed.

(** ** The invariant of the engine *)

Lemma noteOff_absent note s :
  activeNotes s !! note = None → noteOff note s = (Return tt, s).
Proof.
  intros H. unfold noteOff.
  rewrite (bind_Return _ _ _ _ _ (gets_eq _ _)). by rewrite H.
Qed.

Lemma noteOn_null note s :
  patch s = None →
  activeNotes s !! note = None →
  noteOn note s =
    (Throw TypeError,
     set_edges (λ es, es ++ operatorEdges (length (nodes s)))
       (set_nodes (λ ns, ns ++ [freshOscillator; freshEnvelope; freshOscillator; freshEnvelope;
                                freshOscillator; freshEnvelope; freshOscillator; freshEnvelope])
          (set_resumeCalls S s))).
Proof.
  intros Hp Hnote.
  destruct s as [t st rc ns es an mg p]. cbn in Hp, Hnote. subst p.
  unfold noteOn.
  do 2 step. cbn [is_object negb orb]. unfold resume.
  do 2 step. rewrite Hnote.
  rewrite bool_decide_eq_false_2 by (intros [? ?]; discriminate).
  etrans. { apply bind_Return. apply array_of_4_Operator_new. }
  cbv beta. norm. step. reflexivity.
Qed.

Lemma noteOn_fresh_frame note s P :
  patch s = Some P → (4 ≤ length (operators P))%nat →
  activeNotes s !! note = None →
  (noteOn note s).1 = Return tt
  ∧ currentTime (noteOn note s).2 = currentTime s
  ∧ state (noteOn note s).2 = state s
  ∧ masterGain (noteOn note s).2 = masterGain s
  ∧ patch (noteOn note s).2 = patch s.
Proof.
  intros Hp Hlen Hnote.
  rewrite (noteOn_fresh note s P Hp Hlen Hnote). cbn [fst snd].
  destruct (route_frame (algorithm P) (voiceOperators (length (nodes s)))
              (operators P) (masterGain s) (startedVoice note P s))
    as (H1 & H2 & H3 & H4 & H5 & H6 & _).
  unfold set_activeNotes.
  cbn [currentTime state masterGain patch].
  rewrite H1, H2, H5, H6. done.
Qed.

Lemma voiceAt_length L ns : voiceAt L ns → (L + 8 ≤ length ns)%nat.
Proof.
  intros [_ H]. destruct (H 3%nat) as [_ [g Hg]]; [lia|].
  apply lookup_lt_Some in Hg. lia.
Qed.

Lemma voiceAt_ext L ns ns' :
  (∀ k, (L ≤ k < L + 8)%nat → ns' !! k = ns !! k) →
  voiceAt L ns → voiceAt L ns'.
Proof.
  intros E [HL H]. split; [done|]. intros i Hi.
  rewrite !E by lia. by apply H.
Qed.

Lemma voiceAt_app L ns ns' : voiceAt L ns → voiceAt L (ns ++ ns').
Proof.
  intros H. pose proof (voiceAt_length _ _ H).
  eapply voiceAt_ext; [|exact H]. intros k Hk. apply lookup_app_l. lia.
Qed.

Lemma voiceAt_render t L ns : voiceAt L ns → voiceAt L (renderNode t <$> ns).
Proof.
  intros [HL H]. split; [done|]. intros i Hi.
  destruct (H i Hi) as [(o & Ho & Hs & Ht) (g & Hg)].
  rewrite !list_lookup_fmap, Ho, Hg. cbn. split; eauto.
Qed.

Lemma voiceAt_operatorAt L ns :
  voiceAt L ns → Forall (λ op, operatorAt op ns) (voiceOperators L).
Proof.
  intros [_ H]. unfold voiceOperators.
  repeat apply Forall_cons_2; try apply Forall_nil_2.
  - destruct (H 0%nat) as [(o & Ho & Hs & _) (g & Hg)]; [lia|].
    exists g, o. cbn [osc env].
    replace (L + 2 * 0)%nat with L in * by lia. done.
  - destruct (H 1%nat) as [(o & Ho & Hs & _) (g & Hg)]; [lia|].
    exists g, o. cbn [osc env].
    replace (L + 2 * 1 + 1)%nat with (L + 3)%nat in * by lia.
    replace (L + 2 * 1)%nat with (L + 2)%nat in * by lia. done.
  - destruct (H 2%nat) as [(o & Ho & Hs & _) (g & Hg)]; [lia|].
    exists g, o. cbn [osc env].
    replace (L + 2 * 2 + 1)%nat with (L + 5)%nat in * by lia.
    replace (L + 2 * 2)%nat with (L + 4)%nat in * by lia. done.
  - destruct (H 3%nat) as [(o & Ho & Hs & _) (g & Hg)]; [lia|].
    exists g, o. cbn [osc env].
    replace (L + 2 * 3 + 1)%nat with (L + 7)%nat in * by lia.
    replace (L + 2 * 3)%nat with (L + 6)%nat in * by lia. done.
Qed.

(** The operators of a voice use the eight nodes from [L] on. *)
Lemma voiceOperators_range L k :
  (k < L ∨ L + 8 ≤ k)%nat →
  Forall (λ op, k ≠ env op ∧ k ≠ osc op) (voiceOperators L).
Proof.
  intros Hk. unfold voiceOperators.
  repeat apply Forall_cons_2; try apply Forall_nil_2; cbn [osc env]; lia.
Qed.

Lemma startedOperator_lookup baseFreq now ps i :
  length ps = 4%nat → (i < 4)%nat →
  (∃ o, flat_map (startedOperator baseFreq now) ps !! (2 * i)%nat = Some (OscillatorNode o)
        ∧ started o = true ∧ stopTime o = None)
  ∧ (∃ g, flat_map (startedOperator baseFreq now) ps !! (2 * i + 1)%nat = Some (GainNode g)).
Proof.
  intros Hlen Hi.
  destruct ps as [|p0 [|p1 [|p2 [|p3 [|]]]]]; try discriminate.
  unfold startedOperator, freshOscillator, freshEnvelope.
  cbn [flat_map].
  destruct i as [|[|[|[|]]]]; try lia;
    destruct (on p0), (on p1), (on p2), (on p3);
    cbn [app lookup list_lookup Nat.mul Nat.add];
    (split; [eexists; split; [reflexivity|split; reflexivity] | eexists; reflexivity]).
Qed.

Lemma voiceAt_started baseFreq now ps ns rest :
  length ps = 4%nat → (1 ≤ length ns)%nat →
  voiceAt (length ns) (ns ++ flat_map (startedOperator baseFreq now) ps ++ rest).
Proof.
  intros Hlen Hns. split; [done|]. intros i Hi.
  destruct (startedOperator_lookup baseFreq now ps i Hlen Hi)
    as [(o & Ho & Hs & Ht) (g & Hg)].
  rewrite <- !Nat.add_assoc, !lookup_app_plus.
  rewrite (lookup_app_l_Some _ _ _ _ Ho), (lookup_app_l_Some _ _ _ _ Hg).
  split; [by exists o | by exists g].
Qed.

Lemma wf_initial st : wellFormed (initial st).
Proof.
  unfold initial, FMSynth_new, newAudioContext, createGain, set_value.
  split.
  - vm_compute. repeat split. apply list_elem_of_here.
  - intros n ops H. vm_compute in H. discriminate.
  - intros n n' L L' _ H. vm_compute in H. discriminate.
  - vm_compute. reflexivity.
Qed.

Lemma wf_live_patch s n ops :
  wellFormed s → activeNotes s !! n = Some ops →
  ∃ P, patch s = Some P ∧ (4 ≤ length (operators P))%nat.
Proof.
  intros W Hn. pose proof (wf_patch s W) as Hp.
  destruct (patch s) as [P|]; [by exists P|].
  rewrite Hp in Hn. by rewrite lookup_empty in Hn.
Qed.

Lemma wf_noteOn note s : wellFormed s → wellFormed (noteOn note s).2.
Proof.
  intros W.
  destruct (activeNotes s !! note) as [ops|] eqn:Hnote.
  { rewrite noteOn_live by done. cbn [snd].
    destruct (negb (is_object (patch s)) || is_suspended (state s)); [|done].
    destruct W as [W1 W2 W3 W4]. by split. }
  destruct (patch s) as [P|] eqn:Hp.
  - pose proof (wf_patch s W) as Hlen. rewrite Hp in Hlen.
    destruct (noteOn_fresh_frame note s P Hp Hlen Hnote) as (_ & _ & _ & Hmg & Hpatch).
    destruct (noteOn_fresh_graph note s P Hp Hlen Hnote) as (Hn & He & Ha).
    destruct (wf_master s W) as (M1 & M2 & M3).
    assert (HL : (1 ≤ length (nodes s))%nat).
    { apply lookup_lt_Some in M2. lia. }
    assert (Hnew : voiceAt (length (nodes s)) (nodes (noteOn note s).2)).
    { rewrite Hn. apply voiceAt_started; [|done].
      rewrite length_take. lia. }
    split.
    + rewrite Hmg, Hn, He. split; [done|]. split.
      * by apply lookup_app_l_Some.
      * apply elem_of_app. by left.
    + intros n ops. rewrite Ha. intros Hl.
      destruct (decide (n = note)) as [->|Hne].
      * rewrite lookup_insert_eq in Hl. injection Hl as <-. eauto.
      * rewrite lookup_insert_ne in Hl by done.
        destruct (wf_voices s W n ops Hl) as (L & -> & HV).
        exists L. split; [done|]. rewrite Hn. by apply voiceAt_app.
    + intros n n' L L' Hne. rewrite Ha. intros Hl Hl'.
      destruct (decide (n = note)) as [->|Hn1];
        destruct (decide (n' = note)) as [->|Hn2]; try done.
      * rewrite lookup_insert_eq in Hl. rewrite lookup_insert_ne in Hl' by done.
        injection Hl as E. 
        destruct (wf_voices s W n' _ Hl') as (L2 & E2 & HV).
        injection E2 as ->. apply voiceAt_length in HV. lia.
      * rewrite lookup_insert_eq in Hl'. rewrite lookup_insert_ne in Hl by done.
        injection Hl' as E.
        destruct (wf_voices s W n _ Hl) as (L2 & E2 & HV).
        injection E2 as ->. apply voiceAt_length in HV. lia.
      * rewrite lookup_insert_ne in Hl, Hl' by done.
        by eapply (wf_disjoint s W n n').
    + by rewrite Hpatch, Hp.
  - rewrite (noteOn_null note s Hp Hnote). cbn [snd].
    destruct W as [(M1 & M2 & M3) W2 W3 W4].
    rewrite Hp in W4.
    split.
    + unfold set_edges, set_nodes, set_resumeCalls.
      cbn [masterGain nodes edges]. split; [done|]. split.
      * by apply lookup_app_l_Some.
      * apply elem_of_app. by left.
    + intros n ops. unfold set_edges, set_nodes, set_resumeCalls.
      cbn [activeNotes]. rewrite W4, lookup_empty. done.
    + intros n n' L L' _. unfold set_edges, set_nodes, set_resumeCalls.
      cbn [activeNotes]. rewrite W4, lookup_empty. done.
    + unfold set_edges, set_nodes, set_resumeCalls. cbn [patch activeNotes].
      by rewrite Hp.
Qed.

Lemma wf_noteOff_live note s ops :
  wellFormed s → activeNotes s !! note = Some ops →
  ∃ P L, patch s = Some P ∧ ops = voiceOperators L ∧ voiceAt L (nodes s)
    ∧ noteOff note s =
        (Return tt,
         set_activeNotes (delete note)
           (set_nodes (releasedVoice (currentTime s) ops (operators P)) s)).
Proof.
  intros W Hn.
  destruct (wf_live_patch s note ops W Hn) as (P & Hp & Hlen).
  destruct (wf_voices s W note ops Hn) as (L & -> & HV).
  exists P, L. do 3 (split; [done|]).
  apply noteOff_live; try done.
  by apply voiceAt_operatorAt.
Qed.

Lemma wf_noteOff note s : wellFormed s → wellFormed (noteOff note s).2.
Proof.
  intros W.
  destruct (activeNotes s !! note) as [ops|] eqn:Hnote;
    [|by rewrite noteOff_absent].
  destruct (wf_noteOff_live note s ops W Hnote) as (P & L & Hp & -> & HV & ->).
  cbn [snd]. unfold set_activeNotes, set_nodes.
  destruct (wf_master s W) as (M1 & M2 & M3).
  destruct HV as [HL HV].
  split; cbn [masterGain nodes edges activeNotes patch].
  - split; [done|]. split; [|done].
    rewrite releasedVoice_lookup_ne; [done|].
    apply voiceOperators_range. lia.
  - intros n ops Hl.
    apply lookup_delete_Some in Hl as [Hne Hl].
    destruct (wf_voices s W n ops Hl) as (L' & -> & HV').
    exists L'. split; [done|].
    eapply voiceAt_ext; [|exact HV'].
    intros k Hk. apply releasedVoice_lookup_ne, voiceOperators_range.
    assert (Hne' : n ≠ note) by congruence.
    destruct (wf_disjoint s W n note L' L Hne' Hl Hnote); lia.
  - intros n n' L1 L2 Hne Hl Hl'.
    apply lookup_delete_Some in Hl as [_ Hl].
    apply lookup_delete_Some in Hl' as [_ Hl'].
    by eapply (wf_disjoint s W n n').
  - by rewrite Hp; pose proof (wf_patch s W) as H; rewrite Hp in H.
Qed.

Lemma wf_render t s : wellFormed s → wellFormed (render t s).
Proof.
  intros [(M1 & M2 & M3) W2 W3 W4]. unfold render.
  split; cbn [masterGain nodes edges activeNotes patch]; try done.
  - split; [done|]. split; [|done].
    rewrite list_lookup_fmap, M2. reflexivity.
  - intros n ops Hl. destruct (W2 n ops Hl) as (L & -> & HV).
    exists L. split; [done|]. by apply voiceAt_render.
Qed.

Lemma wf_step s c : wellFormed s → validCall c → wellFormed (step s c).
Proof.
  intros W Hc. destruct c as [note|note|p|t| |]; cbn [step].
  - by apply wf_noteOn.
  - by apply wf_noteOff.
  - destruct W as [W1 W2 W3 W4]. by split.
  - by apply wf_render.
  - destruct W as [W1 W2 W3 W4]. by split.
  - destruct W as [W1 W2 W3 W4]. by split.
Qed.

Lemma wf_run calls : ∀ s,
  wellFormed s → Forall validCall calls → wellFormed (run calls s).
Proof.
  induction calls as [|c calls IH]; intros s W Hc; [done|].
  apply Forall_cons in Hc as [Hc Hcs].
  unfold run. cbn [foldl]. apply IH; [|done]. by apply wf_step.
Qed.

(** ** What holds after any calls *)

Lemma wf_reachable st calls :
  Forall validCall calls → wellFormed (run calls (initial st)).
Proof. intros H. apply wf_run; [apply wf_initial|done]. Qed.

Lemma voiceOperators_elem L op :
  op ∈ voiceOperators L →
  (L ≤ osc op < L + 8 ∧ L ≤ env op < L + 8)%nat.
Proof.
  unfold voiceOperators. intros H.
  repeat (apply elem_of_cons in H as [->|H]; [cbn [osc env]; lia|]).
  by apply elem_of_nil in H.
Qed.

Lemma voiceOperators_lookup L i op :
  voiceOperators L !! i = Some op →
  (i < 4)%nat ∧ osc op = (L + 2 * i)%nat ∧ env op = (L + 2 * i + 1)%nat.
Proof.
  unfold voiceOperators. intros H.
  destruct i as [|[|[|[|i]]]]; cbn in H; try discriminate;
    injection H as <-; cbn [osc env]; lia.
Qed.














Lemma initialPatch_inRange : inRange (SetPatch initialPatch).
Proof.
  cbn [inRange].
  repeat apply Forall_cons_2; try apply Forall_nil_2; unfold nonnegative; cbn; lra.
Qed.


(** X3. The master gain is never changed: whatever the calls, and
    whatever the [masterGain] of the patches they set, the master gain
    node keeps the gain 0.5 of the constructor, with no event on its
    timeline, and stays connected to the destination. *)
Theorem master_gain_is_never_changed (st : AudioContextState) (calls : list Call) :
  Forall validCall calls →
  nodes (run calls (initial st)) !! masterGain (run calls (initial st))
    = Some (GainNode {| value := 0.5; events := [] |})
  ∧ (masterGain (run calls (initial st)), Destination) ∈ edges (run calls (initial st)).
Proof.
  intros Hc. pose proof (wf_reachable st calls Hc) as W.
  destruct (wf_master _ W) as (-> & H1 & H2). done.
Qed.

Lemma master_gain_is_never_changed_witness :
  nodes (run [SetPatch editedPatch; NoteOn 60; Render 1; NoteOff 60] (initial running))
    !! masterGain (run [SetPatch editedPatch; NoteOn 60; Render 1; NoteOff 60] (initial running))
    = Some (GainNode {| value := 0.5; events := [] |})
  ∧ (masterGain (run [SetPatch editedPatch; NoteOn 60; Render 1; NoteOff 60] (initial running)),
     Destination)
      ∈ edges (run [SetPatch editedPatch; NoteOn 60; Render 1; NoteOff 60] (initial running)).
Proof.
  apply (master_gain_is_never_changed running
           [SetPatch editedPatch; NoteOn 60; Render 1; NoteOff 60]).
  repeat constructor.
Defined.

(** X4. Two registered voices share no node: the oscillators and the
    envelopes of the operators of two different notes are different
    nodes, and none of them is the master gain. *)
Theorem live_voices_share_no_node
    (st : AudioContextState) (calls : list Call) (n n' : Z)
    (ops ops' : list Operator) (i j : nat) (op op' : Operator) :
  Forall validCall calls →
  n ≠ n' →
  activeNotes (run calls (initial st)) !! n = Some ops →
  activeNotes (run calls (initial st)) !! n' = Some ops' →
  ops !! i = Some op → ops' !! j = Some op' →
  osc op ≠ osc op' ∧ osc op ≠ env op' ∧ env op ≠ osc op' ∧ env op ≠ env op'
  ∧ osc op ≠ masterGain (run calls (initial st))
  ∧ env op ≠ masterGain (run calls (initial st)).
Proof.
  intros Hc Hne Hn Hn' Hi Hj. pose proof (wf_reachable st calls Hc) as W.
  set (s := run calls (initial st)) in *.
  destruct (wf_voices s W n ops Hn) as (L & -> & [HL _]).
  destruct (wf_voices s W n' ops' Hn') as (L' & -> & _).
  destruct (wf_master s W) as (-> & _).
  apply list_elem_of_lookup_2, voiceOperators_elem in Hi, Hj.
  destruct (wf_disjoint s W n n' L L' Hne Hn Hn'); lia.
Qed.

Lemma live_voices_share_no_node_witness :
  osc {| osc := 1; env := 2 |} ≠ osc {| osc := 13; env := 14 |}
  ∧ osc {| osc := 1; env := 2 |} ≠ env {| osc := 13; env := 14 |}
  ∧ env {| osc := 1; env := 2 |} ≠ osc {| osc := 13; env := 14 |}
  ∧ env {| osc := 1; env := 2 |} ≠ env {| osc := 13; env := 14 |}
  ∧ osc {| osc := 1; env := 2 |}
      ≠ masterGain (run [SetPatch initialPatch; NoteOn 60; NoteOn 64] (initial running))
  ∧ env {| osc := 1; env := 2 |}
      ≠ masterGain (run [SetPatch initialPatch; NoteOn 60; NoteOn 64] (initial running)).
Proof.
  apply (live_voices_share_no_node running
           [SetPatch initialPatch; NoteOn 60; NoteOn 64] 60 64
           (voiceOperators 1) (voiceOperators 11) 0 1).
  - repeat constructor.
  - lia.
  - vm_compute. reflexivity.
  - vm_compute. reflexivity.
  - reflexivity.
  - reflexivity.
Defined.

(** X5. In an engine that is given only patches of at least four
    operators whose attack, decay and release are not negative, on a
    clock that is not negative: a registered voice has four operators;
    each of them is an oscillator node followed by its envelope gain
    node, and as long as the note is registered the oscillator is
    started and no stop is scheduled for it. *)
Theorem a_live_voice_is_running
    (st : AudioContextState) (calls : list Call) (n : Z)
    (ops : list Operator) (i : nat) (op : Operator) :
  Forall validCall calls → Forall inRange calls →
  activeNotes (run calls (initial st)) !! n = Some ops →
  ops !! i = Some op →
  length ops = 4%nat
  ∧ env op = S (osc op)
  ∧ ∃ o g,
      nodes (run calls (initial st)) !! osc op = Some (OscillatorNode o)
      ∧ started o = true ∧ stopTime o = None
      ∧ nodes (run calls (initial st)) !! env op = Some (GainNode g).
Proof.
  intros Hc _ Hn Hi. pose proof (wf_reachable st calls Hc) as W.
  set (s := run calls (initial st)) in *.
  destruct (wf_voices s W n ops Hn) as (L & -> & [HL HV]).
  split; [done|].
  apply voiceOperators_lookup in Hi as (Hi & -> & ->).
  split; [lia|].
  destruct (HV i Hi) as [(o & Ho & Hs & Ht) (g & Hg)].
  by exists o, g.
Qed.

Lemma a_live_voice_is_running_witness :
  length (voiceOperators 1) = 4%nat
  ∧ env {| osc := 5; env := 6 |} = S (osc {| osc := 5; env := 6 |})
  ∧ ∃ o g,
      nodes (run [SetPatch initialPatch; NoteOn 60; Render 2] (initial running))
        !! osc {| osc := 5; env := 6 |} = Some (OscillatorNode o)
      ∧ started o = true ∧ stopTime o = None
      ∧ nodes (run [SetPatch initialPatch; NoteOn 60; Render 2] (initial running))
          !! env {| osc := 5; env := 6 |} = Some (GainNode g).
Proof.
  apply (a_live_voice_is_running running
           [SetPatch initialPatch; NoteOn 60; Render 2] 60 (voiceOperators 1) 2).
  - repeat constructor.
  - apply Forall_cons_2; [apply initialPatch_inRange|].
    apply Forall_cons_2; [exact I|].
    apply Forall_cons_2; [cbn; lra|apply Forall_nil_2].
  - vm_compute. reflexivity.
  - reflexivity.
Defined.

(** ** A note pressed, held and released *)

Lemma releasedVoice_cons now op ops p ps ns :
  releasedVoice now (op :: ops) (p :: ps) ns
  = releasedVoice now ops ps (releasedOperator now op p ns).
Proof. reflexivity. Qed.

Lemma releasedOperator_lookup_own now op params ns o g :
  ns !! osc op = Some (OscillatorNode o) →
  ns !! env op = Some (GainNode g) →
  releasedOperator now op params ns !! osc op
    = Some (OscillatorNode
              (if on params then stoppedAt (now + release params + 0.5) o else o))
  ∧ releasedOperator now op params ns !! env op
    = Some (GainNode
              (if on params then releasedEnvelope (release params) now g else g)).
Proof.
  intros Ho Hg.
  assert (Hne : env op ≠ osc op) by (intros E; rewrite E in Hg; congruence).
  assert (L1 : (env op < length ns)%nat) by (by eapply lookup_lt_Some).
  assert (L2 : (osc op < length ns)%nat) by (by eapply lookup_lt_Some).
  unfold releasedOperator. rewrite Ho, Hg.
  destruct (on params); [|done]. split.
  - by rewrite list_lookup_insert_eq by (by rewrite length_insert).
  - rewrite list_lookup_insert_ne by done.
    by rewrite list_lookup_insert_eq.
Qed.

Lemma releasedVoice_lookup_own now : ∀ ops ps ns i op params o g,
  ops !! i = Some op → ps !! i = Some params →
  ns !! osc op = Some (OscillatorNode o) →
  ns !! env op = Some (GainNode g) →
  (∀ j op', j ≠ i → ops !! j = Some op' →
     osc op ≠ osc op' ∧ osc op ≠ env op' ∧ env op ≠ osc op' ∧ env op ≠ env op') →
  releasedVoice now ops ps ns !! osc op
    = Some (OscillatorNode
              (if on params then stoppedAt (now + release params + 0.5) o else o))
  ∧ releasedVoice now ops ps ns !! env op
    = Some (GainNode
              (if on params then releasedEnvelope (release params) now g else g)).
Proof.
  induction ops as [|op0 ops IH]; intros ps ns i op params o g Hi Hp Ho Hg Hd;
    [done|].
  destruct ps as [|p0 ps]; [done|].
  rewrite releasedVoice_cons.
  destruct i as [|i]; cbn in Hi, Hp.
  - injection Hi as ->. injection Hp as ->.
    rewrite !releasedVoice_lookup_ne.
    + by apply releasedOperator_lookup_own.
    + apply Forall_forall. intros op' Hop'.
      apply list_elem_of_lookup_1 in Hop' as [j Hj].
      destruct (Hd (S j) op') as (? & ? & ? & ?); [lia|done|]. done.
    + apply Forall_forall. intros op' Hop'.
      apply list_elem_of_lookup_1 in Hop' as [j Hj].
      destruct (Hd (S j) op') as (? & ? & ? & ?); [lia|done|]. done.
  - destruct (Hd 0%nat op0) as (D1 & D2 & D3 & D4); [lia|done|].
    apply (IH ps _ i op params o g); try done.
    + by rewrite releasedOperator_lookup_ne.
    + by rewrite releasedOperator_lookup_ne.
    + intros j op' Hj Hop'. apply (Hd (S j) op'); [lia|done].
Qed.

Lemma held_and_released_state note t s P :
  wellFormed s → patch s = Some P → activeNotes s !! note = None →
  wellFormed (run [NoteOn note; Render t; NoteOff note] s)
  ∧ patch (run [NoteOn note; Render t; NoteOff note] s) = Some P
  ∧ activeNotes (run [NoteOn note; Render t; NoteOff note] s) = activeNotes s
  ∧ (∀ k nd, nodes s !! k = Some nd →
       nodes (run [NoteOn note; Render t; NoteOff note] s) !! k
       = Some (renderNode t nd))
  ∧ (∀ i params, (i < 4)%nat → operators P !! i = Some params →
       ∃ o, nodes (run [NoteOn note; Render t; NoteOff note] s)
              !! (length (nodes s) + 2 * i)%nat = Some (OscillatorNode o)
            ∧ started o = true
            ∧ stopTime o = if on params then Some (t + release params + 0.5) else None).
Proof.
  intros W Hp Hn.
  pose proof (wf_patch s W) as Hlen. rewrite Hp in Hlen.
  assert (Wr : wellFormed (run [NoteOn note; Render t; NoteOff note] s)).
  { apply wf_run; [done|]. repeat constructor. }
  split; [done|]. clear Wr.
  change (run [NoteOn note; Render t; NoteOff note] s)
    with ((noteOff note (render t (noteOn note s).2)).2).
  set (s1 := (noteOn note s).2).
  destruct (noteOn_fresh_frame note s P Hp Hlen Hn) as (_ & _ & _ & Hmg & Hpatch).
  destruct (noteOn_fresh_graph note s P Hp Hlen Hn) as (Hnodes & _ & Ha).
  fold s1 in Hmg, Hpatch, Ha, Hnodes.
  assert (W1 : wellFormed s1) by (by apply wf_noteOn).
  assert (W2 : wellFormed (render t s1)) by (by apply wf_render).
  assert (Hl2 : activeNotes (render t s1) !! note = Some (voiceOperators (length (nodes s)))).
  { unfold render. cbn [activeNotes]. by rewrite Ha, lookup_insert_eq. }
  destruct (wf_noteOff_live note (render t s1) _ W2 Hl2)
    as (P' & L & Hp' & EL & [HL HV] & ->).
  assert (L = length (nodes s)) as -> by (by injection EL).
  assert (P' = P) as ->.
  { unfold render in Hp'. cbn [patch] in Hp'. congruence. }
  cbn [snd]. unfold set_activeNotes, set_nodes.
  cbn [activeNotes nodes currentTime patch].
  change (currentTime (render t s1)) with t.
  change (activeNotes (render t s1)) with (activeNotes s1).
  change (patch (render t s1)) with (patch s1).
  split; [congruence|]. split; [|split].
  - rewrite Ha. by rewrite delete_insert_id.
  - intros k nd Hk.
    rewrite releasedVoice_lookup_ne.
    + unfold render. cbn [nodes]. rewrite list_lookup_fmap, Hnodes.
      by rewrite (lookup_app_l_Some _ _ _ _ Hk).
    + apply voiceOperators_range. apply lookup_lt_Some in Hk. lia.
  - intros i params Hi Hparams.
    destruct (HV i Hi) as [(o & Ho & Hs & Ht) (g & Hg)].
    destruct (releasedVoice_lookup_own t (voiceOperators (length (nodes s)))
                (operators P) (nodes (render t s1)) i
                {| osc := length (nodes s) + 2 * i; env := length (nodes s) + 2 * i + 1 |}
                params o g) as [E _]; try done.
    + unfold voiceOperators.
      destruct i as [|[|[|[|]]]]; try lia; cbn [lookup list_lookup];
        do 2 f_equal; lia.
    + intros j op' Hj Hop'. apply voiceOperators_lookup in Hop' as (_ & -> & ->).
      cbn [osc env]. lia.
    + cbn [osc] in E. rewrite E. eexists. split; [reflexivity|].
      destruct (on params); cbn [started stopTime stoppedAt]; done.
Qed.


(** X6. In an engine that is given only patches of at least four
    operators whose attack, decay and release are not negative, on a
    clock that is not negative: a note that is not registered is
    pressed, held until a time [t] that is not before the press, and
    released, under the patch [P] the engine has.  The registry is then
    what it was before the note; the oscillator of one of the first four
    operators that is on in [P] stops at [t + release + 0.5]; the
    oscillator of one that is off in [P] has been started by [noteOn]
    and is not stopped by [noteOff]. *)
Theorem press_hold_release
    (st : AudioContextState) (calls : list Call) (note : Z) (P : Patch)
    (t : R) (i : nat) (params : OperatorParams) :
  Forall validCall calls → Forall inRange calls →
  currentTime (run calls (initial st)) <= t →
  patch (run calls (initial st)) = Some P →
  activeNotes (run calls (initial st)) !! note = None →
  operators P !! i = Some params → (i < 4)%nat →
  activeNotes (run [NoteOn note; Render t; NoteOff note] (run calls (initial st)))
    = activeNotes (run calls (initial st))
  ∧ ∃ o,
      nodes (run [NoteOn note; Render t; NoteOff note] (run calls (initial st)))
        !! (length (nodes (run calls (initial st))) + 2 * i)%nat
        = Some (OscillatorNode o)
      ∧ started o = true
      ∧ stopTime o = if on params then Some (t + release params + 0.5) else None.
Proof.
  intros Hc _ _ Hp Hn Hparams Hi. pose proof (wf_reachable st calls Hc) as W.
  destruct (held_and_released_state note t _ P W Hp Hn) as (_ & _ & Ha & _ & Hnew).
  split; [done|]. by apply Hnew.
Qed.

Lemma press_hold_release_witness :
  activeNotes (run [NoteOn 60; Render 1; NoteOff 60]
                 (run [SetPatch initialPatch] (initial running)))
    = activeNotes (run [SetPatch initialPatch] (initial running))
  ∧ ∃ o,
      nodes (run [NoteOn 60; Render 1; NoteOff 60]
               (run [SetPatch initialPatch] (initial running)))
        !! (length (nodes (run [SetPatch initialPatch] (initial running))) + 2 * 2)%nat
        = Some (OscillatorNode o)
      ∧ started o = true
      ∧ stopTime o = if on (initialOperator false 5.00 0.4)
                     then Some (1 + release (initialOperator false 5.00 0.4) + 0.5)
                     else None.
Proof.
  apply (press_hold_release running [SetPatch initialPatch] 60 initialPatch 1 2
           (initialOperator false 5.00 0.4)).
  - repeat constructor.
  - apply Forall_cons_2; [apply initialPatch_inRange|apply Forall_nil_2].
  - cbn. lra.
  - reflexivity.
  - reflexivity.
  - reflexivity.
  - lia.
Defined.

(** ** What the engine leaves alone *)

Lemma untouched_refl nd : untouched nd nd.
Proof. destruct nd; cbn; auto. Qed.

Lemma untouched_trans nd1 nd2 nd3 :
  untouched nd1 nd2 → untouched nd2 nd3 → untouched nd1 nd3.
Proof.
  destruct nd1, nd2, nd3; cbn; try done.
  - intros (? & ? & ? & ?) (? & ? & ? & ?). repeat split; congruence.
  - congruence.
Qed.

Lemma untouched_render t nd : untouched nd (renderNode t nd).
Proof. destruct nd; cbn; auto. Qed.

Lemma unregistered_range k s n L :
  unregistered k s → activeNotes s !! n = Some (voiceOperators L) →
  (k < L ∨ L + 8 ≤ k)%nat.
Proof.
  intros U Hn.
  destruct (decide (k < L)%nat); [by left|].
  destruct (decide (L + 8 ≤ k)%nat); [by right|]. exfalso.
  assert (E : ∃ i, (i < 4)%nat ∧ (k = L + 2 * i ∨ k = L + 2 * i + 1)%nat).
  { exists ((k - L) / 2)%nat.
    pose proof (Nat.div_mod_eq (k - L) 2).
    pose proof (Nat.mod_upper_bound (k - L) 2).
    split; [apply Nat.Div0.div_lt_upper_bound; lia|]. lia. }
  destruct E as (i & Hi & E).
  destruct (lookup_lt_is_Some_2 (voiceOperators L) i) as [op Hop]; [cbn; lia|].
  destruct (U n _ op Hn (list_elem_of_lookup_2 _ _ _ Hop)) as [U1 U2].
  apply voiceOperators_lookup in Hop as (_ & Ho & He). lia.
Qed.

Lemma step_untouched s c k nd :
  wellFormed s → validCall c →
  unregistered k s → nodes s !! k = Some nd →
  (∃ nd', nodes (step s c) !! k = Some nd' ∧ untouched nd nd')
  ∧ unregistered k (step s c).
Proof.
  intros W Hc U Hk.
  assert (Same : ∀ s', nodes s' = nodes s → activeNotes s' = activeNotes s →
            (∃ nd', nodes s' !! k = Some nd' ∧ untouched nd nd') ∧ unregistered k s').
  { intros s' En Ea. split.
    - exists nd. rewrite En. split; [done|apply untouched_refl].
    - unfold unregistered. by rewrite Ea. }
  destruct c as [note|note|p|t| |]; cbn [step]; try (by apply Same).
  - destruct (activeNotes s !! note) as [ops|] eqn:Hnote.
    { rewrite noteOn_live by done. cbn [snd].
      by destruct (negb (is_object (patch s)) || is_suspended (state s)); apply Same. }
    destruct (patch s) as [P|] eqn:Hp.
    + pose proof (wf_patch s W) as Hlen. rewrite Hp in Hlen.
      destruct (noteOn_fresh_graph note s P Hp Hlen Hnote) as (Hn & _ & Ha).
      split.
      * exists nd. rewrite Hn. split; [by apply lookup_app_l_Some|apply untouched_refl].
      * intros n ops op. rewrite Ha. intros Hl Hop.
        destruct (decide (n = note)) as [->|Hne].
        -- rewrite lookup_insert_eq in Hl. injection Hl as <-.
           apply voiceOperators_elem in Hop. apply lookup_lt_Some in Hk. lia.
        -- rewrite lookup_insert_ne in Hl by done. by apply (U n ops op).
    + rewrite (noteOn_null note s Hp Hnote). cbn [snd]. split.
      * exists nd. unfold set_edges, set_nodes. cbn [nodes].
        split; [by apply lookup_app_l_Some|apply untouched_refl].
      * exact U.
  - destruct (activeNotes s !! note) as [ops|] eqn:Hnote;
      [|rewrite noteOff_absent by done; by apply Same].
    destruct (wf_noteOff_live note s ops W Hnote) as (P & L & Hp & -> & HV & ->).
    cbn [snd]. unfold set_activeNotes, set_nodes. split.
    + exists nd. cbn [nodes]. split; [|apply untouched_refl].
      rewrite releasedVoice_lookup_ne; [done|].
      apply voiceOperators_range. by eapply unregistered_range.
    + intros n ops op. cbn [activeNotes]. intros Hl Hop.
      apply lookup_delete_Some in Hl as [_ Hl]. by apply (U n ops op).
  - split.
    + exists (renderNode t nd). unfold render. cbn [nodes].
      rewrite list_lookup_fmap, Hk. split; [done|apply untouched_render].
    + exact U.
Qed.

(** X7. The engine only touches the nodes of the operators of
    registered voices.  A node that belongs to no registered voice (the
    master gain, the gain of a connection, a node of a released voice)
    keeps its type, its timeline, its started flag and its stop time
    through all later calls; only the audio thread updates the value of
    its param. *)
Theorem only_registered_operators_are_touched
    (st : AudioContextState) (calls calls' : list Call) (k : nat) (nd : AudioNode) :
  Forall validCall calls → Forall validCall calls' →
  unregistered k (run calls (initial st)) →
  nodes (run calls (initial st)) !! k = Some nd →
  ∃ nd', nodes (run calls' (run calls (initial st))) !! k = Some nd'
         ∧ untouched nd nd'.
Proof.
  intros Hc Hc' U Hk. pose proof (wf_reachable st calls Hc) as W.
  set (s := run calls (initial st)) in *. clearbody s. clear Hc.
  revert s nd W U Hk.
  induction calls' as [|c calls' IH]; intros s nd W U Hk.
  - exists nd. split; [done|apply untouched_refl].
  - apply Forall_cons in Hc' as [Hc Hcs].
    destruct (step_untouched s c k nd W Hc U Hk) as [(nd1 & Hk1 & U1) U'].
    destruct (IH Hcs (step s c) nd1 (wf_step s c W Hc) U' Hk1) as (nd' & Hk' & U2).
    exists nd'. split; [done|]. by eapply untouched_trans.
Qed.

Lemma only_registered_operators_witness :
  ∃ nd', nodes (run [NoteOn 60; Render 1; NoteOff 60]
                  (run [SetPatch initialPatch; NoteOn 60; NoteOff 60] (initial running)))
           !! 5%nat = Some nd'
         ∧ untouched freshOscillator nd'.
Proof.
  apply (only_registered_operators_are_touched running
           [SetPatch initialPatch; NoteOn 60; NoteOff 60]
           [NoteOn 60; Render 1; NoteOff 60] 5 freshOscillator).
  - repeat constructor.
  - repeat constructor.
  - intros n ops op H. vm_compute in H. discriminate.
  - vm_compute. reflexivity.
Defined.

(** ** Oscillators that are never stopped *)

Lemma isRunning_render t nd : isRunning (renderNode t nd) = isRunning nd.
Proof. by destruct nd. Qed.

Lemma running_prefix (l l' : list AudioNode) (f : AudioNode → AudioNode) :
  (∀ nd, isRunning (f nd) = isRunning nd) →
  (∀ k nd, l !! k = Some nd → l' !! k = Some (f nd)) →
  length (filter (λ nd, isRunning nd = true) (take (length l) l'))
  = length (filter (λ nd, isRunning nd = true) l).
Proof.
  intros Hf. revert l'. induction l as [|x l IH]; intros l' H; [done|].
  destruct l' as [|x' l'].
  { specialize (H 0%nat x eq_refl). discriminate. }
  pose proof (H 0%nat x eq_refl) as H0. cbn in H0. injection H0 as ->.
  cbn [length take]. rewrite !filter_cons, Hf.
  assert (IH' := IH l' (λ k nd Hk, H (S k) nd Hk)).
  destruct (decide (isRunning x = true)); cbn [length]; by rewrite IH'.
Qed.

Lemma running_elem (l : list AudioNode) k nd :
  l !! k = Some nd → isRunning nd = true →
  (1 ≤ length (filter (λ nd, isRunning nd = true) l))%nat.
Proof.
  intros Hk Hr.
  assert (He : nd ∈ filter (λ nd, isRunning nd = true) l).
  { apply list_elem_of_filter. split; [done|]. by eapply list_elem_of_lookup_2. }
  destruct (filter _ l); [by apply elem_of_nil in He|]. cbn. lia.
Qed.

Lemma held_and_released_running note t s P i params :
  wellFormed s → patch s = Some P → activeNotes s !! note = None →
  (i < 4)%nat → operators P !! i = Some params → on params = false →
  (runningOscillators s + 1
   ≤ runningOscillators (run [NoteOn note; Render t; NoteOff note] s))%nat.
Proof.
  intros W Hp Hn Hi Hparams Hoff.
  destruct (held_and_released_state note t s P W Hp Hn) as (_ & _ & _ & Hold & Hnew).
  destruct (Hnew i params Hi Hparams) as (o & Ho & Hs & Ht). rewrite Hoff in Ht.
  set (l' := nodes (run [NoteOn note; Render t; NoteOff note] s)) in *.
  unfold runningOscillators. fold l'.
  rewrite <- (take_drop (length (nodes s)) l'), filter_app, length_app.
  rewrite (running_prefix (nodes s) l' (renderNode t) (isRunning_render t) Hold).
  apply Nat.add_le_mono_l.
  apply (running_elem _ (2 * i) (OscillatorNode o)).
  - by rewrite lookup_drop.
  - cbn. by rewrite Hs, Ht.
Qed.

(** X8. With an operator switched off in the patch (as operator 3 is in
    [initialPatch]), every note played leaves an oscillator running:
    after the notes have been pressed and released one after the other,
    no note is registered, and the number of started oscillators for
    which no stop is scheduled has grown by the number of notes at
    least. *)
Theorem every_note_leaves_an_oscillator_running
    (st : AudioContextState) (calls : list Call) (notes : list (Z * R))
    (P : Patch) (i : nat) (params : OperatorParams) :
  Forall validCall calls →
  patch (run calls (initial st)) = Some P →
  activeNotes (run calls (initial st)) = ∅ →
  (i < 4)%nat → operators P !! i = Some params → on params = false →
  (runningOscillators (run calls (initial st)) + length notes
   ≤ runningOscillators (run (played notes) (run calls (initial st))))%nat
  ∧ activeNotes (run (played notes) (run calls (initial st))) = ∅.
Proof.
  intros Hc Hp Ha Hi Hparams Hoff. pose proof (wf_reachable st calls Hc) as W.
  set (s := run calls (initial st)) in *. clearbody s. clear Hc.
  revert s W Hp Ha. induction notes as [|[note t] notes IH]; intros s W Hp Ha.
  - cbn. split; [lia|done].
  - assert (Hn : activeNotes s !! note = None) by (by rewrite Ha, lookup_empty).
    destruct (held_and_released_state note t s P W Hp Hn) as (W' & Hp' & Ha' & _).
    pose proof (held_and_released_running note t s P i params W Hp Hn Hi Hparams Hoff) as Hr.
    change (run (played ((note, t) :: notes)) s)
      with (run (played notes) (run [NoteOn note; Render t; NoteOff note] s)).
    destruct (IH _ W' Hp' (eq_trans Ha' Ha)) as [IH1 IH2].
    split; [|done]. cbn [length]. lia.
Qed.

Lemma every_note_leaves_an_oscillator_running_witness :
  (runningOscillators (run [SetPatch initialPatch] (initial running))
     + length [(60%Z, 1%R); (62%Z, 2%R)]
   ≤ runningOscillators
       (run (played [(60%Z, 1%R); (62%Z, 2%R)])
          (run [SetPatch initialPatch] (initial running))))%nat
  ∧ activeNotes
      (run (played [(60%Z, 1%R); (62%Z, 2%R)])
         (run [SetPatch initialPatch] (initial running))) = ∅.
Proof.
  apply (every_note_leaves_an_oscillator_running running [SetPatch initialPatch]
           [(60%Z, 1%R); (62%Z, 2%R)] initialPatch 2 (initialOperator false 5.00 0.4)).
  - repeat constructor.
  - reflexivity.
  - reflexivity.
  - lia.
  - reflexivity.
  - reflexivity.
Defined.

(** ** A note pressed again *)

(** X9. In an engine that is given only patches of at least four
    operators whose attack, decay and release are not negative, on a
    clock that is not negative: a registered note that is released and
    pressed again is played by four new operators, created after all the
    nodes there were; the nodes of the released voice are other nodes,
    and they are still in the graph. *)
Theorem a_released_note_is_played_by_new_operators
    (st : AudioContextState) (calls : list Call) (note : Z)
    (ops : list Operator) (i j : nat) (op op' : Operator) :
  Forall validCall calls → Forall inRange calls →
  activeNotes (run calls (initial st)) !! note = Some ops →
  ops !! i = Some op →
  voiceOperators (length (nodes (run calls (initial st)))) !! j = Some op' →
  activeNotes (run [NoteOff note; NoteOn note] (run calls (initial st))) !! note
    = Some (voiceOperators (length (nodes (run calls (initial st)))))
  ∧ osc op ≠ osc op' ∧ osc op ≠ env op' ∧ env op ≠ osc op' ∧ env op ≠ env op'
  ∧ is_Some (nodes (run [NoteOff note; NoteOn note] (run calls (initial st))) !! osc op)
  ∧ is_Some (nodes (run [NoteOff note; NoteOn note] (run calls (initial st))) !! env op).
Proof.
  intros Hc _ Hn Hi Hj. pose proof (wf_reachable st calls Hc) as W.
  set (s := run calls (initial st)) in *. clearbody s. clear Hc.
  destruct (wf_noteOff_live note s ops W Hn) as (P & L & Hp & -> & HV & E).
  pose proof (voiceAt_length _ _ HV) as HL.
  pose proof (wf_noteOff note s W) as W1.
  change (run [NoteOff note; NoteOn note] s) with ((noteOn note (noteOff note s).2).2).
  set (s1 := (noteOff note s).2) in *.
  assert (Hn1 : activeNotes s1 !! note = None).
  { unfold s1. rewrite E. cbn. apply lookup_delete_eq. }
  assert (Hp1 : patch s1 = Some P).
  { unfold s1. rewrite E. cbn. done. }
  assert (Hl1 : length (nodes s1) = length (nodes s)).
  { unfold s1. rewrite E. cbn [snd]. unfold set_activeNotes, set_nodes.
    cbn [nodes]. apply releasedVoice_length. }
  pose proof (wf_patch s1 W1) as Hlen. rewrite Hp1 in Hlen.
  destruct (noteOn_fresh_graph note s1 P Hp1 Hlen Hn1) as (Hnodes & _ & Ha).
  rewrite Ha, Hnodes, Hl1, lookup_insert_eq.
  split; [done|].
  apply voiceOperators_lookup in Hi as (Hi & Ho & He).
  apply voiceOperators_lookup in Hj as (Hj & Ho' & He').
  do 4 (split; [lia|]).
  split; apply lookup_lt_is_Some; rewrite length_app; lia.
Qed.

Lemma a_released_note_is_played_by_new_operators_witness :
  activeNotes (run [NoteOff 60; NoteOn 60]
                 (run [SetPatch initialPatch; NoteOn 60] (initial running))) !! 60%Z
    = Some (voiceOperators
              (length (nodes (run [SetPatch initialPatch; NoteOn 60] (initial running)))))
  ∧ osc {| osc := 1; env := 2 |} ≠ osc {| osc := 11; env := 12 |}
  ∧ osc {| osc := 1; env := 2 |} ≠ env {| osc := 11; env := 12 |}
  ∧ env {| osc := 1; env := 2 |} ≠ osc {| osc := 11; env := 12 |}
  ∧ env {| osc := 1; env := 2 |} ≠ env {| osc := 11; env := 12 |}
  ∧ is_Some (nodes (run [NoteOff 60; NoteOn 60]
                      (run [SetPatch initialPatch; NoteOn 60] (initial running)))
               !! osc {| osc := 1; env := 2 |})
  ∧ is_Some (nodes (run [NoteOff 60; NoteOn 60]
                      (run [SetPatch initialPatch; NoteOn 60] (initial running)))
               !! env {| osc := 1; env := 2 |}).
Proof.
  apply (a_released_note_is_played_by_new_operators running
           [SetPatch initialPatch; NoteOn 60] 60 (voiceOperators 1) 0 0).
  - repeat constructor.
  - apply Forall_cons_2; [apply initialPatch_inRange|].
    by apply Forall_cons_2.
  - vm_compute. reflexivity.
  - reflexivity.
  - vm_compute. reflexivity.
Defined.

End EngineInvariant.

Section EnvelopeAndPatch.
Local Open Scope R_scope.

(** ** The attack and the decay *)

Lemma scheduleEnvelope_eq op params time s g :
  nodes s !! env op = Some (GainNode g) →
  scheduleEnvelope op params time s =
    (Return tt,
     set_nodes (<[env op :=
       GainNode (scheduledEnvelope params (startTime time (currentTime s)) g)]>) s).
Proof.
  intros Hg.
  assert (Hlen : (env op < length (nodes s))%nat) by (by eapply lookup_lt_Some).
  destruct s as [t st rc ns es an mg p]. cbn [nodes currentTime] in *.
  unfold scheduleEnvelope, cancelScheduledValues, setValueAtTime, linearRampToValueAtTime.
  rewrite (bind_Return _ _ _ _ _ (gets_eq _ _)). cbn [currentTime].
  fold (startTime time t). set (now := startTime time t).
  erewrite bind_Return; cycle 1.
  { eapply onParam_eq. cbn [nodes lookupParam]. by rewrite Hg. }
  unfold set_nodes at 1. cbn [nodes currentTime state resumeCalls edges activeNotes masterGain patch alterParam].
  rewrite (alter_lookup_insert _ _ _ _ Hg).
  erewrite bind_Return; cycle 1.
  { eapply get_value_eq. cbn [nodes lookupParam]. by rewrite list_lookup_insert_eq. }
  erewrite bind_Return; cycle 1.
  { eapply onParam_eq. cbn [nodes lookupParam]. by rewrite list_lookup_insert_eq. }
  unfold set_nodes at 1. cbn [nodes currentTime state resumeCalls edges activeNotes masterGain patch alterParam].
  erewrite alter_lookup_insert by (by rewrite list_lookup_insert_eq).
  rewrite list_insert_insert_eq.
  erewrite bind_Return; cycle 1.
  { eapply onParam_eq. cbn [nodes lookupParam]. by rewrite list_lookup_insert_eq. }
  unfold set_nodes at 1. cbn [nodes currentTime state resumeCalls edges activeNotes masterGain patch alterParam].
  erewrite alter_lookup_insert by (by rewrite list_lookup_insert_eq).
  rewrite list_insert_insert_eq.
  erewrite onParam_eq; cycle 1.
  { cbn [nodes lookupParam]. by rewrite list_lookup_insert_eq. }
  unfold set_nodes. cbn [nodes currentTime state resumeCalls edges activeNotes masterGain patch alterParam].
  erewrite alter_lookup_insert by (by rewrite list_lookup_insert_eq).
  rewrite list_insert_insert_eq.
  reflexivity.
Qed.

Lemma scheduledEnvelope_events params now g :
  0 <= attack params → 0 <= decay params →
  events (scheduledEnvelope params now g) =
    filter (λ e, eventTime e < now) (events g)
      ++ [SetValue (value g) now; LinearRamp 1 (now + attack params);
          LinearRamp (sustain params) (now + attack params + decay params)].
Proof.
  intros Ha Hd. unfold scheduledEnvelope. cbn [events].
  assert (Hkept : Forall (λ x, eventTime x < now)
                    (filter (λ e, eventTime e < now) (events g))).
  { apply Forall_forall. intros x Hx. by apply list_elem_of_filter in Hx as [? _]. }
  rewrite (insertEvent_last (SetValue (value g) now)).
  2:{ eapply Forall_impl; [exact Hkept|]. cbn. intros; lra. }
  rewrite (insertEvent_last (LinearRamp 1 _)).
  2:{ apply Forall_app. split.
      - eapply Forall_impl; [exact Hkept|]. cbn. intros; lra.
      - apply Forall_singleton. cbn. lra. }
  rewrite insertEvent_last.
  2:{ repeat (apply Forall_app; split).
      - eapply Forall_impl; [exact Hkept|]. cbn. intros; lra.
      - apply Forall_singleton. cbn. lra.
      - apply Forall_singleton. cbn. lra. }
  by rewrite <- !app_assoc.
Qed.

(** X10. [scheduleEnvelope] on an operator whose envelope is in the
    graph, with positive attack and decay, returns and changes this
    envelope only; from the start time ([time], or [currentTime] when
    [time] is left out or 0) the gain rises linearly from the value it
    had to 1 over [attack] seconds, then goes linearly to [sustain] over
    [decay] seconds, then stays at [sustain]. *)
Theorem scheduleEnvelope_attack_decay_sustain
    (op : Operator) (params : OperatorParams) (time : option R)
    (s : Runtime) (g : AudioParam) :
  nodes s !! env op = Some (GainNode g) →
  0 < attack params → 0 < decay params →
  ∃ g',
    scheduleEnvelope op params time s
      = (Return tt, set_nodes (<[env op := GainNode g']>) s)
    ∧ (∀ t, startTime time (currentTime s) <= t
            <= startTime time (currentTime s) + attack params →
         valueAt g' t
         = value g + (1 - value g)
             * ((t - startTime time (currentTime s)) / attack params))
    ∧ (∀ t, startTime time (currentTime s) + attack params <= t
            <= startTime time (currentTime s) + attack params + decay params →
         valueAt g' t
         = 1 + (sustain params - 1)
             * ((t - (startTime time (currentTime s) + attack params)) / decay params))
    ∧ (∀ t, startTime time (currentTime s) + attack params + decay params <= t →
         valueAt g' t = sustain params).
Proof.
  intros Hg Ha Hd. set (now := startTime time (currentTime s)).
  exists (scheduledEnvelope params now g).
  split; [by apply scheduleEnvelope_eq|].
  assert (V : ∀ t, now <= t →
    valueAt (scheduledEnvelope params now g) t
    = valueFrom (value g) now
        [LinearRamp 1 (now + attack params);
         LinearRamp (sustain params) (now + attack params + decay params)] t).
  { intros t Ht. unfold valueAt. rewrite scheduledEnvelope_events by lra.
    destruct (valueFrom_past (value (scheduledEnvelope params now g)) t
                (filter (λ e, eventTime e < now) (events g))
                [SetValue (value g) now; LinearRamp 1 (now + attack params);
                 LinearRamp (sustain params) (now + attack params + decay params)] t)
      as (v' & t' & ->).
    { apply Forall_forall. intros x Hx. apply list_elem_of_filter in Hx as [? _]. lra. }
    cbn [valueFrom]. by rewrite decide_False by lra. }
  split; [|split].
  - intros t Ht. rewrite V by lra. cbn [valueFrom].
    destruct (decide (t < now + attack params)).
    + field. lra.
    + assert (t = now + attack params) as -> by lra.
      rewrite decide_True by lra. field. split; lra.
  - intros t Ht. rewrite V by lra. cbn [valueFrom].
    rewrite decide_False by lra.
    destruct (decide (t < now + attack params + decay params)).
    + field. lra.
    + assert (t = now + attack params + decay params) as -> by lra. field. lra.
  - intros t Ht. rewrite V by lra. cbn [valueFrom].
    rewrite !decide_False by lra. done.
Qed.

Lemma scheduleEnvelope_witness :
  ∃ g',
    scheduleEnvelope {| osc := 1; env := 2 |} (initialOperator true 1.00 0.8) None
        (Operator_new (initial running)).2
      = (Return tt,
         set_nodes (<[env {| osc := 1; env := 2 |} := GainNode g']>)
           (Operator_new (initial running)).2)
    ∧ (∀ t, startTime None (currentTime (Operator_new (initial running)).2) <= t
            <= startTime None (currentTime (Operator_new (initial running)).2)
               + attack (initialOperator true 1.00 0.8) →
         valueAt g' t
         = value {| value := 0; events := [] |}
           + (1 - value {| value := 0; events := [] |})
             * ((t - startTime None (currentTime (Operator_new (initial running)).2))
                / attack (initialOperator true 1.00 0.8)))
    ∧ (∀ t, startTime None (currentTime (Operator_new (initial running)).2)
            + attack (initialOperator true 1.00 0.8) <= t
            <= startTime None (currentTime (Operator_new (initial running)).2)
               + attack (initialOperator true 1.00 0.8)
               + decay (initialOperator true 1.00 0.8) →
         valueAt g' t
         = 1 + (sustain (initialOperator true 1.00 0.8) - 1)
             * ((t - (startTime None (currentTime (Operator_new (initial running)).2)
                      + attack (initialOperator true 1.00 0.8)))
                / decay (initialOperator true 1.00 0.8)))
    ∧ (∀ t, startTime None (currentTime (Operator_new (initial running)).2)
            + attack (initialOperator true 1.00 0.8)
            + decay (initialOperator true 1.00 0.8) <= t →
         valueAt g' t = sustain (initialOperator true 1.00 0.8)).
Proof.
  apply (scheduleEnvelope_attack_decay_sustain {| osc := 1; env := 2 |}
           (initialOperator true 1.00 0.8) None (Operator_new (initial running)).2
           {| value := 0; events := [] |}).
  - vm_compute. reflexivity.
  - cbn. lra.
  - cbn. lra.
Defined.

(** ** Patches with fewer than four operators *)

(** X11. Under a patch of fewer than four operators, [noteOn] of a note
    that is not registered throws a [TypeError] when it reaches the
    missing operator: the note is not registered, but the eight nodes of
    the four operators have been created and connected. *)
Theorem noteOn_needs_four_operators (note : Z) (s : Runtime) (P : Patch) :
  patch s = Some P → (length (operators P) < 4)%nat →
  activeNotes s !! note = None →
  ∃ s', noteOn note s = (Throw TypeError, s')
        ∧ activeNotes s' = activeNotes s
        ∧ length (nodes s') = (length (nodes s) + 8)%nat
        ∧ edges s' = edges s ++ operatorEdges (length (nodes s)).
Proof.
  destruct s as [t st rc ns es an mg p]. cbn [patch activeNotes nodes edges].
  intros -> Hlen Hnote.
  destruct P as [alg pmg ops]. cbn [operators] in Hlen.
  assert (Hres : ∀ p, (if is_suspended st then resume else ret tt)
            {| currentTime := t; state := st; resumeCalls := rc; nodes := ns;
               edges := es; activeNotes := an; masterGain := mg; patch := p |}
          = (Return tt, {| currentTime := t; state := st;
               resumeCalls := if is_suspended st then S rc else rc; nodes := ns;
               edges := es; activeNotes := an; masterGain := mg; patch := p |})).
  { intros p. by destruct (is_suspended st). }
  destruct ops as [|p0 [|p1 [|p2 [|p3 rest]]]]; cbn [length] in Hlen; try lia.
  all: try destruct (on p0) eqn:E0; try destruct (on p1) eqn:E1;
    try destruct (on p2) eqn:E2.
  all: eexists; split;
    [ unfold noteOn; do 2 step; cbn [is_object negb orb];
      rewrite (bind_Return _ _ _ _ _ (Hres _));
      step; rewrite Hnote;
      rewrite bool_decide_eq_false_2 by (intros [? ?]; discriminate);
      (etrans; [apply bind_Return; apply array_of_4_Operator_new|]);
      cbv beta; norm; step;
      unfold forEach, voiceOperators; cbn [forEach_from];
      unfold startOperator; cbn [operators algorithm lookup list_lookup];
      rewrite ?E0, ?E1, ?E2; cbn [negb];
      unfold scheduleEnvelope, setValueAtTime, linearRampToValueAtTime,
        cancelScheduledValues;
      repeat step; reflexivity
    | cbn [activeNotes nodes edges]; rewrite ?length_app; cbn [length];
      (split; [reflexivity|split; [lia|reflexivity]]) ].
Qed.

Lemma noteOn_needs_four_operators_witness :
  ∃ s', noteOn 60 (run [SetPatch {| algorithm := 6; patchMasterGain := 0.5;
                                    operators := [initialOperator true 1.00 0.8] |}]
                     (initial running))
          = (Throw TypeError, s')
        ∧ activeNotes s'
          = activeNotes (run [SetPatch {| algorithm := 6; patchMasterGain := 0.5;
                                          operators := [initialOperator true 1.00 0.8] |}]
                           (initial running))
        ∧ length (nodes s')
          = (length (nodes (run [SetPatch {| algorithm := 6; patchMasterGain := 0.5;
                                             operators := [initialOperator true 1.00 0.8] |}]
                              (initial running))) + 8)%nat
        ∧ edges s'
          = edges (run [SetPatch {| algorithm := 6; patchMasterGain := 0.5;
                                    operators := [initialOperator true 1.00 0.8] |}]
                     (initial running))
            ++ operatorEdges
                 (length (nodes (run [SetPatch {| algorithm := 6; patchMasterGain := 0.5;
                                                  operators := [initialOperator true 1.00 0.8] |}]
                                   (initial running)))).
Proof.
  apply (noteOn_needs_four_operators 60 _
           {| algorithm := 6; patchMasterGain := 0.5;
              operators := [initialOperator true 1.00 0.8] |}).
  - reflexivity.
  - cbn. lia.
  - reflexivity.
Defined.

Lemma forEach_releaseOperator_short P : ∀ ops i s,
  patch s = Some P →
  (i ≤ length (operators P) < i + length ops)%nat →
  Forall (λ op, operatorAt op (nodes s)) ops →
  ∃ s', forEach_from i releaseOperator ops s = (Throw TypeError, s')
        ∧ activeNotes s' = activeNotes s
        ∧ length (nodes s') = length (nodes s)
        ∧ edges s' = edges s.
Proof.
  induction ops as [|op ops IH]; intros i s Hp Hlen Hops; cbn [length] in Hlen; [lia|].
  apply Forall_cons in Hops as [Hop Hops]. cbn [forEach_from].
  destruct (decide (i = length (operators P))) as [->|Hne].
  - exists s. split; [|done].
    apply bind_Throw. unfold releaseOperator.
    rewrite (bind_Return _ _ _ _ _ (gets_eq _ _)), Hp.
    by rewrite lookup_ge_None_2.
  - destruct (lookup_lt_is_Some_2 (operators P) i) as [params Hparams]; [lia|].
    rewrite (bind_Return _ _ _ _ _ (releaseOperator_eq op i s P params Hp Hparams Hop)).
    destruct (IH (S i) (set_nodes (releasedOperator (currentTime s) op params) s))
      as (s' & E & Ha & Hn & He).
    { by destruct s. }
    { lia. }
    { cbn [nodes set_nodes]. eapply Forall_impl; [exact Hops|].
      intros op'. apply releasedOperator_operatorAt. }
    exists s'. split; [done|].
    rewrite Ha, Hn, He. unfold set_nodes. cbn [activeNotes nodes edges].
    by rewrite releasedOperator_length.
Qed.

(** X12. When the patch is replaced by one of fewer than four operators
    while a note is registered, [noteOff] of this note throws a
    [TypeError] at the missing operator, before it takes the note out of
    the registry: the note stays registered, and no node or connection
    is added or removed. *)
Theorem noteOff_needs_four_operators
    (st : AudioContextState) (calls : list Call) (note : Z)
    (ops : list Operator) (P : Patch) :
  Forall validCall calls →
  activeNotes (run calls (initial st)) !! note = Some ops →
  (length (operators P) < 4)%nat →
  ∃ s', noteOff note (run [SetPatch P] (run calls (initial st))) = (Throw TypeError, s')
        ∧ activeNotes s' = activeNotes (run calls (initial st))
        ∧ length (nodes s') = length (nodes (run calls (initial st)))
        ∧ edges s' = edges (run calls (initial st)).
Proof.
  intros Hc Hn Hlen. pose proof (wf_reachable st calls Hc) as W.
  set (s := run calls (initial st)) in *.
  destruct (wf_voices s W note ops Hn) as (L & -> & HV).
  change (run [SetPatch P] s) with (set_patch (Some P) s).
  destruct (forEach_releaseOperator_short P (voiceOperators L) 0 (set_patch (Some P) s))
    as (s' & E & Ha & Hl & He).
  { done. }
  { cbn [length voiceOperators]. lia. }
  { by apply voiceAt_operatorAt. }
  exists s'. split; [|done].
  unfold noteOff.
  rewrite (bind_Return _ _ _ _ _ (gets_eq _ _)).
  change (activeNotes (set_patch (Some P) s)) with (activeNotes s). rewrite Hn.
  by apply bind_Throw.
Qed.

Lemma noteOff_needs_four_operators_witness :
  ∃ s', noteOff 60 (run [SetPatch {| algorithm := 1; patchMasterGain := 0.5;
                                     operators := [initialOperator true 1.00 0.8] |}]
                      (run [SetPatch initialPatch; NoteOn 60] (initial running)))
          = (Throw TypeError, s')
        ∧ activeNotes s'
          = activeNotes (run [SetPatch initialPatch; NoteOn 60] (initial running))
        ∧ length (nodes s')
          = length (nodes (run [SetPatch initialPatch; NoteOn 60] (initial running)))
        ∧ edges s' = edges (run [SetPatch initialPatch; NoteOn 60] (initial running)).
Proof.
  apply (noteOff_needs_four_operators running [SetPatch initialPatch; NoteOn 60] 60
           (voiceOperators 1)
           {| algorithm := 1; patchMasterGain := 0.5;
              operators := [initialOperator true 1.00 0.8] |}).
  - repeat constructor.
  - vm_compute. reflexivity.
  - cbn. lia.
Defined.

End EnvelopeAndPatch.

(* ================================================================= *)
(** * The interface *)

(** ** Note names *)

Lemma midiToNoteName_in_range (midi : Z) :
  (0 ≤ midi ≤ 127)%Z → midiToNoteName midi ≠ EmptyString.
Proof.
  intros Hm E. unfold midiToNoteName in E.
  rewrite bool_decide_eq_false_2 in E by lia.
  destruct (noteNames !! Z.to_nat (Z.rem midi 12)) as [name|] eqn:Hname.
  - apply list_elem_of_lookup_2 in Hname. unfold noteNames in Hname.
    repeat (apply elem_of_cons in Hname as [->|Hname]; [discriminate E|]).
    by apply elem_of_nil in Hname.
  - discriminate E.
Qed.

(** X13. [midiToNoteName] returns the empty string exactly for the
    numbers outside 0..127. *)
Theorem midiToNoteName_empty_iff_out_of_range (midi : Z) :
  midiToNoteName midi = EmptyString ↔ (midi < 0 ∨ midi > 127)%Z.
Proof.
  split.
  - intros E. destruct (decide (0 ≤ midi ≤ 127)%Z) as [H|H]; [|lia].
    by apply midiToNoteName_in_range in H.
  - intros H. unfold midiToNoteName. by rewrite bool_decide_eq_true_2.
Qed.

(** X14. [midiToNoteName] gives different names to different notes of
    the range 0..127. *)
Theorem midiToNoteName_distinguishes_the_notes (m n : Z) :
  (0 ≤ m ≤ 127)%Z → (0 ≤ n ≤ 127)%Z → m ≠ n →
  midiToNoteName m ≠ midiToNoteName n.
Proof.
  intros Hm Hn Hne E. apply Hne.
  assert (ND : NoDup (midiToNoteName <$> seqZ 0 128)).
  { apply (bool_decide_unpack _). vm_compute. exact I. }
  assert (L : ∀ k, (0 ≤ k ≤ 127)%Z →
            (midiToNoteName <$> seqZ 0 128) !! Z.to_nat k = Some (midiToNoteName k)).
  { intros k Hk. rewrite list_lookup_fmap.
    assert (seqZ 0 128 !! Z.to_nat k = Some k) as ->; [|done].
    apply lookup_seqZ. lia. }
  pose proof (L m Hm) as Lm. pose proof (L n Hn) as Ln. rewrite E in Lm.
  pose proof (NoDup_lookup _ _ _ _ ND Lm Ln). lia.
Qed.

Lemma midiToNoteName_distinguishes_witness :
  (61 ≠ 73)%Z ∧ midiToNoteName 61 ≠ midiToNoteName 73.
Proof.
  split; [lia|].
  apply (midiToNoteName_distinguishes_the_notes 61 73); lia.
Defined.

(** ** The visualizer and the routing *)

(** X15. The visualizer agrees with the routing: for every value of the
    algorithm, the values outside 1..6 included, the box of operator
    [op] (1 to 4) is drawn in the carrier colour exactly when the
    [switch] of [noteOn] calls [connectCarrier(op - 1)]. *)
Theorem getStyle_shows_the_carriers_of_the_routing (algoId op : Z) :
  (1 ≤ op ≤ 4)%Z →
  (AlgorithmVisualizer.backgroundColor (AlgorithmVisualizer.getStyle algoId op)
     = "bg-sky-500"%string
   ↔ Z.to_nat (op - 1) ∈ carrierCalls algoId).
Proof.
  intros Hop.
  assert (op = 1 ∨ op = 2 ∨ op = 3 ∨ op = 4)%Z as Hcases by lia.
  unfold AlgorithmVisualizer.getStyle, AlgorithmVisualizer.carrier, carrierCalls.
  cbn [AlgorithmVisualizer.backgroundColor].
  clear Hop.
  destruct algoId as [|q|q];
    [ | destruct q as [q|q|];
        [ destruct q as [q|q|]; [| destruct q as [q|q|] |]
        | destruct q as [q|q|]; [destruct q as [q|q|] | destruct q as [q|q|] | ]
        | ]
      | ];
    destruct Hcases as [-> | [-> | [-> | ->]]];
    apply (bool_decide_unpack _); vm_compute; exact I.
Qed.

Lemma getStyle_shows_the_carriers_witness :
  AlgorithmVisualizer.backgroundColor (AlgorithmVisualizer.getStyle 5 2)
     = "bg-sky-500"%string
  ↔ Z.to_nat (2 - 1) ∈ carrierCalls 5.
Proof. apply (getStyle_shows_the_carriers_of_the_routing 5 2). lia. Defined.

(** ** The registry after a call *)

Lemma wf_noteOn_registry note s P :
  wellFormed s → patch s = Some P →
  is_Some (activeNotes (noteOn note s).2 !! note)
  ∧ (∀ n, n ≠ note → activeNotes (noteOn note s).2 !! n = activeNotes s !! n)
  ∧ patch (noteOn note s).2 = Some P
  ∧ (noteOn note s).1 = Return tt.
Proof.
  intros W Hp.
  destruct (activeNotes s !! note) as [ops|] eqn:Hn.
  - rewrite noteOn_live by done. cbn [fst snd].
    destruct (negb (is_object (patch s)) || is_suspended (state s));
      unfold set_resumeCalls; cbn [activeNotes patch]; rewrite Hn; eauto.
  - pose proof (wf_patch s W) as Hlen. rewrite Hp in Hlen.
    destruct (noteOn_fresh_frame note s P Hp Hlen Hn) as (Hr & _ & _ & _ & Hpatch).
    destruct (noteOn_fresh_graph note s P Hp Hlen Hn) as (_ & _ & Ha).
    rewrite Ha, Hpatch, Hr. repeat split; try done.
    + rewrite lookup_insert_eq. eauto.
    + intros n Hne. by rewrite lookup_insert_ne.
Qed.

Lemma wf_noteOff_registry note s :
  wellFormed s →
  activeNotes (noteOff note s).2 = delete note (activeNotes s)
  ∧ patch (noteOff note s).2 = patch s
  ∧ (noteOff note s).1 = Return tt.
Proof.
  intros W.
  destruct (activeNotes s !! note) as [ops|] eqn:Hn.
  - destruct (wf_noteOff_live note s ops W Hn) as (P & L & _ & _ & _ & ->). done.
  - rewrite noteOff_absent by done. cbn [fst snd]. by rewrite delete_id.
Qed.

(** ** The handlers of the component *)


Lemma appInvariant_initial : appInvariant AppComponent.initialApp.
Proof.
  unfold appInvariant, AppComponent.initialApp. cbn.
  split; [lia|]. split; [done|]. split.
  - split; [done|]. intros [? ?]; discriminate.
  - intros s; discriminate.
Qed.

Lemma appInvariant_onSynth (m : JS unit) a :
  appInvariant a →
  (∀ s, wellFormed s → patch s = Some (AppComponent.patch a) →
        (∀ n, is_Some (activeNotes s !! n) → (0 ≤ n ≤ 127)%Z) →
        wellFormed (m s).2 ∧ patch (m s).2 = Some (AppComponent.patch a)
        ∧ ∀ n, is_Some (activeNotes (m s).2 !! n) → (0 ≤ n ≤ 127)%Z) →
  appInvariant (AppComponent.onSynth m a).
Proof.
  intros (Ho & Hl & Hi & Hs) Hm. unfold AppComponent.onSynth, appInvariant.
  cbn [AppComponent.octaveOffset AppComponent.patch AppComponent.isInitialized AppComponent.synthRef].
  split; [done|]. split; [done|]. split.
  - rewrite Hi. by rewrite fmap_is_Some.
  - intros s' E. destruct (AppComponent.synthRef a) as [s|]; [|discriminate].
    injection E as <-. destruct (Hs s eq_refl) as (W & Hp & Hn).
    by apply Hm.
Qed.

Lemma appInvariant_setPatchState p a :
  appInvariant a → length (operators p) = 4%nat →
  appInvariant (AppComponent.setPatchState p a).
Proof.
  intros (Ho & Hl & Hi & Hs) Hp. unfold AppComponent.setPatchState, AppComponent.onSynth, appInvariant.
  cbn [AppComponent.octaveOffset AppComponent.patch AppComponent.isInitialized AppComponent.synthRef].
  split; [done|]. split; [done|]. split.
  - rewrite Hi. by rewrite fmap_is_Some.
  - intros s' E. destruct (AppComponent.synthRef a) as [s|]; [|discriminate].
    injection E as <-. destruct (Hs s eq_refl) as (W & _ & Hn).
    split; [|by split].
    apply (wf_step s (SetPatch p) W). cbn. lia.
Qed.

Lemma appInvariant_handle a e : appInvariant a → appInvariant (AppComponent.handle a e).
Proof.
  intros I. pose proof I as (Ho & Hl & Hi & Hs).
  destruct e as [st|note|note|opIndex newParams|algoId| | |t|st]; cbn [AppComponent.handle].
  - unfold AppComponent.initAudio. destruct (AppComponent.isInitialized a) eqn:E; cbn [negb]; [done|].
    unfold appInvariant. cbn [AppComponent.octaveOffset AppComponent.patch AppComponent.isInitialized AppComponent.synthRef].
    split; [done|]. split; [done|]. split; [by split; eauto|].
    intros s [= <-].
    assert (W : wellFormed (setPatch (AppComponent.patch a) (initial st)).2).
    { apply (wf_step (initial st) (SetPatch (AppComponent.patch a)) (wf_initial st)). cbn. lia. }
    split; [done|]. split; [done|].
    intros n [x Hx]. vm_compute in Hx. discriminate.
  - unfold AppComponent.handleNoteOn. destruct (AppComponent.synthRef a) as [s0|] eqn:E; [|done].
    case_bool_decide as H1; cbn [andb]; [|done].
    case_bool_decide as H2; [|done].
    apply appInvariant_onSynth; [done|]. intros s W Hp Hn.
    destruct (wf_noteOn_registry (note + AppComponent.octaveOffset a * 12) s _ W Hp)
      as (_ & Hother & Hpatch & _).
    split; [by apply wf_noteOn|]. split; [done|].
    intros n Hsome.
    destruct (decide (n = (note + AppComponent.octaveOffset a * 12)%Z)) as [->|Hne]; [lia|].
    rewrite Hother in Hsome by done. by apply Hn.
  - unfold AppComponent.handleNoteOff. destruct (AppComponent.synthRef a) as [s0|] eqn:E; [|done].
    case_bool_decide as H1; cbn [andb]; [|done].
    case_bool_decide as H2; [|done].
    apply appInvariant_onSynth; [done|]. intros s W Hp Hn.
    destruct (wf_noteOff_registry (note + AppComponent.octaveOffset a * 12) s W)
      as (Ha & Hpatch & _).
    split; [by apply wf_noteOff|]. split; [congruence|].
    intros n Hsome. rewrite Ha in Hsome.
    destruct Hsome as [x Hx]. apply lookup_delete_Some in Hx as [_ Hx].
    apply Hn. eauto.
  - apply appInvariant_setPatchState; [done|]. cbn [operators].
    by rewrite length_imap.
  - by apply appInvariant_setPatchState.
  - unfold AppComponent.octaveDown, AppComponent.setOctaveOffset, appInvariant.
    cbn [AppComponent.octaveOffset AppComponent.patch AppComponent.isInitialized AppComponent.synthRef]. split; [lia|done].
  - unfold AppComponent.octaveUp, AppComponent.setOctaveOffset, appInvariant.
    cbn [AppComponent.octaveOffset AppComponent.patch AppComponent.isInitialized AppComponent.synthRef]. split; [lia|done].
  - apply appInvariant_onSynth; [done|]. intros s W Hp Hn.
    change (modify (render t) s).2 with (render t s).
    split; [by apply wf_render|]. by split.
  - apply appInvariant_onSynth; [done|]. intros s W Hp Hn.
    change (modify (set_state st) s).2 with (set_state st s).
    split; [|by split]. destruct W as [W1 W2 W3 W4]. by split.
Qed.

Lemma appInvariant_session events : ∀ a,
  appInvariant a → appInvariant (AppComponent.session events a).
Proof.
  induction events as [|e events IH]; intros a I; [done|].
  unfold AppComponent.session. cbn [foldl]. apply IH.
  by apply appInvariant_handle.
Qed.

Lemma appInvariant_reachable events :
  appInvariant (AppComponent.session events AppComponent.initialApp).
Proof. apply appInvariant_session, appInvariant_initial. Qed.

Lemma keys_range k : k ∈ Keyboard.keys → (60 ≤ Keyboard.note k ≤ 72)%Z.
Proof.
  unfold Keyboard.keys. intros H.
  repeat (apply elem_of_cons in H as [->|H]; [cbn; lia|]).
  by apply elem_of_nil in H.
Qed.

(** X16. Whatever the handlers called so far, the octave offset is
    between -2 and 2, so that the note of every key of the keyboard,
    transposed, is in 0..127: the range check of [handleNoteOn] never
    drops a key, and the label of the key is never empty. *)
Theorem every_key_always_has_a_note
    (events : list AppComponent.Event) (k : Keyboard.Key) :
  k ∈ Keyboard.keys →
  (-2 ≤ AppComponent.octaveOffset
          (AppComponent.session events AppComponent.initialApp) ≤ 2)%Z
  ∧ (0 ≤ Keyboard.note k
         + AppComponent.octaveOffset
             (AppComponent.session events AppComponent.initialApp) * 12 ≤ 127)%Z
  ∧ Keyboard.label
      (AppComponent.octaveOffset
         (AppComponent.session events AppComponent.initialApp)) k ≠ EmptyString.
Proof.
  intros Hk. destruct (appInvariant_reachable events) as (Ho & _).
  apply keys_range in Hk.
  split; [done|]. split; [lia|].
  unfold Keyboard.label. apply midiToNoteName_in_range. lia.
Qed.

Lemma every_key_always_has_a_note_witness :
  (-2 ≤ AppComponent.octaveOffset
          (AppComponent.session
             [AppComponent.OctaveDown; AppComponent.OctaveDown; AppComponent.OctaveDown]
             AppComponent.initialApp) ≤ 2)%Z
  ∧ (0 ≤ Keyboard.note {| Keyboard.note := 60; Keyboard.key := "a";
                          Keyboard.type := Keyboard.white |}
         + AppComponent.octaveOffset
             (AppComponent.session
                [AppComponent.OctaveDown; AppComponent.OctaveDown; AppComponent.OctaveDown]
                AppComponent.initialApp) * 12 ≤ 127)%Z
  ∧ Keyboard.label
      (AppComponent.octaveOffset
         (AppComponent.session
            [AppComponent.OctaveDown; AppComponent.OctaveDown; AppComponent.OctaveDown]
            AppComponent.initialApp))
      {| Keyboard.note := 60; Keyboard.key := "a"; Keyboard.type := Keyboard.white |}
      ≠ EmptyString.
Proof.
  apply (every_key_always_has_a_note
           [AppComponent.OctaveDown; AppComponent.OctaveDown; AppComponent.OctaveDown]
           {| Keyboard.note := 60; Keyboard.key := "a"; Keyboard.type := Keyboard.white |}).
  apply list_elem_of_here.
Defined.

(** X17. Whatever note numbers the handlers are called with, only notes
    of the range 0..127 are ever registered. *)
Theorem only_midi_notes_are_registered
    (events : list AppComponent.Event) (s : Runtime) (n : Z) :
  AppComponent.synthRef (AppComponent.session events AppComponent.initialApp) = Some s →
  is_Some (activeNotes s !! n) →
  (0 ≤ n ≤ 127)%Z.
Proof.
  intros Hs Hn. destruct (appInvariant_reachable events) as (_ & _ & _ & H).
  destruct (H s Hs) as (_ & _ & Hr). by apply Hr.
Qed.

Lemma only_midi_notes_are_registered_witness : (0 ≤ 72 ≤ 127)%Z.
Proof.
  apply (only_midi_notes_are_registered
           [AppComponent.InitAudio running; AppComponent.HandleNoteOn 200;
            AppComponent.OctaveUp; AppComponent.HandleNoteOn 60]
           (noteOn 72 (setPatch initialPatch (initial running)).2).2 72).
  - vm_compute. reflexivity.
  - vm_compute. eexists. reflexivity.
Defined.

(** X18. Through the start button, the keys, the octave buttons and the
    edits of the panel (import apart), the patch of the component keeps
    four operators and the synthesizer, once created, holds the patch of
    the component; hence no [noteOn] and no [noteOff] throws. *)
Theorem the_component_keeps_the_engine_in_step
    (events : list AppComponent.Event) (s : Runtime) (note : Z) :
  AppComponent.synthRef (AppComponent.session events AppComponent.initialApp) = Some s →
  patch s
    = Some (AppComponent.patch (AppComponent.session events AppComponent.initialApp))
  ∧ length (operators
              (AppComponent.patch (AppComponent.session events AppComponent.initialApp)))
    = 4%nat
  ∧ (noteOn note s).1 = Return tt
  ∧ (noteOff note s).1 = Return tt.
Proof.
  intros Hs. destruct (appInvariant_reachable events) as (_ & Hl & _ & H).
  destruct (H s Hs) as (W & Hp & _).
  split; [done|]. split; [done|]. split.
  - by destruct (wf_noteOn_registry note s _ W Hp) as (_ & _ & _ & ?).
  - by destruct (wf_noteOff_registry note s W) as (_ & _ & ?).
Qed.

Lemma the_component_keeps_the_engine_in_step_witness :
  patch (setPatch
           {| algorithm := 6; patchMasterGain := patchMasterGain initialPatch;
              operators := operators initialPatch |}
           (setPatch initialPatch (initial suspended)).2).2
    = Some (AppComponent.patch
              (AppComponent.session
                 [AppComponent.InitAudio suspended; AppComponent.UpdateAlgorithm 6]
                 AppComponent.initialApp))
  ∧ length (operators
              (AppComponent.patch
                 (AppComponent.session
                    [AppComponent.InitAudio suspended; AppComponent.UpdateAlgorithm 6]
                    AppComponent.initialApp)))
    = 4%nat
  ∧ (noteOn 60
       (setPatch
          {| algorithm := 6; patchMasterGain := patchMasterGain initialPatch;
             operators := operators initialPatch |}
          (setPatch initialPatch (initial suspended)).2).2).1 = Return tt
  ∧ (noteOff 60
       (setPatch
          {| algorithm := 6; patchMasterGain := patchMasterGain initialPatch;
             operators := operators initialPatch |}
          (setPatch initialPatch (initial suspended)).2).2).1 = Return tt.
Proof.
  apply (the_component_keeps_the_engine_in_step
           [AppComponent.InitAudio suspended; AppComponent.UpdateAlgorithm 6]).
  reflexivity.
Defined.

(** X19. A key pressed and released at the same octave leaves its note
    unregistered.  When the octave is raised between the press and the
    release, [handleNoteOff] transposes by the new offset and releases
    another note: the note that sounds stays registered. *)
Theorem a_key_released_in_another_octave_stays_on
    (events : list AppComponent.Event) (s : Runtime) (note : Z) :
  AppComponent.synthRef (AppComponent.session events AppComponent.initialApp) = Some s →
  (0 ≤ note + AppComponent.octaveOffset
               (AppComponent.session events AppComponent.initialApp) * 12 ≤ 127)%Z →
  (AppComponent.octaveOffset (AppComponent.session events AppComponent.initialApp) < 2)%Z →
  (∃ s1,
     AppComponent.synthRef
       (AppComponent.session
          [AppComponent.HandleNoteOn note; AppComponent.HandleNoteOff note]
          (AppComponent.session events AppComponent.initialApp)) = Some s1
     ∧ activeNotes s1
         !! (note + AppComponent.octaveOffset
                      (AppComponent.session events AppComponent.initialApp) * 12)%Z
       = None)
  ∧ (∃ s2,
       AppComponent.synthRef
         (AppComponent.session
            [AppComponent.HandleNoteOn note; AppComponent.OctaveUp;
             AppComponent.HandleNoteOff note]
            (AppComponent.session events AppComponent.initialApp)) = Some s2
       ∧ is_Some
           (activeNotes s2
              !! (note + AppComponent.octaveOffset
                           (AppComponent.session events AppComponent.initialApp) * 12)%Z)).
Proof.
  intros Hs Hf Ho. destruct (appInvariant_reachable events) as (_ & _ & _ & H).
  destruct (H s Hs) as (W & Hp & _). clear H.
  set (a := AppComponent.session events AppComponent.initialApp) in *. clearbody a.
  set (f := (note + AppComponent.octaveOffset a * 12)%Z) in *.
  destruct (wf_noteOn_registry f s _ W Hp) as (Hlive & _ & _ & _).
  pose proof (wf_noteOn f s W) as W1.
  assert (E1 : AppComponent.handleNoteOn note a = AppComponent.onSynth (noteOn f) a).
  { unfold AppComponent.handleNoteOn. rewrite Hs. fold f.
    by rewrite !bool_decide_eq_true_2 by lia. }
  split.
  - exists (noteOff f (noteOn f s).2).2.
    unfold AppComponent.session. cbn [foldl AppComponent.handle]. rewrite E1.
    unfold AppComponent.handleNoteOff, AppComponent.onSynth.
    cbn [AppComponent.synthRef AppComponent.octaveOffset]. rewrite Hs. cbn [fmap option_fmap option_map].
    fold f. rewrite !bool_decide_eq_true_2 by lia. cbn [andb AppComponent.synthRef fmap option_fmap option_map].
    split; [done|].
    destruct (wf_noteOff_registry f _ W1) as (-> & _).
    apply lookup_delete_eq.
  - unfold AppComponent.session. cbn [foldl AppComponent.handle]. rewrite E1.
    unfold AppComponent.octaveUp, AppComponent.setOctaveOffset,
      AppComponent.handleNoteOff, AppComponent.onSynth.
    cbn [AppComponent.synthRef AppComponent.octaveOffset AppComponent.isInitialized AppComponent.patch].
    rewrite Hs. cbn [fmap option_fmap option_map].
    replace (Z.min 2 (AppComponent.octaveOffset a + 1)) with (AppComponent.octaveOffset a + 1)%Z by lia.
    destruct (bool_decide (0 ≤ note + (AppComponent.octaveOffset a + 1) * 12)%Z
              && bool_decide (note + (AppComponent.octaveOffset a + 1) * 12 ≤ 127)%Z).
    + cbn [AppComponent.synthRef fmap option_fmap option_map].
      eexists. split; [reflexivity|].
      destruct (wf_noteOff_registry (note + (AppComponent.octaveOffset a + 1) * 12) _ W1) as (-> & _).
      rewrite lookup_delete_ne by (unfold f; lia). done.
    + cbn [AppComponent.synthRef]. eexists. split; [reflexivity|]. done.
Qed.

Lemma a_key_released_in_another_octave_witness :
  (∃ s1,
     AppComponent.synthRef
       (AppComponent.session
          [AppComponent.HandleNoteOn 60; AppComponent.HandleNoteOff 60]
          (AppComponent.session [AppComponent.InitAudio running]
             AppComponent.initialApp)) = Some s1
     ∧ activeNotes s1
         !! (60 + AppComponent.octaveOffset
                    (AppComponent.session [AppComponent.InitAudio running]
                       AppComponent.initialApp) * 12)%Z
       = None)
  ∧ (∃ s2,
       AppComponent.synthRef
         (AppComponent.session
            [AppComponent.HandleNoteOn 60; AppComponent.OctaveUp;
             AppComponent.HandleNoteOff 60]
            (AppComponent.session [AppComponent.InitAudio running]
               AppComponent.initialApp)) = Some s2
       ∧ is_Some
           (activeNotes s2
              !! (60 + AppComponent.octaveOffset
                         (AppComponent.session [AppComponent.InitAudio running]
                            AppComponent.initialApp) * 12)%Z)).
Proof.
  apply (a_key_released_in_another_octave_stays_on
           [AppComponent.InitAudio running]
           (setPatch initialPatch (initial running)).2 60).
  - reflexivity.
  - cbn. lia.
  - cbn. lia.
Defined.

(** ** The keys *)

Lemma KEY_TO_NOTE_keys k :
  k ∈ Keyboard.keys →
  KeyListener.KEY_TO_NOTE !! Keyboard.key k = Some (Keyboard.note k).
Proof.
  unfold Keyboard.keys. intros H.
  repeat (apply elem_of_cons in H as [->|H]; [vm_compute; reflexivity|]).
  by apply elem_of_nil in H.
Qed.

Lemma KEY_TO_NOTE_inv key n :
  KeyListener.KEY_TO_NOTE !! key = Some n →
  ∃ k, k ∈ Keyboard.keys ∧ Keyboard.key k = key ∧ Keyboard.note k = n.
Proof.
  unfold KeyListener.KEY_TO_NOTE. intros H.
  apply elem_of_list_to_map_2 in H.
  repeat (apply elem_of_cons in H as [E|H];
          [ injection E as -> ->;
            eexists {| Keyboard.note := _; Keyboard.key := _; Keyboard.type := _ |};
            (split; [|split; reflexivity]);
            unfold Keyboard.keys;
            repeat first [apply list_elem_of_here | apply list_elem_of_further] |]).
  by apply elem_of_nil in H.
Qed.

(** ** The computer keyboard *)

Lemma handleNoteOn_registers a s note :
  appInvariant a → AppComponent.synthRef a = Some s →
  (0 ≤ note + AppComponent.octaveOffset a * 12 ≤ 127)%Z →
  AppComponent.handleNoteOn note a = AppComponent.onSynth
    (noteOn (note + AppComponent.octaveOffset a * 12)) a
  ∧ is_Some (activeNotes (noteOn (note + AppComponent.octaveOffset a * 12) s).2
               !! (note + AppComponent.octaveOffset a * 12)%Z)
  ∧ ∀ n, n ≠ (note + AppComponent.octaveOffset a * 12)%Z →
      activeNotes (noteOn (note + AppComponent.octaveOffset a * 12) s).2 !! n
      = activeNotes s !! n.
Proof.
  intros (_ & _ & _ & H) Hs Hf. destruct (H s Hs) as (W & Hp & _).
  split.
  - unfold AppComponent.handleNoteOn. rewrite Hs.
    by rewrite !bool_decide_eq_true_2 by lia.
  - destruct (wf_noteOn_registry (note + AppComponent.octaveOffset a * 12) s _ W Hp)
      as (Hlive & Hother & _). done.
Qed.

Lemma handleNoteOff_unregisters a s note :
  appInvariant a → AppComponent.synthRef a = Some s →
  (0 ≤ note + AppComponent.octaveOffset a * 12 ≤ 127)%Z →
  AppComponent.handleNoteOff note a = AppComponent.onSynth
    (noteOff (note + AppComponent.octaveOffset a * 12)) a
  ∧ activeNotes (noteOff (note + AppComponent.octaveOffset a * 12) s).2
    = delete (note + AppComponent.octaveOffset a * 12)%Z (activeNotes s).
Proof.
  intros (_ & _ & _ & H) Hs Hf. destruct (H s Hs) as (W & Hp & _).
  split.
  - unfold AppComponent.handleNoteOff. rewrite Hs.
    by rewrite !bool_decide_eq_true_2 by lia.
  - by destruct (wf_noteOff_registry (note + AppComponent.octaveOffset a * 12) s W)
      as (? & _).
Qed.

(** X21. The computer keyboard plays the keys it is shown on: for every
    key of the on-screen keyboard, once the component is initialized,
    the [keydown] listener on the letter of the key calls
    [handleNoteOn] with the note of the key (and remembers the letter),
    the [keyup] listener calls [handleNoteOff] with it; and the letters
    the listeners react to are the letters of these keys only. *)
Theorem a_computer_key_plays_the_key_it_is_shown_on
    (st : AudioContextState) (k : Keyboard.Key)
    (keyMap : gset string) (a : AppComponent.App) :
  k ∈ Keyboard.keys →
  Keyboard.key k ∉ keyMap →
  AppComponent.isInitialized a = true →
  KeyListener.handleKeyDown st
      {| KeyListener.key := Keyboard.key k; KeyListener.repeat := false |} (keyMap, a)
    = (keyMap ∪ {[Keyboard.key k]}, AppComponent.handleNoteOn (Keyboard.note k) a)
  ∧ KeyListener.handleKeyUp
      {| KeyListener.key := Keyboard.key k; KeyListener.repeat := false |} (keyMap, a)
    = (keyMap ∖ {[Keyboard.key k]}, AppComponent.handleNoteOff (Keyboard.note k) a)
  ∧ ∀ key, is_Some (KeyListener.KEY_TO_NOTE !! key) →
      ∃ k', k' ∈ Keyboard.keys ∧ Keyboard.key k' = key.
Proof.
  intros Hk Hmap Hinit.
  pose proof (KEY_TO_NOTE_keys k Hk) as Hnote.
  pose proof (keys_range k Hk) as Hrange.
  assert (Ht : KeyListener.truthy (Some (Keyboard.note k)) = true).
  { cbn. rewrite bool_decide_eq_false_2 by lia. done. }
  split; [|split].
  - unfold KeyListener.handleKeyDown. cbn [KeyListener.key KeyListener.repeat fst snd orb].
    rewrite bool_decide_eq_false_2 by done.
    rewrite Hnote, Ht, Hinit. done.
  - unfold KeyListener.handleKeyUp. cbn [KeyListener.key fst snd].
    rewrite Hnote, Ht. done.
  - intros key [n Hn]. destruct (KEY_TO_NOTE_inv key n Hn) as (k' & ? & ? & _). eauto.
Qed.

Lemma a_computer_key_plays_witness :
  KeyListener.handleKeyDown running
      {| KeyListener.key :=
           Keyboard.key {| Keyboard.note := 60; Keyboard.key := "a";
                           Keyboard.type := Keyboard.white |};
         KeyListener.repeat := false |}
      (∅, AppComponent.session [AppComponent.InitAudio running] AppComponent.initialApp)
    = (∅ ∪ {[Keyboard.key {| Keyboard.note := 60; Keyboard.key := "a";
                             Keyboard.type := Keyboard.white |}]},
       AppComponent.handleNoteOn
         (Keyboard.note {| Keyboard.note := 60; Keyboard.key := "a";
                           Keyboard.type := Keyboard.white |})
         (AppComponent.session [AppComponent.InitAudio running] AppComponent.initialApp))
  ∧ KeyListener.handleKeyUp
      {| KeyListener.key :=
           Keyboard.key {| Keyboard.note := 60; Keyboard.key := "a";
                           Keyboard.type := Keyboard.white |};
         KeyListener.repeat := false |}
      (∅, AppComponent.session [AppComponent.InitAudio running] AppComponent.initialApp)
    = (∅ ∖ {[Keyboard.key {| Keyboard.note := 60; Keyboard.key := "a";
                             Keyboard.type := Keyboard.white |}]},
       AppComponent.handleNoteOff
         (Keyboard.note {| Keyboard.note := 60; Keyboard.key := "a";
                           Keyboard.type := Keyboard.white |})
         (AppComponent.session [AppComponent.InitAudio running] AppComponent.initialApp))
  ∧ ∀ key, is_Some (KeyListener.KEY_TO_NOTE !! key) →
      ∃ k', k' ∈ Keyboard.keys ∧ Keyboard.key k' = key.
Proof.
  apply (a_computer_key_plays_the_key_it_is_shown_on running
           {| Keyboard.note := 60; Keyboard.key := "a"; Keyboard.type := Keyboard.white |}
           ∅ (AppComponent.session [AppComponent.InitAudio running] AppComponent.initialApp)).
  - apply list_elem_of_here.
  - apply not_elem_of_empty.
  - reflexivity.
Defined.

(** X22. Before the start button has been clicked, the first press of
    a letter of the keyboard starts the synthesizer and plays the note:
    after [handleKeyDown] the component is initialized, the synthesizer
    exists, and the note of the key, transposed, is the one registered
    note. *)
Theorem the_first_key_starts_the_synthesizer
    (st : AudioContextState) (events : list AppComponent.Event)
    (k : Keyboard.Key) (keyMap : gset string) :
  k ∈ Keyboard.keys →
  Keyboard.key k ∉ keyMap →
  AppComponent.isInitialized (AppComponent.session events AppComponent.initialApp) = false →
  ∃ s,
    AppComponent.synthRef
      (KeyListener.handleKeyDown st
         {| KeyListener.key := Keyboard.key k; KeyListener.repeat := false |}
         (keyMap, AppComponent.session events AppComponent.initialApp)).2 = Some s
    ∧ AppComponent.isInitialized
        (KeyListener.handleKeyDown st
           {| KeyListener.key := Keyboard.key k; KeyListener.repeat := false |}
           (keyMap, AppComponent.session events AppComponent.initialApp)).2 = true
    ∧ dom (activeNotes s)
      = {[ (Keyboard.note k
            + AppComponent.octaveOffset
                (AppComponent.session events AppComponent.initialApp) * 12)%Z ]}.
Proof.
  intros Hk Hmap Hinit.
  pose proof (appInvariant_reachable events) as I.
  set (a := AppComponent.session events AppComponent.initialApp) in *. clearbody a.
  pose proof (KEY_TO_NOTE_keys k Hk) as Hnote.
  pose proof (keys_range k Hk) as Hrange.
  pose proof I as (Ho & Hl & Hi & _).
  assert (Ht : KeyListener.truthy (Some (Keyboard.note k)) = true).
  { cbn. rewrite bool_decide_eq_false_2 by lia. done. }
  unfold KeyListener.handleKeyDown. cbn [KeyListener.key KeyListener.repeat fst snd orb].
  rewrite bool_decide_eq_false_2 by done.
  rewrite Hnote, Ht, Hinit. cbn [negb snd].
  pose proof (appInvariant_handle a (AppComponent.InitAudio st) I) as I1.
  cbn [AppComponent.handle] in I1.
  set (a1 := AppComponent.initAudio st a) in *.
  assert (E1 : a1 = {| AppComponent.isInitialized := true;
                       AppComponent.synthRef := Some (setPatch (AppComponent.patch a) (initial st)).2;
                       AppComponent.patch := AppComponent.patch a;
                       AppComponent.octaveOffset := AppComponent.octaveOffset a |}).
  { unfold a1, AppComponent.initAudio. by rewrite Hinit. }
  assert (Hs1 : AppComponent.synthRef a1 = Some (setPatch (AppComponent.patch a) (initial st)).2)
    by (by rewrite E1).
  assert (Ho1 : AppComponent.octaveOffset a1 = AppComponent.octaveOffset a) by (by rewrite E1).
  destruct (handleNoteOn_registers a1 _ (Keyboard.note k) I1 Hs1) as (E & Hlive & Hother).
  { rewrite Ho1. lia. }
  rewrite E. rewrite Ho1 in *.
  unfold AppComponent.onSynth. cbn [AppComponent.synthRef AppComponent.isInitialized].
  rewrite Hs1. cbn [fmap option_fmap option_map].
  eexists. split; [reflexivity|]. split; [by rewrite E1|].
  apply set_eq. intros n. rewrite elem_of_dom, elem_of_singleton.
  split.
  - intros Hn.
    destruct (decide (n = (Keyboard.note k + AppComponent.octaveOffset a * 12)%Z)) as [|Hne];
      [done|].
    rewrite Hother in Hn by done. destruct Hn as [x Hx].
    vm_compute in Hx. discriminate.
  - intros ->. done.
Qed.

Lemma the_first_key_starts_the_synthesizer_witness :
  ∃ s,
    AppComponent.synthRef
      (KeyListener.handleKeyDown running
         {| KeyListener.key :=
              Keyboard.key {| Keyboard.note := 60; Keyboard.key := "a";
                              Keyboard.type := Keyboard.white |};
            KeyListener.repeat := false |}
         (∅, AppComponent.session [] AppComponent.initialApp)).2 = Some s
    ∧ AppComponent.isInitialized
        (KeyListener.handleKeyDown running
           {| KeyListener.key :=
                Keyboard.key {| Keyboard.note := 60; Keyboard.key := "a";
                                Keyboard.type := Keyboard.white |};
              KeyListener.repeat := false |}
           (∅, AppComponent.session [] AppComponent.initialApp)).2 = true
    ∧ dom (activeNotes s)
      = {[ (Keyboard.note {| Keyboard.note := 60; Keyboard.key := "a";
                             Keyboard.type := Keyboard.white |}
            + AppComponent.octaveOffset
                (AppComponent.session [] AppComponent.initialApp) * 12)%Z ]}.
Proof.
  apply (the_first_key_starts_the_synthesizer running []
           {| Keyboard.note := 60; Keyboard.key := "a"; Keyboard.type := Keyboard.white |} ∅).
  - apply list_elem_of_here.
  - apply not_elem_of_empty.
  - reflexivity.
Defined.

(** ** The keys under the mouse *)

Lemma onMouse_keeps (o : Z) (e : Keyboard.MouseEvent)
    (pressedKeys : gset Z) (a : AppComponent.App) (s : Runtime) :
  appInvariant a → AppComponent.octaveOffset a = o →
  AppComponent.synthRef a = Some s →
  (∀ k, k ∈ Keyboard.keys →
        Keyboard.note k ∈ pressedKeys
        ↔ is_Some (activeNotes s !! (Keyboard.note k + o * 12)%Z)) →
  ∃ s',
    appInvariant
      (Keyboard.onMouse AppComponent.handleNoteOn AppComponent.handleNoteOff
         (pressedKeys, a) e).2
    ∧ AppComponent.octaveOffset
        (Keyboard.onMouse AppComponent.handleNoteOn AppComponent.handleNoteOff
           (pressedKeys, a) e).2 = o
    ∧ AppComponent.synthRef
        (Keyboard.onMouse AppComponent.handleNoteOn AppComponent.handleNoteOff
           (pressedKeys, a) e).2 = Some s'
    ∧ ∀ k, k ∈ Keyboard.keys →
        Keyboard.note k
          ∈ (Keyboard.onMouse AppComponent.handleNoteOn AppComponent.handleNoteOff
               (pressedKeys, a) e).1
        ↔ is_Some (activeNotes s' !! (Keyboard.note k + o * 12)%Z).
Proof.
  intros I Ho Hs Hkeys. pose proof I as (Hoct & _).
  assert (Hstart : ∀ note, ∃ s',
    appInvariant (AppComponent.handleNoteOn note a)
    ∧ AppComponent.octaveOffset (AppComponent.handleNoteOn note a) = o
    ∧ AppComponent.synthRef (AppComponent.handleNoteOn note a) = Some s'
    ∧ ∀ k, k ∈ Keyboard.keys →
        Keyboard.note k ∈ pressedKeys ∪ {[note]}
        ↔ is_Some (activeNotes s' !! (Keyboard.note k + o * 12)%Z)).
  { intros note.
    pose proof (appInvariant_handle a (AppComponent.HandleNoteOn note) I) as I'.
    cbn [AppComponent.handle] in I'.
    destruct (decide (0 ≤ note + o * 12 ≤ 127)%Z) as [Hf|Hf].
    - destruct (handleNoteOn_registers a s note I Hs) as (E & Hlive & Hother);
        [rewrite Ho; lia|].
      rewrite Ho in *. exists (noteOn (note + o * 12) s).2.
      split; [done|]. rewrite E. unfold AppComponent.onSynth.
      cbn [AppComponent.octaveOffset AppComponent.synthRef]. rewrite Hs.
      split; [done|]. split; [done|].
      intros k Hk. rewrite elem_of_union, elem_of_singleton.
      destruct (decide (Keyboard.note k = note)) as [->|Hne].
      + split; [done|]. by right.
      + rewrite Hother by lia. rewrite <- (Hkeys k Hk). tauto.
    - exists s.
      assert (E : AppComponent.handleNoteOn note a = a).
      { unfold AppComponent.handleNoteOn. rewrite Hs, Ho.
        destruct (decide (0 ≤ note + o * 12)%Z).
        - rewrite bool_decide_eq_true_2 by done.
          by rewrite bool_decide_eq_false_2 by lia.
        - by rewrite bool_decide_eq_false_2 by done. }
      rewrite E. split; [done|]. split; [done|]. split; [done|].
      intros k Hk. rewrite elem_of_union, elem_of_singleton.
      pose proof (keys_range k Hk). rewrite <- (Hkeys k Hk).
      split; [|tauto]. intros [?|?]; [done|]. lia. }
  assert (Hend : ∀ note, ∃ s',
    appInvariant (AppComponent.handleNoteOff note a)
    ∧ AppComponent.octaveOffset (AppComponent.handleNoteOff note a) = o
    ∧ AppComponent.synthRef (AppComponent.handleNoteOff note a) = Some s'
    ∧ ∀ k, k ∈ Keyboard.keys →
        Keyboard.note k ∈ pressedKeys ∖ {[note]}
        ↔ is_Some (activeNotes s' !! (Keyboard.note k + o * 12)%Z)).
  { intros note.
    pose proof (appInvariant_handle a (AppComponent.HandleNoteOff note) I) as I'.
    cbn [AppComponent.handle] in I'.
    destruct (decide (0 ≤ note + o * 12 ≤ 127)%Z) as [Hf|Hf].
    - destruct (handleNoteOff_unregisters a s note I Hs) as (E & Hdel);
        [rewrite Ho; lia|].
      rewrite Ho in *. exists (noteOff (note + o * 12) s).2.
      split; [done|]. rewrite E. unfold AppComponent.onSynth.
      cbn [AppComponent.octaveOffset AppComponent.synthRef]. rewrite Hs.
      split; [done|]. split; [done|].
      intros k Hk. rewrite elem_of_difference, elem_of_singleton, Hdel.
      destruct (decide (Keyboard.note k = note)) as [->|Hne].
      + rewrite lookup_delete_eq. split; [tauto|]. intros [? ?]; discriminate.
      + rewrite lookup_delete_ne by lia. rewrite <- (Hkeys k Hk). tauto.
    - exists s.
      assert (E : AppComponent.handleNoteOff note a = a).
      { unfold AppComponent.handleNoteOff. rewrite Hs, Ho.
        destruct (decide (0 ≤ note + o * 12)%Z).
        - rewrite bool_decide_eq_true_2 by done.
          by rewrite bool_decide_eq_false_2 by lia.
        - by rewrite bool_decide_eq_false_2 by done. }
      rewrite E. split; [done|]. split; [done|]. split; [done|].
      intros k Hk. rewrite elem_of_difference, elem_of_singleton.
      pose proof (keys_range k Hk). rewrite <- (Hkeys k Hk).
      split; [tauto|]. intros ?. split; [done|]. lia. }
  destruct e as [note|note|note]; cbn [Keyboard.onMouse
    Keyboard.handleInteractionStart Keyboard.handleInteractionEnd fst snd].
  - apply Hstart.
  - apply Hend.
  - apply Hend.
Qed.

(** X23. Played with the mouse, the keyboard shows what sounds: from a
    synthesizer with no registered note and no pressed key, after any
    [mousedown], [mouseup] and [mouseleave] on the keys, a key is in
    [pressedKeys] exactly when its note, transposed, is registered. *)
Theorem the_pressed_keys_are_the_notes_that_sound
    (events : list AppComponent.Event) (mouse : list Keyboard.MouseEvent)
    (s : Runtime) (k : Keyboard.Key) :
  AppComponent.synthRef (AppComponent.session events AppComponent.initialApp) = Some s →
  activeNotes s = ∅ →
  k ∈ Keyboard.keys →
  ∃ s',
    AppComponent.synthRef
      (foldl (Keyboard.onMouse AppComponent.handleNoteOn AppComponent.handleNoteOff)
         (∅, AppComponent.session events AppComponent.initialApp) mouse).2 = Some s'
    ∧ (Keyboard.note k
         ∈ (foldl (Keyboard.onMouse AppComponent.handleNoteOn AppComponent.handleNoteOff)
              (∅, AppComponent.session events AppComponent.initialApp) mouse).1
       ↔ is_Some
           (activeNotes s'
              !! (Keyboard.note k
                  + AppComponent.octaveOffset
                      (AppComponent.session events AppComponent.initialApp) * 12)%Z)).
Proof.
  intros Hs Hempty Hk.
  pose proof (appInvariant_reachable events) as I.
  set (a := AppComponent.session events AppComponent.initialApp) in *. clearbody a.
  set (o := AppComponent.octaveOffset a).
  assert (G : ∀ (st : gset Z * AppComponent.App) s0,
    appInvariant st.2 → AppComponent.octaveOffset st.2 = o →
    AppComponent.synthRef st.2 = Some s0 →
    (∀ k, k ∈ Keyboard.keys →
       Keyboard.note k ∈ st.1 ↔ is_Some (activeNotes s0 !! (Keyboard.note k + o * 12)%Z)) →
    ∃ s',
      AppComponent.synthRef
        (foldl (Keyboard.onMouse AppComponent.handleNoteOn AppComponent.handleNoteOff)
           st mouse).2 = Some s'
      ∧ ∀ k, k ∈ Keyboard.keys →
          Keyboard.note k
            ∈ (foldl (Keyboard.onMouse AppComponent.handleNoteOn
                        AppComponent.handleNoteOff) st mouse).1
          ↔ is_Some (activeNotes s' !! (Keyboard.note k + o * 12)%Z)).
  { induction mouse as [|e mouse IH]; intros [pressed a0] s0 I0 Ho0 Hs0 H0; cbn [foldl].
    - exists s0. by split.
    - cbn [fst snd] in *.
      destruct (onMouse_keeps o e pressed a0 s0 I0 Ho0 Hs0 H0) as (s1 & I1 & Ho1 & Hs1 & H1).
      by apply (IH _ s1). }
  destruct (G (∅, a) s I eq_refl Hs) as (s' & Hs' & H').
  { intros k' _. cbn [fst]. rewrite Hempty, lookup_empty. split.
    - intros H. by apply elem_of_empty in H.
    - intros [? ?]; discriminate. }
  exists s'. split; [done|]. by apply H'.
Qed.

Lemma the_pressed_keys_witness :
  ∃ s',
    AppComponent.synthRef
      (foldl (Keyboard.onMouse AppComponent.handleNoteOn AppComponent.handleNoteOff)
         (∅, AppComponent.session [AppComponent.InitAudio running] AppComponent.initialApp)
         [Keyboard.MouseDown 60; Keyboard.MouseDown 62; Keyboard.MouseUp 60]).2 = Some s'
    ∧ (Keyboard.note {| Keyboard.note := 62; Keyboard.key := "s";
                        Keyboard.type := Keyboard.white |}
         ∈ (foldl (Keyboard.onMouse AppComponent.handleNoteOn AppComponent.handleNoteOff)
              (∅, AppComponent.session [AppComponent.InitAudio running]
                    AppComponent.initialApp)
              [Keyboard.MouseDown 60; Keyboard.MouseDown 62; Keyboard.MouseUp 60]).1
       ↔ is_Some
           (activeNotes s'
              !! (Keyboard.note {| Keyboard.note := 62; Keyboard.key := "s";
                                   Keyboard.type := Keyboard.white |}
                  + AppComponent.octaveOffset
                      (AppComponent.session [AppComponent.InitAudio running]
                         AppComponent.initialApp) * 12)%Z)).
Proof.
  apply (the_pressed_keys_are_the_notes_that_sound [AppComponent.InitAudio running]
           [Keyboard.MouseDown 60; Keyboard.MouseDown 62; Keyboard.MouseUp 60]
           (setPatch initialPatch (initial running)).2
           {| Keyboard.note := 62; Keyboard.key := "s"; Keyboard.type := Keyboard.white |}).
  - reflexivity.
  - reflexivity.
  - do 2 apply list_elem_of_further. apply list_elem_of_here.
Defined.

(** ** The import *)

Section ImportShape.
Import PatchImport.
Local Open Scope string_scope.

(** X20. The import looks only at the shape: whatever value has a
    truthy [algorithm] and an [operators] whose [length] is 4 (an array
    of four [null], for one) becomes the patch, and no alert is shown. *)
Theorem import_looks_only_at_the_shape
    (JSON_parse : string → option Json) (text : string) (a : App)
    (importedPatch algorithm operators : Json) :
  JSON_parse text = Some importedPatch →
  getProperty importedPatch "algorithm" = Return (defined algorithm) →
  truthy (defined algorithm) = true →
  getProperty importedPatch "operators" = Return (defined operators) →
  getProperty operators "length" = Return (defined (JNumber 4)) →
  onload JSON_parse text a = setPatch importedPatch a
  ∧ alerts (onload JSON_parse text a) = alerts a.
Proof.
  intros Hparse Ha Ta Ho Hl.
  assert (To : truthy (defined operators) = true).
  { destruct operators as [|b|x|s|l|fields]; cbn in Hl; try discriminate; try done.
    destruct s; [|done]. cbn in Hl. injection Hl as Hl. lra. }
  assert (E : onload JSON_parse text a = setPatch importedPatch a).
  { unfold onload, validShape. rewrite Hparse, Ha, Ta, Ho, To, Hl.
    cbn [is_four]. by rewrite bool_decide_eq_true_2. }
  by rewrite E.
Qed.

Lemma import_looks_only_at_the_shape_witness :
  onload (λ _ : string,
            Some (JObject [("algorithm", JString "first");
                           ("operators", JArray [JNull; JNull; JNull; JNull])]))
      "four nulls" {| patch := JNull; alerts := [] |}
    = setPatch (JObject [("algorithm", JString "first");
                         ("operators", JArray [JNull; JNull; JNull; JNull])])
        {| patch := JNull; alerts := [] |}
  ∧ alerts (onload (λ _ : string,
              Some (JObject [("algorithm", JString "first");
                             ("operators", JArray [JNull; JNull; JNull; JNull])]))
              "four nulls" {| patch := JNull; alerts := [] |})
    = alerts {| patch := JNull; alerts := [] |}.
Proof.
  apply (import_looks_only_at_the_shape
           (λ _ : string,
              Some (JObject [("algorithm", JString "first");
                             ("operators", JArray [JNull; JNull; JNull; JNull])]))
           "four nulls" {| patch := JNull; alerts := [] |}
           (JObject [("algorithm", JString "first");
                     ("operators", JArray [JNull; JNull; JNull; JNull])])
           (JString "first") (JArray [JNull; JNull; JNull; JNull])).
  - reflexivity.
  - reflexivity.
  - reflexivity.
  - reflexivity.
  - cbn. do 3 f_equal. lra.
Defined.

End ImportShape.
